(** * Domain-decomposition driver (examples/ex3p_dd.cpp) and the
      shifted-boundary element marking (miniapps/shifted_methods/neumann.cpp)

    A shallow embedding of the parts of the two drivers that the
    specification talks about: the global interface index and its decoding,
    the partitioning loop that tags every element with its subdomain, the
    loop that builds the interface meshes, the solve-and-recover block, and
    the element classification of the shifted-boundary solver.  Of the rest
    of the two files it embeds the loops that work on arrays: in
    neumann.cpp the stretching of the nodes, the attributes and flags of
    the trimmed elements, the scan of the faces of the shifted boundary,
    the essential dofs, the choice of the coefficients and the masking of
    the error; in ex3p_dd.cpp the range of the element sizes, the two
    Hypre tests and the offsets of [PrintDenseMatrixOfOperator].

    Part I holds the embedding, Part II the properties proved of it. *)

From Stdlib Require Import ZArith Lia List Bool Ring.
From Stdlib Require Import Floats.PrimFloat.
From Stdlib Require Floats.SpecFloat Floats.FloatOps Floats.FloatAxioms.
From stdpp Require Import base list.

(** * Part I: the embedding *)

(** ** Machine integers

    The drivers compute with C++ [int].  Values are kept as [Z]; sums,
    differences and products are followed by the wrap-around into the
    32-bit two's-complement range, and a division may have no value. *)

Module CInt.
Local Open Scope Z_scope.

Definition INT_MIN : Z := - 2 ^ 31.

Definition INT_MAX : Z := 2 ^ 31 - 1.

Definition in_range (z : Z) : Prop := INT_MIN <= z <= INT_MAX.

Definition wrap (z : Z) : Z := (z + 2 ^ 31) mod 2 ^ 32 - 2 ^ 31.

Definition add (a b : Z) : Z := wrap (a + b).

Definition sub (a b : Z) : Z := wrap (a - b).

Definition mul (a b : Z) : Z := wrap (a * b).

(** C++ integer division truncates towards zero.  It has no value for a
    zero divisor, nor for [INT_MIN / -1], whose quotient is not an [int]. *)
Definition div (a b : Z) : option Z :=
  if (b =? 0) || ((a =? INT_MIN) && (b =? -1)) then None
  else Some (wrap (a ÷ b)).

End CInt.

(** ** The global interface index (ex3p_dd.cpp, lines 561-562) *)

Section InterfaceIndex.
Local Open Scope Z_scope.

(** The index of the interface between subdomains [sd0] and [sd1], as the
    comment on lines 561-562 gives it:
    [globalIndex = (numSubdomains * sd0) + sd1]. *)
Definition globalIndex (numSubdomains sd0 sd1 : Z) : Z :=
  numSubdomains * sd0 + sd1.

(** The same formula on machine integers. *)
Definition globalIndex_int (numSubdomains sd0 sd1 : Z) : Z :=
  CInt.add (CInt.mul numSubdomains sd0) sd1.

(** Lines 561-562 read over the integers:
    [sd0 = interfaceGI[i] / numSubdomains] and
    [sd1 = interfaceGI[i] - (numSubdomains * sd0)]. *)
Definition decodeInterfaceIndex (numSubdomains g : Z) : Z * Z :=
  let sd0 := g ÷ numSubdomains in
  let sd1 := g - numSubdomains * sd0 in
  (sd0, sd1).

(** Lines 561-562 on machine integers; there is no pair when the division
    has no value. *)
Definition decodeInterfaceIndex_int (numSubdomains g : Z) : option (Z * Z) :=
  match CInt.div g numSubdomains with
  | Some sd0 =>
      let sd1 := CInt.sub g (CInt.mul numSubdomains sd0) in
      Some (sd0, sd1)
  | None => None
  end.

End InterfaceIndex.

(** ** Outcomes of a driver step

    A step of a driver either completes, or stops the run through a failed
    [MFEM_VERIFY], or leaves the program (an early [return] of [main] with
    an exit code), or reads outside an array or divides by zero, which C++
    leaves undefined.
    [OutOfFuel] is the loop combinator running out of its iteration
    budget; the loops below are shown never to reach it. *)

Inductive result (A : Type) : Type :=
| Ret (a : A)
| Aborted
| Exit (code : Z)
| Undefined
| OutOfFuel.

Arguments Ret {A} a.
Arguments Aborted {A}.
Arguments Exit {A} code.
Arguments Undefined {A}.
Arguments OutOfFuel {A}.

#[export] Instance result_ret : MRet result := fun _ a => Ret a.

#[export] Instance result_bind : MBind result := fun _ _ k r =>
  match r with
  | Ret a => k a
  | Aborted => Aborted
  | Exit c => Exit c
  | Undefined => Undefined
  | OutOfFuel => OutOfFuel
  end.

#[export] Instance result_fmap : FMap result := fun _ _ f r =>
  match r with
  | Ret a => Ret (f a)
  | Aborted => Aborted
  | Exit c => Exit c
  | Undefined => Undefined
  | OutOfFuel => OutOfFuel
  end.

(** [MFEM_VERIFY(cond, msg)]: the run stops when [cond] is false. *)
Definition MFEM_VERIFY (cond : bool) : result unit :=
  if cond then Ret tt else Aborted.

(** [for (int i = i0; i < bound; ++i) body], the bound evaluated again
    before every iteration, as C++ does. *)
Fixpoint for_loop {St : Type} (fuel : nat) (bound : St -> nat)
    (body : nat -> St -> result St) (i : nat) (s : St) : result St :=
  if (i <? bound s)%nat then
    match fuel with
    | O => OutOfFuel
    | S fuel' => s' ← body i s; for_loop fuel' bound body (S i) s'
    end
  else Ret s.

(** [a[i]] read from a [std::vector]. *)
Definition array_get {A : Type} (a : list A) (i : nat) : result A :=
  match a !! i with
  | Some x => Ret x
  | None => Undefined
  end.

(** [a[i] = x] on an [Array<int>]. *)
Definition array_set {A : Type} (a : list A) (i : nat) (x : A)
  : result (list A) :=
  if (i <? length a)%nat then Ret (<[i := x]> a) else Undefined.

(** [a / b] on [int]s: a division without a value is undefined. *)
Definition int_div (a b : Z) : result Z :=
  match CInt.div a b with
  | Some q => Ret q
  | None => Undefined
  end.

(** ** Meshes and element attributes

    Of a mesh the drivers read and write one thing per element, its
    attribute.  [GetNE] is the number of elements. *)

Record Mesh : Type := { attributes : list Z }.

Definition GetNE (m : Mesh) : nat := length (attributes m).

Definition GetAttribute (m : Mesh) (i : nat) : option Z := attributes m !! i.

(** [mesh->SetAttribute(i, attr)]. *)
Definition SetAttribute (i : nat) (attr : Z) (m : Mesh) : Mesh :=
  {| attributes := <[i := attr]> (attributes m) |}.

(** ** The partitioning step (ex3p_dd.cpp, lines 427-434)

    [subdomain] is the array that [CartesianPartitioning] returned.  The
    state of the loop is the mesh together with the list of the element
    indices that [SetAttribute] was called on, in the order of the calls. *)

(** The attribute written for subdomain [sd]: the [int] [sd + 1]. *)
Definition subdomainAttribute (sd : Z) : Z := CInt.add sd 1.

Definition partition_body (subdomain : list Z) (i : nat)
    (st : Mesh * list nat) : result (Mesh * list nat) :=
  match subdomain !! i with
  | Some sd => Ret (SetAttribute i (subdomainAttribute sd) st.1, st.2 ++ [i])
  | None => Undefined
  end.

Definition partitionMesh (mesh : Mesh) (subdomain : list Z)
  : result (Mesh * list nat) :=
  for_loop (GetNE mesh) (fun st => GetNE st.1) (partition_body subdomain)
           0%nat (mesh, []).

(** The elements of subdomain [sd]: those whose attribute is [sd + 1]. *)
Definition subdomainElements (m : Mesh) (sd : Z) : list nat :=
  filter (fun i => GetAttribute m i = Some (sd + 1)%Z) (seq 0 (GetNE m)).

(** ** Element marking of the shifted-boundary solver
       (neumann.cpp, lines 158-220)

    Level-set values are IEEE doubles, compared with [0.] by [<=].  Of the
    finite element machinery the loops use [GetValues]: the level-set
    values at the quadrature points of an element, as many as the
    integration rule has points. *)

Definition nonpositive (val : float) : bool := PrimFloat.leb val 0%float.

(** Lines 171-176: [count] after the loop over the quadrature points. *)
Definition countNonPositive (vals : list float) : Z :=
  fold_left (fun count val => if nonpositive val then CInt.add count 1
                              else count)
            vals 0%Z.

Record MarkState : Type := {
  elem_marker : list Z;
  pmesh : Mesh
}.

Section ElementMarking.
Variable GetValues : nat -> list float.
Variable trimin : bool.

(** Lines 164-187, one iteration of the loop over the local elements. *)
Definition mark_local (i : nat) (st : MarkState) : result MarkState :=
  let vals := GetValues i in
  let npoints := Z.of_nat (length vals) in
  let pm := SetAttribute i 1 (pmesh st) in
  let count := countNonPositive vals in
  if (count =? npoints)%Z then
    em ← array_set (elem_marker st) i 1%Z;
    Ret {| elem_marker := em; pmesh := SetAttribute i 2 pm |}
  else if (count >? 0)%Z then
    em ← array_set (elem_marker st) i 2%Z;
    let attr := if trimin then 2%Z else 1%Z in
    Ret {| elem_marker := em; pmesh := SetAttribute i attr pm |}
  else
    Ret {| elem_marker := elem_marker st; pmesh := pm |}.

Variable GetNSharedFaces : nat.
Variable GetFaceNbrValues : nat -> list float.

(** Lines 193-219, one iteration of the loop over the shared faces;
    [i] starts at [GetNE()]. *)
Definition mark_neighbor (i : nat) (st : MarkState) : result MarkState :=
  let shared_fnum := (i - GetNE (pmesh st))%nat in
  let vals := GetFaceNbrValues shared_fnum in
  let nip := Z.of_nat (length vals) in
  let count := countNonPositive vals in
  if (count =? nip)%Z then
    em ← array_set (elem_marker st) i 1%Z;
    Ret {| elem_marker := em; pmesh := pmesh st |}
  else if (count >? 0)%Z then
    em ← array_set (elem_marker st) i 2%Z;
    Ret {| elem_marker := em; pmesh := pmesh st |}
  else Ret st.

(** Lines 158-220: [elem_marker] is created with one entry per local
    element and shared face, all [0]; then the two loops run. *)
Definition markElements (pm : Mesh) : result MarkState :=
  let st0 := {| elem_marker := replicate (GetNE pm + GetNSharedFaces) 0%Z;
                pmesh := pm |} in
  st1 ← for_loop (GetNE pm) (fun st => GetNE (pmesh st)) mark_local 0%nat st0;
  for_loop GetNSharedFaces
           (fun st => (GetNE (pmesh st) + GetNSharedFaces)%nat)
           mark_neighbor (GetNE pm) st1.

End ElementMarking.

(** ** Interfaces and the meshes built from them
       (ex3p_dd.cpp, lines 521-567)

    ddmesh.hpp, which declares [SubdomainInterface] and the two mesh
    generators, is not part of the sources at hand. *)

(** Modelled from the spec: class [SubdomainInterface] of ddmesh.hpp.  An
    interface is the ordered pair of its subdomains, its global index (not
    set by the constructor), and the faces and vertices it holds on this
    process. *)
Record SubdomainInterface : Type := {
  sd0 : Z;
  sd1 : Z;
  globalIndex_field : option Z;
  faces : list nat;
  vertices : list nat
}.

(** Modelled from the spec: the constructor [SubdomainInterface(sd0, sd1)],
    an interface that holds nothing yet. *)
Definition newSubdomainInterface (s0 s1 : Z) : SubdomainInterface :=
  {| sd0 := s0; sd1 := s1; globalIndex_field := None;
     faces := []; vertices := [] |}.

(** Modelled from the spec: [SetGlobalIndex(numSubdomains)], which stores
    [globalIndex = (numSubdomains * sd0) + sd1]. *)
Definition SetGlobalIndex (numSubdomains : Z) (ifc : SubdomainInterface)
  : SubdomainInterface :=
  {| sd0 := sd0 ifc; sd1 := sd1 ifc;
     globalIndex_field :=
       Some (globalIndex_int numSubdomains (sd0 ifc) (sd1 ifc));
     faces := faces ifc; vertices := vertices ifc |}.

(** Modelled from the spec: [GetGlobalIndex()]; reading an index that was
    never set is not defined. *)
Definition GetGlobalIndex (ifc : SubdomainInterface) : result Z :=
  match globalIndex_field ifc with
  | Some g => Ret g
  | None => Undefined
  end.

(** The local part of an interface mesh extracted from [pmesh]: the faces
    of [pmesh] that make up its elements.  A zero-face mesh has none. *)
Record SubMesh : Type := { entities : list nat }.

Definition SubMesh_GetNE (m : SubMesh) : nat := length (entities m).

(** Modelled from the spec: [CreateParallelInterfaceMesh] of ddmesh.hpp
    (section 4.3): the mesh of the faces that the interface holds; an
    interface without faces gives a mesh object without elements, not a
    failure. *)
Definition CreateParallelInterfaceMesh (ifc : SubdomainInterface)
  : result SubMesh :=
  Ret {| entities := faces ifc |}.

(** Modelled from the spec: what the subdomain mesh builder reads of
    [pmesh] besides the attributes.  Section 4.2 names the element
    connectivity and the vertex coordinates: the vertices of every element,
    by their numbers in [pmesh], and the coordinates of every vertex. *)
Record Connectivity : Type := {
  elementVertices : list (list nat);
  vertexCoordinates : list (list float)
}.

(** Modelled from the spec: a subdomain mesh (section 4.2), an independent
    mesh that numbers its vertices on its own.  [parentElements] and
    [parentVertices] name, for every element and every vertex of the mesh,
    the one of [pmesh] that it copies. *)
Record SubdomainMesh : Type := {
  parentElements : list nat;
  parentVertices : list nat;
  localElements : list (list nat);
  localCoordinates : list (list float)
}.

Definition SubdomainMesh_GetNE (m : SubdomainMesh) : nat :=
  length (localElements m).

Definition SubdomainMesh_GetNV (m : SubdomainMesh) : nat :=
  length (localCoordinates m).

(** The number that the vertex [v] of [pmesh] gets in a mesh whose vertices
    copy [vertices], if [v] is among them. *)
Definition localVertex (vertices : list nat) (v : nat) : option nat :=
  fst <$> list_find (fun u => u = v) vertices.

(** Modelled from the spec: the mesh of the subdomain [s] (section 4.2).  It
    consists of the elements of [pmesh] tagged with [s], in their order;
    its vertices are the vertices of these elements, each once; the
    connectivity is rewritten in the new numbers and the coordinates are
    copied.  The builder has no mesh to give, [None], when the connectivity
    of [pmesh] misses an element or names a vertex that [pmesh] does not
    have. *)
Definition CreateParallelSubdomainMesh (pm : Mesh) (conn : Connectivity)
    (s : nat) : option SubdomainMesh :=
  let elems := subdomainElements pm (Z.of_nat s) in
  conns ← mapM (fun e => elementVertices conn !! e) elems;
  let verts := remove_dups (concat conns) in
  locals ← mapM (mapM (localVertex verts)) conns;
  coords ← mapM (fun v => vertexCoordinates conn !! v) verts;
  Some {| parentElements := elems; parentVertices := verts;
          localElements := locals; localCoordinates := coords |}.

(** Modelled from the spec: [CreateParallelSubdomainMeshes] of ddmesh.hpp
    (section 4.2): one mesh per subdomain id; [None] is the null pointer,
    returned when one of the meshes cannot be built. *)
Definition CreateParallelSubdomainMeshes (numSubdomains : Z) (pm : Mesh)
    (conn : Connectivity) : option (list SubdomainMesh) :=
  mapM (CreateParallelSubdomainMesh pm conn)
       (seq 0 (Z.to_nat numSubdomains)).

(** The connectivity that a mesh hands to the builder: one entry per
    element, and no vertex number beyond the vertices. *)
Definition well_formed_pmesh (pm : Mesh) (conn : Connectivity) : Prop :=
  length (elementVertices conn) = GetNE pm
  /\ Forall (Forall (fun v => (v < length (vertexCoordinates conn))%nat))
            (elementVertices conn).

(** A mesh object that can be used as a mesh: one connectivity entry per
    element, one coordinate entry per vertex, and no vertex number beyond
    the vertices. *)
Definition valid_SubdomainMesh (m : SubdomainMesh) : Prop :=
  length (localElements m) = length (parentElements m)
  /\ length (localCoordinates m) = length (parentVertices m)
  /\ Forall (Forall (fun k => (k < SubdomainMesh_GetNV m)%nat))
            (localElements m).

(** Modelled from the spec: the indices of all pairs [sd0 < sd1] of
    subdomains, in the fixed order that every process derives on its own
    (section 4.1). *)
Definition allInterfaceIndices (numSubdomains : nat) : list Z :=
  a ← seq 0 numSubdomains;
  b ← seq (S a) (numSubdomains - S a);
  [globalIndex (Z.of_nat numSubdomains) (Z.of_nat a) (Z.of_nat b)].

(** Modelled from the spec: the entry of the global-to-local map for the
    index [g], the position of the local interface that carries it, or
    [-1] when this process holds none (section 3). *)
Definition localInterfaceIndex (interfaces : list SubdomainInterface)
    (g : Z) : Z :=
  match list_find (fun ifc => globalIndex_field ifc = Some g) interfaces with
  | Some (iloc, _) => Z.of_nat iloc
  | None => (-1)%Z
  end.

(** Modelled from the spec: [GlobalToLocalInterfaceMap] of ddmesh.hpp
    (sections 3 and 4.1).  [reported] are the indices that the other
    processes can realize.  The agreed enumeration [interfaceGI] lists, in
    the fixed order, the indices that some process realizes; the map gives
    for each of them the position of the local interface, or a negative
    placeholder; the number of interfaces is returned. *)
Definition GlobalToLocalInterfaceMap (numSubdomains : nat)
    (interfaces : list SubdomainInterface) (reported : list Z)
  : Z * list Z * list Z :=
  let own := omap globalIndex_field interfaces in
  let interfaceGI :=
    filter (fun g => g ∈ own ++ reported)
           (allInterfaceIndices numSubdomains) in
  let interfaceGlobalToLocalMap :=
    localInterfaceIndex interfaces <$> interfaceGI in
  (Z.of_nat (length interfaceGI), interfaceGlobalToLocalMap, interfaceGI).

Section InterfaceMeshes.
Variable numSubdomains : Z.
Variable interfaces : list SubdomainInterface.
Variable interfaceGlobalToLocalMap : list Z.
Variable interfaceGI : list Z.
Variable numInterfaces : Z.

(** Lines 561-564: the interface object built for an index that this
    process does not realize. *)
Definition emptyInterface (gi : Z) : result SubdomainInterface :=
  s0 ← int_div gi numSubdomains;
  let s1 := CInt.sub gi (CInt.mul numSubdomains s0) in
  Ret (SetGlobalIndex numSubdomains (newSubdomainInterface s0 s1)).

(** Lines 552-566: the interface that is handed to
    [CreateParallelInterfaceMesh] for entry [i] (on line 556 or 565) and
    the mesh that comes back. *)
Definition interfaceMeshAt (i : nat)
  : result (SubdomainInterface * SubMesh) :=
  iloc ← array_get interfaceGlobalToLocalMap i;
  if (iloc >=? 0)%Z then
    gi ← array_get interfaceGI i;
    ifc ← array_get interfaces (Z.to_nat iloc);
    g ← GetGlobalIndex ifc;
    _ ← MFEM_VERIFY (gi =? g)%Z;
    m ← CreateParallelInterfaceMesh ifc;
    Ret (ifc, m)
  else
    gi ← array_get interfaceGI i;
    ifc ← emptyInterface gi;
    m ← CreateParallelInterfaceMesh ifc;
    Ret (ifc, m).

(** One iteration.  The state is the array [pmeshInterfaces] together with
    the list of the interfaces handed to the generator so far, in the order
    of the calls. *)
Definition interface_body (i : nat)
    (st : list (option SubMesh) * list SubdomainInterface)
  : result (list (option SubMesh) * list SubdomainInterface) :=
  r ← interfaceMeshAt i;
  pmeshInterfaces ← array_set st.1 i (Some r.2);
  Ret (pmeshInterfaces, st.2 ++ [r.1]).

(** Lines 548-567.  The array is allocated with [numInterfaces] pointers
    that point nowhere yet. *)
Definition CreateInterfaceMeshes
  : result (list (option SubMesh) * list SubdomainInterface) :=
  for_loop (Z.to_nat numInterfaces) (fun _ => Z.to_nat numInterfaces)
           interface_body 0%nat
           (replicate (Z.to_nat numInterfaces) None, []).

(** Lines 541-567: subdomain meshes, the null check, interface meshes. *)
Definition createMeshes (pm : Mesh) (conn : Connectivity)
  : result (list SubdomainMesh * list (option SubMesh)) :=
  match CreateParallelSubdomainMeshes numSubdomains pm conn with
  | None => Exit 2
  | Some pmeshSD =>
      st ← CreateInterfaceMeshes;
      Ret (pmeshSD, st.1)
  end.

End InterfaceMeshes.

(** ** The interface operator (ddoper.hpp)

    ddoper.hpp, which declares [DDMInterfaceOperator], is not part of the
    sources at hand; the driver constructs the operator (lines 671-674),
    asks it for the reduced source (line 912), hands it to GMRES and asks
    it to recover the domain solution (line 994).  The operator is modelled
    from sections 4.4, 4.5 and 6 of the specification, over exact scalars:
    any commutative ring.  The rounding of [double] is not modelled, and
    the local solves are the operators of section 6, which always hand
    back a vector. *)

Class Scalar (K : Type) : Type := {
  rO : K;
  rI : K;
  radd : K -> K -> K;
  rmul : K -> K -> K;
  rsub : K -> K -> K;
  ropp : K -> K;
  scalar_ring : ring_theory rO rI radd rmul rsub ropp eq
}.

#[export] Instance Z_Scalar : Scalar Z := {|
  rO := 0%Z; rI := 1%Z;
  radd := Z.add; rmul := Z.mul; rsub := Z.sub; ropp := Z.opp;
  scalar_ring := InitialRing.Zth
|}.

Section Vectors.
Context {K : Type} `{Scalar K}.

(** [Vector]: [x = 0.0], [x + y], [a * x]. *)
Definition vzero (n : nat) : list K := replicate n rO.

Definition vadd (x y : list K) : list K := zip_with radd x y.

Definition vscale (a : K) (x : list K) : list K := rmul a <$> x.

(** [a*x + b*y]. *)
Definition lincomb (a : K) (x : list K) (b : K) (y : list K) : list K :=
  vadd (vscale a x) (vscale b y).

(** The sum of the vectors of a list, all of size [n]. *)
Definition vsum (n : nat) (xs : list (list K)) : list K :=
  foldr vadd (vzero n) xs.

(** Section 6 of the specification: a linear operator is consumed through
    its height, its width and its application to a vector. *)
Record Operator : Type := {
  Height : nat;
  Width : nat;
  Mult : list K -> list K
}.

(** The contract of such an operator: it maps vectors of its width to
    vectors of its height, and it is linear on them. *)
Record LinearOperator (A : Operator) : Prop := {
  Mult_length : forall x, length x = Width A -> length (Mult A x) = Height A;
  Mult_linear : forall a b x y,
    length x = Width A -> length y = Width A ->
    Mult A (lincomb a x b y) = lincomb a (Mult A x) b (Mult A y)
}.

(** An operator given by a dense matrix, one list per row. *)
Definition dot (r x : list K) : K := foldr radd rO (zip_with rmul r x).

Definition matrixOperator (width : nat) (rows : list (list K)) : Operator :=
  {| Height := length rows;
     Width := width;
     Mult := fun x => (fun r => dot r x) <$> rows |}.

End Vectors.

Arguments Operator K : clear implicits.

Section DDM.
Context {K : Type} `{Scalar K}.

(** Modelled from the spec: the data of [DDMInterfaceOperator] (sections 3,
    4.4 and 4.5).  Interfaces are numbered [0 .. numInterfaces-1];
    interface [k] lies between the subdomains [ifSubdomains k] and has a
    trace space of [traceSize k] unknowns on this process; subdomain [s]
    has a local problem of [sdSize s] unknowns.  The collaborators are
    operators: the map from the trace of interface [k] to boundary data of
    subdomain [s], the local solve of subdomain [s], the restriction of a
    local solution of [s] to interface [k], and the map from the global
    right-hand side to the data of subdomain [s].  [tc0] and [tc1] are the
    coefficients of the transmission condition that combines the two
    restricted solutions. *)
Record DDMData : Type := {
  ddNumSubdomains : nat;
  ddNumInterfaces : nat;
  ifSubdomains : nat -> nat * nat;
  traceSize : nat -> nat;
  sdSize : nat -> nat;
  globalSize : nat;
  toBoundaryData : nat -> nat -> Operator K;
  localSolve : nat -> Operator K;
  restrictToInterface : nat -> nat -> Operator K;
  sourceOfSubdomain : nat -> Operator K;
  tc0 : K;
  tc1 : K
}.

Variable D : DDMData.

(** The layout of the concatenation of all trace vectors. *)
Definition offset (k : nat) : nat := sum_list (traceSize D <$> seq 0 k).

Definition ddWidth : nat := offset (ddNumInterfaces D).

(** The part of [x] that belongs to interface [k]. *)
Definition block (k : nat) (x : list K) : list K :=
  take (traceSize D k) (drop (offset k) x).

Definition adjacent (s k : nat) : bool :=
  let p := ifSubdomains D k in (p.1 =? s)%nat || (p.2 =? s)%nat.

Definition adjacentInterfaces (s : nat) : list nat :=
  List.filter (adjacent s) (seq 0 (ddNumInterfaces D)).

(** Modelled from the spec: step 1 of Apply, the boundary data of
    subdomain [s] gathered from the traces of its interfaces. *)
Definition boundaryData (s : nat) (x : list K) : list K :=
  vsum (sdSize D s)
       ((fun k => Mult (toBoundaryData D s k) (block k x))
          <$> adjacentInterfaces s).

(** Modelled from the spec: steps 2 and 3 of Apply for one interface [k],
    on the data [g s] of every subdomain [s]: solve the two adjacent
    subdomains, restrict their local solutions to the interface and combine
    them into the outgoing trace. *)
Definition outgoingTrace (g : nat -> list K) (k : nat) : list K :=
  let u := fun s => Mult (localSolve D s) (g s) in
  let p := ifSubdomains D k in
  lincomb (tc0 D) (Mult (restrictToInterface D p.1 k) (u p.1))
          (tc1 D) (Mult (restrictToInterface D p.2 k) (u p.2)).

(** Modelled from the spec: the outgoing traces of all interfaces, each
    written at the offset of its interface. *)
Definition interfacePass (g : nat -> list K) : list K :=
  concat (outgoingTrace g <$> seq 0 (ddNumInterfaces D)).

(** Modelled from the spec: [DDMInterfaceOperator::Mult], one application
    of the interface operator (section 4.4). *)
Definition Apply (x : list K) : list K :=
  interfacePass (fun s => boundaryData s x).

(** Modelled from the spec: [GetReducedSource] (section 4.5), one pass of
    the same machinery driven by the global right-hand side, given as its
    real and imaginary parts as on line 912. *)
Definition GetReducedSource (B B_Im : list K) : list K :=
  interfacePass (fun s => Mult (sourceOfSubdomain D s) (B ++ B_Im)).

(** The operator handed to the Krylov solver: square, of the size of the
    concatenated trace spaces. *)
Definition DDMInterfaceOperator : Operator K :=
  {| Height := ddWidth; Width := ddWidth; Mult := Apply |}.

(** The contract of the collaborators. *)
Record DDMContract : Prop := {
  toBoundaryData_linear : forall s k,
    LinearOperator (toBoundaryData D s k)
    /\ Width (toBoundaryData D s k) = traceSize D k
    /\ Height (toBoundaryData D s k) = sdSize D s;
  localSolve_linear : forall s,
    LinearOperator (localSolve D s)
    /\ Width (localSolve D s) = sdSize D s
    /\ Height (localSolve D s) = sdSize D s;
  restrictToInterface_linear : forall s k,
    LinearOperator (restrictToInterface D s k)
    /\ Width (restrictToInterface D s k) = sdSize D s
    /\ Height (restrictToInterface D s k) = traceSize D k;
  sourceOfSubdomain_linear : forall s,
    LinearOperator (sourceOfSubdomain D s)
    /\ Width (sourceOfSubdomain D s) = (globalSize D + globalSize D)%nat
    /\ Height (sourceOfSubdomain D s) = sdSize D s
}.

End DDM.

Arguments DDMData K : clear implicits.

(** ** The solve-and-recover block (ex3p_dd.cpp, lines 899-1003)

    The Krylov solver is an external collaborator (section 6 of the
    specification): given an operator, its settings, a right-hand side and
    an initial guess it hands back a vector together with whether it
    converged and how many iterations it took.  [RecoverDomainSolution]
    belongs to ddoper.hpp and is taken as given. *)

Record KrylovSettings : Type := {
  RelTol : float;
  MaxIter : Z;
  KDim : Z;
  PrintLevel : Z
}.

Record KrylovOutcome (K : Type) : Type := {
  solution : list K;
  converged : bool;
  final_iter : Z
}.

Arguments solution {K} _.
Arguments converged {K} _.
Arguments final_iter {K} _.

(** What [main] does, call by call. *)
Inductive Call (K : Type) : Type :=
| CallGetReducedSource (B B_Im : list K)
| CallGMRES (settings : KrylovSettings) (b x0 : list K)
| CallRecoverDomainSolution (xdd Xfem X : list K).

Arguments CallGetReducedSource {K} B B_Im.
Arguments CallGMRES {K} settings b x0.
Arguments CallRecoverDomainSolution {K} xdd Xfem X.

Section SolveDD.
Context {K : Type} `{Scalar K}.
Variable D : DDMData K.
Variable GMRES_Mult :
  Operator K -> KrylovSettings -> list K -> list K -> KrylovOutcome K.
Variable RecoverDomainSolution : list K -> list K -> list K -> list K.

(** Lines 943-946. *)
Definition gmresSettings : KrylovSettings :=
  {| RelTol := 0x1.5798ee2308c3ap-27%float; (* the double 1e-8 *)
     MaxIter := 100; KDim := 100; PrintLevel := 1 |}.

(** Lines 904-994: the new [X] and the calls made, in order.  Nothing on
    these lines looks at whether the solver converged. *)
Definition solveDD (B X : list K) : result (list K * list (Call K)) :=
  let B_Im := vzero (length B) in
  let Bdd := GetReducedSource D B B_Im in
  let xdd := vzero (Width (DDMInterfaceOperator D)) in
  let out := GMRES_Mult (DDMInterfaceOperator D) gmresSettings Bdd xdd in
  let xdd := solution out in
  let Xfem := X in
  let X := vzero (length X) in
  Ret (RecoverDomainSolution xdd Xfem X,
       [ CallGetReducedSource B B_Im;
         CallGMRES gmresSettings Bdd (vzero (Width (DDMInterfaceOperator D)));
         CallRecoverDomainSolution xdd Xfem X ]).

End SolveDD.

(** ** Invariants, contracts and sample data used in Part II *)

Section PartitionInvariant.
Variable mesh : Mesh.
Variable subdomain : list Z.

(** After [i] iterations the first [i] attributes are the tags and the
    rest is as the mesh file had it. *)
Definition partition_inv (i : nat) (st : Mesh * list nat) : Prop :=
  attributes st.1
    = (subdomainAttribute <$> take i subdomain) ++ drop i (attributes mesh)
  /\ st.2 = seq 0 i
  /\ GetNE st.1 = GetNE mesh.

End PartitionInvariant.

(** [val <= 0.] holds. *)
Definition NonPositive (val : float) : Prop := nonpositive val = true.

(** The marker that lines 171-187 leave for an element whose level-set
    values at the quadrature points are [vals]. *)
Definition classify (vals : list float) : Z :=
  let count := countNonPositive vals in
  if (count =? Z.of_nat (length vals))%Z then 1%Z
  else if (count >? 0)%Z then 2%Z
  else 0%Z.

Section MarkingInvariants.
Variable GetValues : nat -> list float.
Variable GetNSharedFaces : nat.
Variable pm : Mesh.

Local Abbreviation size := (GetNE pm + GetNSharedFaces)%nat.

(** After [i] iterations of the first loop the first [i] markers are
    decided and the rest is still [0]. *)
Definition local_inv (i : nat) (st : MarkState) : Prop :=
  length (elem_marker st) = size
  /\ GetNE (pmesh st) = GetNE pm
  /\ (forall j, (j < i)%nat ->
        elem_marker st !! j = Some (classify (GetValues j)))
  /\ (forall j, (i <= j < size)%nat -> elem_marker st !! j = Some 0%Z).

(** The second loop leaves the markers of the local elements alone. *)
Definition neighbor_inv (i : nat) (st : MarkState) : Prop :=
  length (elem_marker st) = size
  /\ GetNE (pmesh st) = GetNE pm
  /\ (forall j, (j < GetNE pm)%nat ->
        elem_marker st !! j = Some (classify (GetValues j)))
  /\ (GetNE pm <= i)%nat.

End MarkingInvariants.

(** Loops that fill an array, one entry per iteration. *)

Section FillLoop.
Context {A : Type}.
Variable f : nat -> result A.
Variable N : nat.

Definition fill_body (i : nat) (arr : list (option A))
  : result (list (option A)) :=
  m ← f i; array_set arr i (Some m).

Definition fill_inv (i : nat) (arr : list (option A)) : Prop :=
  length arr = N
  /\ forall j, (j < i)%nat -> exists a, f j = Ret a /\ arr !! j = Some (Some a).

End FillLoop.

(** Loops that fill an array and keep a list of what each entry was made
    from. *)

Section LoggedLoop.
Context {A B : Type}.
Variable f : nat -> result (A * B).
Variable N : nat.

Definition logged_body (i : nat) (st : list (option B) * list A)
  : result (list (option B) * list A) :=
  r ← f i;
  arr ← array_set st.1 i (Some r.2);
  Ret (arr, st.2 ++ [r.1]).

Definition logged_inv (i : nat) (st : list (option B) * list A) : Prop :=
  length st.1 = N
  /\ length st.2 = i
  /\ forall j, (j < i)%nat ->
       exists a b, f j = Ret (a, b)
                   /\ st.1 !! j = Some (Some b) /\ st.2 !! j = Some a.

End LoggedLoop.

(** The contract of the interface builder. *)

Section InterfaceContract.
Variable interfaces : list SubdomainInterface.
Variable interfaceGlobalToLocalMap : list Z.
Variable interfaceGI : list Z.
Variable numInterfaces : Z.

Local Abbreviation N := (Z.to_nat numInterfaces).

(** What [GlobalToLocalInterfaceMap] hands over: both vectors have
    [numInterfaces] entries, and a non-negative entry of the map is the
    position of a local interface whose global index has been set. *)
Definition well_formed_map : Prop :=
  length interfaceGlobalToLocalMap = N
  /\ length interfaceGI = N
  /\ forall i iloc, interfaceGlobalToLocalMap !! i = Some iloc ->
       (0 <= iloc)%Z ->
       exists ifc g, interfaces !! Z.to_nat iloc = Some ifc
                     /\ GetGlobalIndex ifc = Ret g.

(** Entry [i] is realized locally and the local interface carries the
    agreed index. *)
Definition agrees (i : nat) : Prop :=
  forall iloc, interfaceGlobalToLocalMap !! i = Some iloc -> (0 <= iloc)%Z ->
    exists gi ifc, interfaceGI !! i = Some gi
                   /\ interfaces !! Z.to_nat iloc = Some ifc
                   /\ GetGlobalIndex ifc = Ret gi.

(** Entry [i] is realized locally and the local interface carries another
    index. *)
Definition mismatch (i : nat) : Prop :=
  exists iloc gi ifc g,
    interfaceGlobalToLocalMap !! i = Some iloc /\ (0 <= iloc)%Z
    /\ interfaceGI !! i = Some gi
    /\ interfaces !! Z.to_nat iloc = Some ifc
    /\ GetGlobalIndex ifc = Ret g
    /\ gi <> g.

End InterfaceContract.

(** A small instance over the integers: two subdomains of three unknowns
    each, one interface between them with two trace unknowns, a global
    problem of four unknowns. *)
Definition exampleDDM : DDMData Z := {|
  ddNumSubdomains := 2;
  ddNumInterfaces := 1;
  ifSubdomains := fun _ => (0%nat, 1%nat);
  traceSize := fun _ => 2%nat;
  sdSize := fun _ => 3%nat;
  globalSize := 4;
  toBoundaryData := fun s _ =>
    matrixOperator 2 [[1; 0]; [0; Z.of_nat s + 1]; [0; 0]]%Z;
  localSolve := fun s =>
    matrixOperator 3 [[2; 0; 0]; [0; 2; 0]; [1; Z.of_nat s; 1]]%Z;
  restrictToInterface := fun _ _ =>
    matrixOperator 3 [[1; 0; 0]; [0; 1; 1]]%Z;
  sourceOfSubdomain := fun s =>
    matrixOperator 8 [[1; 0; 0; 0; 0; 0; 0; 0]; [0; 1; 0; 0; 0; 1; 0; 0];
                      [0; 0; Z.of_nat s; 0; 0; 0; 1; 0]]%Z;
  tc0 := 1%Z;
  tc1 := (-1)%Z
|}.

(** A solver that gives up at once, leaving its initial guess. *)
Definition stalledSolver (A : Operator Z) (s : KrylovSettings)
    (b x0 : list Z) : KrylovOutcome Z :=
  {| solution := x0; converged := false; final_iter := MaxIter s |}.

(** ** Further parts of the shifted-boundary driver (neumann.cpp) *)

(** Lines 361-362 and 441-442: the elements that are left out of the
    assembly, by their marker. *)
Definition trimmed (trimin : bool) (marker : Z) : bool :=
  (trimin && (marker >? 0)%Z) || (negb trimin && (marker =? 1)%Z).

Section TrimAttributes.
Variable trimin : bool.
Variable max_elem_attr : Z.

(** Lines 437-439: [ess_elem], one flag per attribute up to
    [max_elem_attr], all [1], and a [0] appended. *)
Definition ess_elem : list Z :=
  replicate (Z.to_nat max_elem_attr) 1%Z ++ [0%Z].

(** Lines 440-446, one iteration. *)
Definition trim_body (elem_marker : list Z) (i : nat) (pm : Mesh)
  : result Mesh :=
  m ← array_get elem_marker i;
  if trimmed trimin m
  then Ret (SetAttribute i (CInt.add max_elem_attr 1) pm)
  else Ret pm.

Definition setTrimAttributes (elem_marker : list Z) (pm : Mesh)
  : result Mesh :=
  for_loop (GetNE pm) GetNE (trim_body elem_marker) 0%nat pm.

End TrimAttributes.

(** Lines 158-220 followed by lines 436-446; [max_elem_attr] is what
    [pmesh.attributes.Max()] gives on line 436. *)
Definition markAndTrim (GetValues : nat -> list float) (trimin : bool)
    (GetNSharedFaces : nat) (GetFaceNbrValues : nat -> list float)
    (max_elem_attr : Z) (pm : Mesh) : result (list Z * Mesh) :=
  st ← markElements GetValues trimin GetNSharedFaces GetFaceNbrValues pm;
  pm' ← setTrimAttributes trimin max_elem_attr (elem_marker st) (pmesh st);
  Ret (elem_marker st, pm').

(** The attribute that lines 169-187 leave on an element with marker [m]. *)
Definition markedAttribute (trimin : bool) (m : Z) : Z :=
  if (m =? 1)%Z then 2%Z
  else if (m =? 2)%Z then (if trimin then 2%Z else 1%Z)
  else 1%Z.

Section MarkingStateInvariants.
Variable GetValues : nat -> list float.
Variable trimin : bool.
Variable GetNSharedFaces : nat.
Variable GetFaceNbrValues : nat -> list float.
Variable pm : Mesh.

Local Abbreviation size := (GetNE pm + GetNSharedFaces)%nat.

Definition local_state_inv (i : nat) (st : MarkState) : Prop :=
  length (elem_marker st) = size
  /\ GetNE (pmesh st) = GetNE pm
  /\ (forall j, (j < i)%nat ->
        elem_marker st !! j = Some (classify (GetValues j))
        /\ GetAttribute (pmesh st) j
           = Some (markedAttribute trimin (classify (GetValues j))))
  /\ (forall j, (i <= j < size)%nat -> elem_marker st !! j = Some 0%Z).

Definition neighbor_state_inv (pm1 : Mesh) (i : nat) (st : MarkState)
  : Prop :=
  length (elem_marker st) = size
  /\ pmesh st = pm1
  /\ GetNE pm1 = GetNE pm
  /\ (GetNE pm <= i)%nat
  /\ (forall j, (j < GetNE pm)%nat ->
        elem_marker st !! j = Some (classify (GetValues j)))
  /\ (forall j, (GetNE pm <= j < i)%nat ->
        elem_marker st !! j
        = Some (classify (GetFaceNbrValues (j - GetNE pm))))
  /\ (forall j, (i <= j < size)%nat -> elem_marker st !! j = Some 0%Z).

End MarkingStateInvariants.

Section TrimInvariant.
Variable trimin : bool.
Variable max_elem_attr : Z.
Variable elem_marker : list Z.
Variable pm : Mesh.

Definition trim_inv (i : nat) (pm' : Mesh) : Prop :=
  GetNE pm' = GetNE pm
  /\ (forall j m, (j < i)%nat -> elem_marker !! j = Some m ->
        GetAttribute pm' j
        = if trimmed trimin m then Some (CInt.add max_elem_attr 1)
          else GetAttribute pm j)
  /\ (forall j, (i <= j)%nat -> GetAttribute pm' j = GetAttribute pm j).

End TrimInvariant.

(** *** Faces of the shifted boundary (neumann.cpp, lines 245-334)

    Of the mesh the three loops ask, per face, for the elements next to it
    ([None] is the null pointer that a face of another kind gives), for its
    boundary attribute and for its dofs. *)

(** Lines 263-264 and 325-326: [check_val]. *)
Definition check_val (trimin : bool) : Z := if trimin then 0%Z else 1%Z.

Record FaceScan : Type := {
  sbm_dofs : list Z;
  count1 : float;
  count2 : float;
  count3 : float;
  count3b : float
}.

Definition appendDofs (dofs : list Z) (st : FaceScan) : FaceScan :=
  {| sbm_dofs := sbm_dofs st ++ dofs;
     count1 := count1 st; count2 := count2 st;
     count3 := count3 st; count3b := count3b st |}.

Definition bump1 (st : FaceScan) : FaceScan :=
  {| sbm_dofs := sbm_dofs st;
     count1 := (count1 st + 1)%float; count2 := count2 st;
     count3 := count3 st; count3b := count3b st |}.

Definition bump2 (st : FaceScan) : FaceScan :=
  {| sbm_dofs := sbm_dofs st;
     count1 := count1 st; count2 := (count2 st + 1)%float;
     count3 := count3 st; count3b := count3b st |}.

Definition bump3 (st : FaceScan) : FaceScan :=
  {| sbm_dofs := sbm_dofs st;
     count1 := count1 st; count2 := count2 st;
     count3 := (count3 st + 1)%float; count3b := count3b st |}.

Definition bump3b (st : FaceScan) : FaceScan :=
  {| sbm_dofs := sbm_dofs st;
     count1 := count1 st; count2 := count2 st;
     count3 := count3 st; count3b := (count3b st + 1)%float |}.

Section ShiftedFaces.
Variable trimin : bool.
Variable elem_marker : list Z.
Variable GetFaceDofs : nat -> list Z.

Variable GetNumFaces : nat.
Variable GetInteriorFaceTransformations : nat -> option (nat * nat).

(** Lines 254-275, one iteration of the loop over all faces. *)
Definition interior_face_body (i : nat) (st : FaceScan) : result FaceScan :=
  match GetInteriorFaceTransformations i with
  | Some (ne1, ne2) =>
      let st := bump1 st in
      te1 ← array_get elem_marker ne1;
      te2 ← array_get elem_marker ne2;
      let st := if (te1 =? 2)%Z && (te2 =? check_val trimin)%Z
                then appendDofs (GetFaceDofs i) st else st in
      let st := if (te1 =? check_val trimin)%Z && (te2 =? 2)%Z
                then appendDofs (GetFaceDofs i) st else st in
      Ret st
  | None => Ret st
  end.

Variable GetNBE : nat.
Variable GetBdrAttribute : nat -> Z.
Variable GetBdrFaceTransformations : nat -> option nat.
Variable GetBdrFace : nat -> nat.

(** Lines 284-307, one iteration of the loop over the boundary elements. *)
Definition bdr_face_body (i : nat) (st : FaceScan) : result FaceScan :=
  let attr := GetBdrAttribute i in
  match GetBdrFaceTransformations i with
  | Some ne1 =>
      te1 ← array_get elem_marker ne1;
      if (attr =? 100)%Z then
        let st := bump2 st in
        let faceno := GetBdrFace i in
        if (te1 =? 0)%Z then Ret (appendDofs (GetFaceDofs faceno) st)
        else Ret st
      else if negb trimin && (te1 =? 1)%Z then
        let st := bump2 st in
        let faceno := GetBdrFace i in
        Ret (appendDofs (GetFaceDofs faceno) st)
      else Ret st
  | None => Ret st
  end.

Variable GetNE_ : nat.
Variable GetNSharedFaces : nat.
Variable GetSharedFaceTransformations : nat -> option nat.
Variable GetSharedFace : nat -> nat.

(** Lines 315-333, one iteration of the loop over the shared faces. *)
Definition shared_face_body (i : nat) (st : FaceScan) : result FaceScan :=
  match GetSharedFaceTransformations i with
  | Some ne1 =>
      let st := bump3b st in
      te1 ← array_get elem_marker ne1;
      te2 ← array_get elem_marker (i + GetNE_)%nat;
      let faceno := GetSharedFace i in
      if (te2 =? 2)%Z && (te1 =? check_val trimin)%Z
      then Ret (appendDofs (GetFaceDofs faceno) (bump3 st))
      else Ret st
  | None => Ret st
  end.

(** Lines 246-334: the three loops, one after the other. *)
Definition collectSBMDofs : result FaceScan :=
  let st := {| sbm_dofs := []; count1 := 0; count2 := 0;
               count3 := 0; count3b := 0 |} in
  st ← for_loop GetNumFaces (fun _ => GetNumFaces) interior_face_body 0%nat
                st;
  st ← for_loop GetNBE (fun _ => GetNBE) bdr_face_body 0%nat st;
  for_loop GetNSharedFaces (fun _ => GetNSharedFaces) shared_face_body 0%nat
           st.

(** The marker stored for element [e], when there is one. *)
Definition markerIs (e : nat) (m : Z) : bool :=
  match elem_marker !! e with
  | Some m' => (m' =? m)%Z
  | None => false
  end.

(** An interior face between a cut element and one with marker
    [check_val]. *)
Definition interiorSBMFace (i : nat) : bool :=
  match GetInteriorFaceTransformations i with
  | Some (ne1, ne2) =>
      (markerIs ne1 2 && markerIs ne2 (check_val trimin))
      || (markerIs ne1 (check_val trimin) && markerIs ne2 2)
  | None => false
  end.

(** A boundary face that is taken as a face of the shifted boundary. *)
Definition bdrSBMFace (i : nat) : bool :=
  match GetBdrFaceTransformations i with
  | Some ne1 =>
      if (GetBdrAttribute i =? 100)%Z then markerIs ne1 0
      else negb trimin && markerIs ne1 1
  | None => false
  end.

(** A shared face whose element on this process has marker [check_val]
    and whose element on the other process is cut. *)
Definition sharedSBMFace (i : nat) : bool :=
  match GetSharedFaceTransformations i with
  | Some ne1 =>
      markerIs (i + GetNE_) 2 && markerIs ne1 (check_val trimin)
  | None => false
  end.

(** Every element that a face names has a marker. *)
Definition faces_in_range : Prop :=
  (forall i ne1 ne2, (i < GetNumFaces)%nat ->
     GetInteriorFaceTransformations i = Some (ne1, ne2) ->
     (ne1 < length elem_marker)%nat /\ (ne2 < length elem_marker)%nat)
  /\ (forall i ne1, (i < GetNBE)%nat ->
        GetBdrFaceTransformations i = Some ne1 ->
        (ne1 < length elem_marker)%nat)
  /\ (forall i ne1, (i < GetNSharedFaces)%nat ->
        GetSharedFaceTransformations i = Some ne1 ->
        (ne1 < length elem_marker)%nat
        /\ (i + GetNE_ < length elem_marker)%nat).

End ShiftedFaces.

(** Loops that append one block per iteration. *)
Section AppendLoop.
Context {St : Type}.
Variable proj : St -> list Z.
Variable blockOf : nat -> list Z.
Variable s0 : St.

Definition append_inv (i : nat) (s : St) : Prop :=
  proj s = proj s0 ++ concat (blockOf <$> seq 0 i).

End AppendLoop.

(** *** Essential dofs (neumann.cpp, lines 355-382) *)

(** [a[i]] and [a[i] = x] with an [int] index. *)
Definition array_getZ {A : Type} (a : list A) (i : Z) : result A :=
  if (i <? 0)%Z then Undefined else array_get a (Z.to_nat i).

Definition array_setZ {A : Type} (a : list A) (i : Z) (x : A)
  : result (list A) :=
  if (i <? 0)%Z then Undefined else array_set a (Z.to_nat i) x.

Section EssentialDofs.
Variable trimin : bool.
Variable elem_marker : list Z.
Variable GetNE_ : nat.
Variable GetElementVDofs : nat -> list Z.
Variable ess_vdofs_bdr : list Z.
Variable sbm_dofs_ : list Z.

(** Lines 365-367: every dof of the element is marked. *)
Definition mark_dofs_body (dofs : list Z) (i : nat) (hole : list Z)
  : result (list Z) :=
  d ← array_get dofs i;
  array_setZ hole d (-1)%Z.

Definition mark_dofs (dofs : list Z) (hole : list Z) : result (list Z) :=
  for_loop (length dofs) (fun _ => length dofs) (mark_dofs_body dofs)
           0%nat hole.

(** Lines 359-369, one iteration. *)
Definition hole_body (e : nat) (hole : list Z) : result (list Z) :=
  m ← array_get elem_marker e;
  if trimmed trimin m then mark_dofs (GetElementVDofs e) hole
  else Ret hole.

(** Lines 372-375, one iteration. *)
Definition combine_body (i : nat) (hole : list Z) : result (list Z) :=
  b ← array_get ess_vdofs_bdr i;
  if (b =? -1)%Z then array_set hole i (-1)%Z else Ret hole.

(** Lines 378-382, one iteration. *)
Definition unmark_body (i : nat) (hole : list Z) : result (list Z) :=
  d ← array_get sbm_dofs_ i;
  b ← array_getZ ess_vdofs_bdr d;
  if negb (b =? -1)%Z then array_setZ hole d 0%Z else Ret hole.

(** Lines 355-382: [ess_vdofs_hole] before it is synchronized. *)
Definition essentialVDofs : result (list Z) :=
  let hole := replicate (length ess_vdofs_bdr) 0%Z in
  hole ← for_loop GetNE_ (fun _ => GetNE_) hole_body 0%nat hole;
  hole ← for_loop (length hole) (fun h => length h) combine_body 0%nat hole;
  for_loop (length sbm_dofs_) (fun _ => length sbm_dofs_) unmark_body
           0%nat hole.

(** Dof [j] belongs to an element below [e] that is trimmed. *)
Definition inTrimmedElement (e : nat) (j : nat) : Prop :=
  exists e' m, (e' < e)%nat /\ elem_marker !! e' = Some m
               /\ trimmed trimin m = true
               /\ Z.of_nat j ∈ GetElementVDofs e'.

End EssentialDofs.

Section EssentialDofsInvariants.
Variable trimin : bool.
Variable elem_marker : list Z.
Variable GetElementVDofs : nat -> list Z.
Variable ess_vdofs_bdr : list Z.
Variable L : nat.

Definition mark_dofs_inv (dofs hole : list Z) (i : nat) (h : list Z)
  : Prop :=
  length h = length hole
  /\ forall j, (j < length hole)%nat ->
       (Z.of_nat j ∈ take i dofs -> h !! j = Some (-1)%Z)
       /\ (Z.of_nat j ∉ take i dofs -> h !! j = hole !! j).

Definition hole_inv (e : nat) (h : list Z) : Prop :=
  length h = L
  /\ forall j, (j < L)%nat ->
       exists v, h !! j = Some v
         /\ (v = -1 \/ v = 0)%Z
         /\ (v = (-1)%Z
             <-> inTrimmedElement trimin elem_marker GetElementVDofs e j).

Definition combine_inv (hole : list Z) (i : nat) (h : list Z) : Prop :=
  length h = length hole
  /\ (forall j b, (j < i)%nat -> ess_vdofs_bdr !! j = Some b ->
        h !! j = if (b =? -1)%Z then Some (-1)%Z else hole !! j)
  /\ (forall j, (i <= j)%nat -> h !! j = hole !! j).

Definition unmark_inv (sbm hole : list Z) (i : nat) (h : list Z) : Prop :=
  length h = length hole
  /\ forall j b, (j < length hole)%nat -> ess_vdofs_bdr !! j = Some b ->
       (Z.of_nat j ∈ take i sbm -> b <> (-1)%Z -> h !! j = Some 0%Z)
       /\ (Z.of_nat j ∉ take i sbm \/ b = (-1)%Z -> h !! j = hole !! j).

End EssentialDofsInvariants.

(** ** Stretching the mesh nodes (neumann.cpp, lines 126-131)

    [vxyz] holds the coordinates of the nodes, all first coordinates, then
    all second coordinates, and so on. *)

(** Line 129: [(1.+1.e-4)*v-1.e-4]. *)
Definition stretch (v : float) : float :=
  ((1 + 0x1.a36e2eb1c432dp-14) * v - 0x1.a36e2eb1c432dp-14)%float.

(** Line 126: [vxyz.Size()/dim]. *)
Definition nodesCount (size dim : Z) : result Z := int_div size dim.

(** Line 129. *)
Definition stretch_body (nodes_cnt : Z) (i : nat) (vxyz : list float)
  : result (list float) :=
  let k := CInt.add (Z.of_nat i) nodes_cnt in
  v ← array_getZ vxyz k;
  array_setZ vxyz k (stretch v).

(** Lines 126-131. *)
Definition stretchNodes (level_set_type dim : Z) (vxyz : list float)
  : result (list float) :=
  nodes_cnt ← nodesCount (Z.of_nat (length vxyz)) dim;
  if (level_set_type =? 3)%Z then
    for_loop (Z.to_nat nodes_cnt) (fun _ => Z.to_nat nodes_cnt)
             (stretch_body nodes_cnt) 0%nat vxyz
  else Ret vxyz.

(** The nodes after [i] iterations. *)
Definition stretched (n i : nat) (vxyz : list float) : list float :=
  take n vxyz ++ (stretch <$> take i (drop n vxyz)) ++ drop (n + i) vxyz.

Definition stretch_inv (n : nat) (vxyz : list float) (i : nat)
    (v : list float) : Prop :=
  v = stretched n i vxyz.

(** ** The coefficients of the linear form (neumann.cpp, lines 452-489)

    A pointer is [None] when it is [NULL]; [deref] is the [*p] of lines
    465 and 488-489.  [dbcCoef] is set and never read. *)

Inductive RhsFunction : Type :=
| rhs_fun_circle
| rhs_fun_xy_exponent
| rhs_fun_xy_sinusoidal.

Inductive DirichletVelocity : Type :=
| dirichlet_velocity_circle
| dirichlet_velocity_xy_exponent
| dirichlet_velocity_xy_sinusoidal.

Inductive NeumannVelocity : Type :=
| neumann_velocity_circle.

Inductive NormalFunction : Type :=
| normal_vector.

Definition deref {A : Type} (p : option A) : result A :=
  match p with
  | Some a => Ret a
  | None => Undefined
  end.

(** [MFEM_ABORT(msg)]. *)
Definition MFEM_ABORT {A : Type} : result A := Aborted.

Record Coefficients : Type := {
  rhs_f : RhsFunction;
  dbcCoef : option DirichletVelocity;
  nbcCoef : NeumannVelocity;
  normalbcCoef : NormalFunction
}.

Definition selectCoefficients (level_set_type : Z) : result Coefficients :=
  (* lines 452-464 *)
  rhs_f ← (if (level_set_type =? 1)%Z then Ret (Some rhs_fun_circle)
           else if (level_set_type =? 2)%Z then
             Ret (Some rhs_fun_xy_exponent)
           else if (level_set_type =? 3)%Z then
             Ret (Some rhs_fun_xy_sinusoidal)
           else MFEM_ABORT);
  (* line 465 *)
  rhs ← deref rhs_f;
  (* lines 467-479 *)
  dbcCoef ← (if (level_set_type =? 1)%Z then
               Ret (Some dirichlet_velocity_circle)
             else if (level_set_type =? 2)%Z then
               Ret (Some dirichlet_velocity_xy_exponent)
             else if (level_set_type =? 3)%Z then
               Ret (Some dirichlet_velocity_xy_sinusoidal)
             else MFEM_ABORT);
  (* lines 481-486 *)
  let nbcCoef := if (level_set_type =? 1)%Z
                 then Some neumann_velocity_circle else None in
  let normalbcCoef := if (level_set_type =? 1)%Z
                      then Some normal_vector else None in
  (* lines 488-489 *)
  nbc ← deref nbcCoef;
  normal ← deref normalbcCoef;
  Ret {| rhs_f := rhs; dbcCoef := dbcCoef; nbcCoef := nbc;
         normalbcCoef := normal |}.

(** ** The error at the dofs of the trimmed elements
       (neumann.cpp, lines 582-592) *)

Section MaskError.
Variable pm : Mesh.
Variable max_elem_attr : Z.
Variable GetElementDofs : nat -> list Z.
Variable ess_vdofs_hole : list Z.

(** Lines 587-589, one iteration. *)
Definition mask_dofs_body (dofs : list Z) (j : nat) (err : list float)
  : result (list float) :=
  d ← array_get dofs j;
  h ← array_getZ ess_vdofs_hole d;
  if (h =? -1)%Z then array_setZ err d 0%float else Ret err.

(** Lines 584-591, one iteration. *)
Definition mask_body (i : nat) (err : list float) : result (list float) :=
  match GetAttribute pm i with
  | Some attr =>
      if (attr >? max_elem_attr)%Z then
        let dofs := GetElementDofs i in
        for_loop (length dofs) (fun _ => length dofs) (mask_dofs_body dofs)
                 0%nat err
      else Ret err
  | None => Undefined
  end.

(** Lines 582-592. *)
Definition maskError (err : list float) : result (list float) :=
  for_loop (GetNE pm) (fun _ => GetNE pm) mask_body 0%nat err.

(** Dof [j] is marked essential and belongs to one of the first [e]
    elements whose attribute is above [max_elem_attr]. *)
Definition masked (e : nat) (j : nat) : Prop :=
  ess_vdofs_hole !! j = Some (-1)%Z
  /\ exists i attr, (i < e)%nat /\ GetAttribute pm i = Some attr
                    /\ (attr > max_elem_attr)%Z
                    /\ Z.of_nat j ∈ GetElementDofs i.

Definition mask_dofs_inv (dofs : list Z) (err0 : list float) (k : nat)
    (err : list float) : Prop :=
  length err = length err0
  /\ forall j, (j < length err0)%nat ->
       (ess_vdofs_hole !! j = Some (-1)%Z /\ Z.of_nat j ∈ take k dofs ->
        err !! j = Some 0%float)
       /\ (~ (ess_vdofs_hole !! j = Some (-1)%Z
              /\ Z.of_nat j ∈ take k dofs) ->
           err !! j = err0 !! j).

Definition mask_inv (err0 : list float) (e : nat) (err : list float)
  : Prop :=
  length err = length err0
  /\ forall j, (j < length err0)%nat ->
       (masked e j -> err !! j = Some 0%float)
       /\ (~ masked e j -> err !! j = err0 !! j).

End MaskError.

(** ** The range of the element sizes (ex3p_dd.cpp, lines 507-514)

    Of the mesh the scan reads the size of every element of this process:
    [sizes] lists them, [GetElementSize (i)] is [sizes[i]]. *)

(** [std::min (a, b)] and [std::max (a, b)] on [double]s. *)
Definition std_min (a b : float) : float :=
  if PrimFloat.ltb b a then b else a.

Definition std_max (a b : float) : float :=
  if PrimFloat.ltb a b then b else a.

(** Lines 511-513, one iteration. *)
Definition size_body (sizes : list float) (i : nat) (mm : float * float)
  : result (float * float) :=
  size_i ← array_get sizes i;
  Ret (std_min mm.1 size_i, std_max mm.2 size_i).

(** Lines 507-514: [minsize] and [maxsize] of this process. *)
Definition elementSizeRange (sizes : list float) : result (float * float) :=
  minsize ← array_get sizes 0;
  let maxsize := minsize in
  for_loop (length sizes) (fun _ => length sizes) (size_body sizes)
           1%nat (minsize, maxsize).

Definition size_range_inv (sizes : list float) (i : nat)
    (mm : float * float) : Prop :=
  mm.1 ∈ take i sizes /\ mm.2 ∈ take i sizes
  /\ (Forall (fun s => PrimFloat.is_nan s = false) sizes ->
      Forall (fun s => PrimFloat.leb mm.1 s = true
                       /\ PrimFloat.leb s mm.2 = true) (take i sizes)).

(** ** The Hypre tests (ex3p_dd.cpp, lines 114-248)

    An array from [new int[n]] starts without values: [None] is an entry
    that has not been written.  The constructor of [HypreParMatrix] reads
    every entry of the arrays it is given. *)

Definition new_array (n : Z) : list (option Z) :=
  replicate (Z.to_nat n) None.

Definition read (a : list (option Z)) (i : Z) : result Z :=
  x ← array_getZ a i;
  match x with
  | Some v => Ret v
  | None => Undefined
  end.

Definition write (a : list (option Z)) (i : Z) (v : Z)
  : result (list (option Z)) :=
  array_setZ a i (Some v).

Definition initialized (a : list (option Z)) : result (list Z) :=
  match mapM id a with
  | Some l => Ret l
  | None => Undefined
  end.

(** The arguments of [HypreParMatrix] that the tests compute. *)
Record HypreArrays : Type := {
  I_nnz : list Z;
  J_col : list Z;
  rowStarts2 : list Z;
  colStarts2 : list Z
}.

(** The column indices of row [r] of a matrix stored by rows:
    [J_col[I_nnz[r]]], ..., [J_col[I_nnz[r+1] - 1]]. *)
Definition csr_row (A : HypreArrays) (r : nat) : option (list Z) :=
  lo ← I_nnz A !! r;
  hi ← I_nnz A !! S r;
  Some (take (Z.to_nat (hi - lo)) (drop (Z.to_nat lo) (J_col A))).

(** *** [TestHypreRectangularSerial] (lines 114-174) *)

(** Lines 148-151, one iteration. *)
Definition rectangular_body (i : nat)
    (st : list (option Z) * list (option Z))
  : result (list (option Z) * list (option Z)) :=
  let i := Z.of_nat i in
  I ← write st.1 (CInt.add (CInt.mul 2 i) 1) i;
  I ← write I (CInt.add (CInt.mul 2 i) 2) (CInt.add i 1);
  J ← write st.2 i i;
  Ret (I, J).

(** Lines 117-157 for a number [num_loc_cols] of columns. *)
Definition rectangularArrays (num_loc_cols : Z) : result HypreArrays :=
  let num_loc_rows := CInt.mul 2 num_loc_cols in
  let nnz := num_loc_cols in
  let I := new_array (CInt.add num_loc_rows 1) in
  let J := new_array nnz in
  I ← write I 0 0;
  st ← for_loop (Z.to_nat num_loc_cols) (fun _ => Z.to_nat num_loc_cols)
                rectangular_body 0%nat (I, J);
  I ← initialized st.1;
  J ← initialized st.2;
  Ret {| I_nnz := I; J_col := J;
         rowStarts2 := [0; num_loc_rows]%Z;
         colStarts2 := [0; num_loc_cols]%Z |}.

(** Line 116: [num_loc_cols = 100]. *)
Definition TestHypreRectangularSerial : result HypreArrays :=
  rectangularArrays 100.

Definition rectangular_inv (n : nat) (i : nat)
    (st : list (option Z) * list (option Z)) : Prop :=
  length st.1 = (2 * n + 1)%nat /\ length st.2 = n
  /\ (forall r, (r <= 2 * i)%nat ->
        st.1 !! r = Some (Some (Z.of_nat r / 2)%Z))
  /\ (forall k, (k < i)%nat -> st.2 !! k = Some (Some (Z.of_nat k))).

(** *** [TestHypreIdentity] (lines 176-248) *)

(** Lines 191-192, one iteration. *)
Definition sum_body (all_num_loc_rows : list Z) (i : nat)
    (sumLocalSizes : Z) : result Z :=
  a ← array_get all_num_loc_rows i;
  Ret (CInt.add sumLocalSizes a).

(** Lines 199-200, one iteration. *)
Definition rowStarts_body (all_num_loc_rows : list Z) (i : nat)
    (rowStarts : list (option Z)) : result (list (option Z)) :=
  prev ← read rowStarts (Z.of_nat i);
  a ← array_get all_num_loc_rows i;
  write rowStarts (CInt.add (Z.of_nat i) 1) (CInt.add prev a).

(** Lines 178-219 on the process [sdrank] of a communicator of [nsdprocs]
    processes.  [MPI_Allgather] collects [num_loc_rows] of every process,
    which is 100 on each. *)
Definition TestHypreIdentity (nsdprocs sdrank : Z) : result HypreArrays :=
  let num_loc_rows := 100%Z in
  let size := 200%Z in
  let all_num_loc_rows := replicate (Z.to_nat nsdprocs) num_loc_rows in
  sumLocalSizes ← for_loop (Z.to_nat nsdprocs) (fun _ => Z.to_nat nsdprocs)
                    (sum_body all_num_loc_rows) 0%nat 0%Z;
  _ ← MFEM_VERIFY (size =? sumLocalSizes)%Z;
  let rowStarts := new_array (CInt.add nsdprocs 1) in
  rowStarts ← write rowStarts 0 0;
  rowStarts ← for_loop (Z.to_nat nsdprocs) (fun _ => Z.to_nat nsdprocs)
                (rowStarts_body all_num_loc_rows) 0%nat rowStarts;
  osj ← read rowStarts sdrank;
  rs0 ← read rowStarts sdrank;
  rs1 ← read rowStarts (CInt.add sdrank 1);
  let I := new_array (CInt.add num_loc_rows 1) in
  let J := new_array num_loc_rows in
  I ← for_loop (Z.to_nat (CInt.add num_loc_rows 1))
        (fun _ => Z.to_nat (CInt.add num_loc_rows 1))
        (fill_body (fun i => Ret (Z.of_nat i))) 0%nat I;
  J ← for_loop (Z.to_nat num_loc_rows) (fun _ => Z.to_nat num_loc_rows)
        (fill_body (fun i => Ret (CInt.add osj (Z.of_nat i)))) 0%nat J;
  I ← initialized I;
  J ← initialized J;
  Ret {| I_nnz := I; J_col := J;
         rowStarts2 := [rs0; rs1]; colStarts2 := [rs0; rs1] |}.

Definition sum_inv (c : Z) (i : nat) (s : Z) : Prop :=
  s = (c * Z.of_nat i)%Z.

(** ** Offsets of the processes (ex3p_dd.cpp, lines 292-313)

    [heights] lists [op.Height()] of the processes of [MPI_COMM_WORLD], in
    the order of their ranks. *)

Definition sumZ (l : list Z) : Z := foldr Z.add 0%Z l.

(** [MPI_Allreduce] with [MPI_SUM] on [int]s. *)
Definition MPI_Allreduce_sum (contributions : list Z) : Z :=
  foldr CInt.add 0%Z contributions.

(** [MPI_Allgather] of one [int] per process into a buffer of [size]
    entries that hold 0, as those of [std::vector<int> alln(nprocs)] do. *)
Definition MPI_Allgather (size : nat) (contributions : list Z)
  : result (list Z) :=
  if (length contributions <=? size)%nat
  then Ret (contributions ++ replicate (size - length contributions) 0%Z)
  else Undefined.

(** Lines 307-310, one iteration. *)
Definition offsets_body (alln : list Z) (rank : Z) (i : nat) (st : Z * Z)
  : result (Z * Z) :=
  a ← array_get alln i;
  let myos := if (Z.of_nat i <? rank)%Z then CInt.add st.1 a else st.1 in
  Ret (myos, CInt.add st.2 a).

(** Lines 294-313; the result is [myos]. *)
Definition PrintDenseMatrixOfOperator (heights : list Z) (nprocs rank : Z)
  : result Z :=
  let ng := MPI_Allreduce_sum heights in
  alln ← MPI_Allgather (Z.to_nat nprocs) heights;
  st ← for_loop (Z.to_nat nprocs) (fun _ => Z.to_nat nprocs)
                (offsets_body alln rank) 0%nat (0%Z, 0%Z);
  _ ← MFEM_VERIFY (st.2 =? ng)%Z;
  Ret st.1.

Definition offsets_inv (alln : list Z) (rank : Z) (i : nat) (st : Z * Z)
  : Prop :=
  st.1 = sumZ (take (Nat.min i (Z.to_nat rank)) alln)
  /\ st.2 = sumZ (take i alln).


(** * Part II: properties *)

(** ** Machine integers *)

Module CIntFacts.
Local Open Scope Z_scope.
Import CInt.

Lemma wrap_in_range z : in_range (wrap z).
Proof.
  unfold in_range, wrap, INT_MIN, INT_MAX.
  pose proof (Z.mod_pos_bound (z + 2 ^ 31) (2 ^ 32) ltac:(lia)). lia.
Qed.

Lemma wrap_id z : in_range z -> wrap z = z.
Proof.
  unfold in_range, wrap, INT_MIN, INT_MAX. intros H.
  rewrite Z.mod_small; lia.
Qed.

End CIntFacts.

(** ** The global interface index *)

Section InterfaceIndexFacts.
Local Open Scope Z_scope.

(** On every stored index and every positive subdomain count the decoding
    never leaves the [int] range: the two readings of lines 561-562 agree. *)
Lemma quot_mul_between n g :
  0 < n -> let q := g ÷ n in
  (0 <= q <= g /\ 0 <= n * q <= g) \/ (g <= q <= 0 /\ g <= n * q <= 0).
Proof.
  intros Hn q. subst q.
  assert (Hn0 : n <> 0) by lia.
  destruct (Z_le_gt_dec 0 g) as [Hp|Hp]; [left|right].
  - pose proof (Z.quot_pos g n Hp Hn).
    pose proof (Z.mul_quot_le g n Hp Hn0). nia.
  - pose proof (Z.mul_quot_ge g n ltac:(lia) Hn0).
    assert (g ÷ n <= 0).
    { replace g with (- (- g)) by lia. rewrite Z.quot_opp_l by lia.
      pose proof (Z.quot_pos (- g) n ltac:(lia) Hn). lia. }
    nia.
Qed.

(** Dividing an [int] by a positive [int] has a value, the quotient. *)
Lemma div_by_positive n g :
  CInt.in_range g -> 0 < n -> CInt.div g n = Some (g ÷ n).
Proof.
  intros Hg Hn. unfold CInt.div.
  destruct (Z.eqb_spec n 0) as [|_]; [lia|].
  destruct (Z.eqb_spec n (-1)) as [|_]; [lia|].
  rewrite andb_false_r. cbn [orb].
  pose proof (quot_mul_between n g Hn) as Hq. cbv zeta in Hq.
  unfold CInt.in_range, CInt.INT_MIN, CInt.INT_MAX in Hg.
  rewrite CIntFacts.wrap_id
    by (unfold CInt.in_range, CInt.INT_MIN, CInt.INT_MAX; lia).
  reflexivity.
Qed.

(** A zero divisor gives no value, and neither does [INT_MIN / -1]. *)
Lemma div_no_value g :
  CInt.div g 0 = None /\ CInt.div CInt.INT_MIN (-1) = None.
Proof. split; reflexivity. Qed.

Lemma decodeInterfaceIndex_int_exact n g :
  CInt.in_range g -> 0 < n ->
  decodeInterfaceIndex_int n g = Some (decodeInterfaceIndex n g).
Proof.
  intros Hg Hn. unfold decodeInterfaceIndex_int, decodeInterfaceIndex.
  rewrite (div_by_positive n g Hg Hn).
  pose proof (quot_mul_between n g Hn) as Hq. cbv zeta in Hq.
  unfold CInt.mul, CInt.sub.
  unfold CInt.in_range, CInt.INT_MIN, CInt.INT_MAX in Hg.
  rewrite (CIntFacts.wrap_id (n * (g ÷ n)))
    by (unfold CInt.in_range, CInt.INT_MIN, CInt.INT_MAX; lia).
  rewrite (CIntFacts.wrap_id (g - n * (g ÷ n)))
    by (unfold CInt.in_range, CInt.INT_MIN, CInt.INT_MAX; lia).
  reflexivity.
Qed.

(** Decoding an encoded pair, over the integers. *)
Lemma decode_globalIndex n sd0 sd1 :
  0 <= sd0 -> 0 <= sd1 < n ->
  decodeInterfaceIndex n (globalIndex n sd0 sd1) = (sd0, sd1).
Proof.
  intros H0 H. unfold decodeInterfaceIndex, globalIndex.
  assert (Hq : (n * sd0 + sd1) ÷ n = sd0).
  { rewrite Z.quot_div_nonneg by nia.
    rewrite Z.mul_comm, Z.div_add_l by lia.
    rewrite Z.div_small by lia. lia. }
  rewrite Hq. f_equal. lia.
Qed.

(** The encoding on machine integers is the formula itself as long as the
    index fits an [int]. *)
Lemma globalIndex_int_exact n sd0 sd1 :
  0 <= sd0 -> 0 <= sd1 -> 0 <= n ->
  CInt.in_range (globalIndex n sd0 sd1) ->
  globalIndex_int n sd0 sd1 = globalIndex n sd0 sd1.
Proof.
  unfold globalIndex_int, globalIndex, CInt.add, CInt.mul.
  unfold CInt.in_range at 1. unfold CInt.INT_MIN, CInt.INT_MAX.
  intros H0 H1 Hn Hg.
  rewrite (CIntFacts.wrap_id (n * sd0))
    by (unfold CInt.in_range, CInt.INT_MIN, CInt.INT_MAX; nia).
  apply CIntFacts.wrap_id. unfold CInt.in_range, CInt.INT_MIN, CInt.INT_MAX. lia.
Qed.

End InterfaceIndexFacts.

(** C1.  For every pair with [0 <= sd0 < sd1 < numSubdomains], encoding it
    as [g = sd0*numSubdomains + sd1] and decoding [g] as lines 561-562 do
    ([sd0 = g / numSubdomains], [sd1 = g - numSubdomains*sd0]) gives back
    the pair [(sd0, sd1)]: over the integers, and on 32-bit [int]s as long
    as the index is one; the division of line 561 then has a value. *)
Theorem interface_index_roundtrip (numSubdomains sd0 sd1 : Z) :
  (0 <= sd0 < sd1)%Z -> (sd1 < numSubdomains)%Z ->
  decodeInterfaceIndex numSubdomains (globalIndex numSubdomains sd0 sd1)
    = (sd0, sd1) /\
  (CInt.in_range (globalIndex numSubdomains sd0 sd1) ->
   decodeInterfaceIndex_int numSubdomains
     (globalIndex_int numSubdomains sd0 sd1) = Some (sd0, sd1)).
Proof.
  intros H0 H1.
  assert (E : decodeInterfaceIndex numSubdomains
                (globalIndex numSubdomains sd0 sd1) = (sd0, sd1))
    by (apply decode_globalIndex; lia).
  split; [exact E|]. intros Hr.
  rewrite globalIndex_int_exact by (trivial; lia).
  rewrite decodeInterfaceIndex_int_exact by (trivial; lia).
  rewrite E. reflexivity.
Qed.

Lemma interface_index_roundtrip_witness :
  decodeInterfaceIndex 2 (globalIndex 2 0 1) = (0, 1)%Z /\
  (CInt.in_range (globalIndex 2 0 1) ->
   decodeInterfaceIndex_int 2 (globalIndex_int 2 0 1) = Some (0, 1)%Z).
Proof.
  apply (interface_index_roundtrip 2 0 1); lia.
Defined.

(** ** Loops *)

Section ForLoop.
Context {St : Type}.
Variable bound : St -> nat.
Variable body : nat -> St -> result St.
Variable n : nat.
Variable Inv : nat -> St -> Prop.
Hypothesis bound_inv : forall i s, Inv i s -> bound s = n.

(** A loop whose body keeps the invariant and the bound runs to the bound
    and returns. *)
Lemma for_loop_invariant :
  (forall i s, (i < n)%nat -> Inv i s ->
     exists s', body i s = Ret s' /\ Inv (S i) s') ->
  forall fuel i s, (i <= n)%nat -> (n - i <= fuel)%nat -> Inv i s ->
  exists s', for_loop fuel bound body i s = Ret s' /\ Inv n s'.
Proof.
  intros Hbody fuel. induction fuel as [|fuel IH]; intros i s Hi Hf HI.
  - assert (i = n) by lia. subst i. exists s. split; [|exact HI].
    simpl. rewrite (bound_inv _ _ HI).
    destruct (Nat.ltb_spec n n); [lia|reflexivity].
  - simpl. rewrite (bound_inv _ _ HI).
    destruct (Nat.ltb_spec i n) as [Hlt|Hge].
    + destruct (Hbody i s Hlt HI) as (s' & -> & HI').
      simpl. apply IH; [lia|lia|exact HI'].
    + assert (i = n) by lia. subst i. exists s. split; [reflexivity|exact HI].
Qed.

(** The first body that does not return decides the outcome of the loop. *)
Lemma for_loop_stops :
  forall fuel i s s1 k r,
    (forall j sj, (i <= j < k)%nat -> Inv j sj ->
       exists sj', body j sj = Ret sj' /\ Inv (S j) sj') ->
    (forall sk, Inv k sk -> body k sk = r) ->
    (forall a, r <> Ret a) ->
    (i <= k < n)%nat -> (k - i < fuel)%nat -> Inv i s -> s1 = s ->
    for_loop fuel bound body i s1 = r.
Proof.
  induction fuel as [|fuel IH]; intros i s s1 k r Hpre Hk Hr Hik Hf HI ->.
  - lia.
  - simpl. rewrite (bound_inv _ _ HI).
    destruct (Nat.ltb_spec i n) as [Hlt|Hge]; [|lia].
    destruct (Nat.eq_dec i k) as [->|Hne].
    + rewrite (Hk s HI). destruct r; try reflexivity.
      exfalso. eapply Hr. reflexivity.
    + destruct (Hpre i s ltac:(lia) HI) as (s' & -> & HI'). simpl.
      eapply (IH (S i) s' s' k r); eauto; try lia.
      intros j sj Hj. apply Hpre. lia.
Qed.

End ForLoop.

(** A loop leaves [main] only if its body does. *)
Lemma for_loop_no_exit {St : Type} (bound : St -> nat)
    (body : nat -> St -> result St) :
  (forall i s c, body i s <> Exit c) ->
  forall fuel i s c, for_loop fuel bound body i s <> Exit c.
Proof.
  intros Hbody fuel. induction fuel as [|fuel IH]; intros i s c; simpl.
  - destruct (_ <? _)%nat; discriminate.
  - destruct (_ <? _)%nat; [|discriminate].
    destruct (body i s) as [s'| |c'| |] eqn:E; simpl; try discriminate.
    + apply IH.
    + exfalso. exact (Hbody i s c' E).
Qed.

Section FillLoopFacts.
Context {A : Type}.
Variable f : nat -> result A.
Variable N : nat.

Lemma fill_step i arr a :
  (i < N)%nat -> fill_inv f N i arr -> f i = Ret a ->
  exists arr', fill_body f i arr = Ret arr' /\ fill_inv f N (S i) arr'.
Proof.
  intros Hi [Hlen Hdone] Hf. unfold fill_body, array_set. rewrite Hf. simpl.
  destruct (Nat.ltb_spec i (length arr)) as [_|]; [|lia].
  eexists. split; [reflexivity|]. split; [rewrite length_insert; exact Hlen|].
  intros j Hj. destruct (Nat.eq_dec j i) as [->|Hne].
  - exists a. split; [exact Hf|]. apply list_lookup_insert_eq. lia.
  - rewrite list_lookup_insert_ne by congruence. apply Hdone. lia.
Qed.

Lemma fill_returns :
  (forall j, (j < N)%nat -> exists a, f j = Ret a) ->
  exists arr,
    for_loop N (fun _ => N) (fill_body f) 0%nat (replicate N None) = Ret arr
    /\ fill_inv f N N arr.
Proof.
  intros Hall.
  apply (for_loop_invariant (fun _ => N) (fill_body f) N (fill_inv f N)).
  - reflexivity.
  - intros i arr Hi HI. destruct (Hall i Hi) as [a Ha].
    eapply fill_step; eauto.
  - lia.
  - lia.
  - split; [apply length_replicate|]. intros j Hj. lia.
Qed.

Lemma fill_stops k r :
  (k < N)%nat ->
  (forall j, (j < k)%nat -> exists a, f j = Ret a) ->
  f k = r -> (forall a, r <> Ret a) ->
  for_loop N (fun _ => N) (fill_body f) 0%nat (replicate N None)
  = (r ≫= fun _ => Undefined).
Proof.
  intros Hk Hpre Hf Hr.
  apply (for_loop_stops (fun _ => N) (fill_body f) N (fill_inv f N))
    with (s := replicate N None) (k := k); trivial; try lia.
  - intros j arr Hj HI. destruct (Hpre j ltac:(lia)) as [a Ha].
    eapply fill_step; eauto; lia.
  - intros arr _. unfold fill_body. rewrite Hf.
    destruct r; try reflexivity. exfalso. eapply Hr. reflexivity.
  - intros a. destruct r; discriminate.
  - split; [apply length_replicate|]. intros j Hj. lia.
Qed.

(** Either every entry is computed, or there is a first one that is not. *)
Lemma fill_cases :
  (forall j, (j < N)%nat -> exists a, f j = Ret a)
  \/ exists k, (k < N)%nat
       /\ (forall j, (j < k)%nat -> exists a, f j = Ret a)
       /\ forall a, f k <> Ret a.
Proof.
  induction N as [|n IH].
  - left. intros j Hj. lia.
  - destruct IH as [Hall|(k & Hk & Hpre & Hbad)].
    + destruct (f n) as [a| | | |] eqn:E.
      * left. intros j Hj. destruct (Nat.eq_dec j n) as [->|]; eauto.
        apply Hall. lia.
      * right. exists n. rewrite E. repeat split; auto; discriminate.
      * right. exists n. rewrite E. repeat split; auto; discriminate.
      * right. exists n. rewrite E. repeat split; auto; discriminate.
      * right. exists n. rewrite E. repeat split; auto; discriminate.
    + right. exists k. repeat split; auto.
Qed.

End FillLoopFacts.

Section LoggedLoopFacts.
Context {A B : Type}.
Variable f : nat -> result (A * B).
Variable N : nat.

Lemma logged_step i st a b :
  (i < N)%nat -> logged_inv f N i st -> f i = Ret (a, b) ->
  exists st', logged_body f i st = Ret st' /\ logged_inv f N (S i) st'.
Proof.
  intros Hi (Hlen & Hlog & Hdone) Hf. unfold logged_body, array_set.
  rewrite Hf. cbn [mbind result_bind fst snd].
  destruct (Nat.ltb_spec i (length st.1)) as [_|]; [|lia].
  eexists. split; [reflexivity|]. unfold logged_inv. cbn [fst snd].
  split; [rewrite length_insert; exact Hlen|].
  split; [rewrite length_app; simpl; lia|].
  intros j Hj. destruct (Nat.eq_dec j i) as [->|Hne].
  - exists a, b. split; [exact Hf|]. split.
    + apply list_lookup_insert_eq. lia.
    + rewrite lookup_app_r by lia. rewrite Hlog, Nat.sub_diag. reflexivity.
  - destruct (Hdone j ltac:(lia)) as (a' & b' & Hfj & Harr & Hl).
    exists a', b'. split; [exact Hfj|]. split.
    + rewrite list_lookup_insert_ne by congruence. exact Harr.
    + rewrite lookup_app_l by lia. exact Hl.
Qed.

Lemma logged_returns :
  (forall j, (j < N)%nat -> exists r, f j = Ret r) ->
  exists st,
    for_loop N (fun _ => N) (logged_body f) 0%nat (replicate N None, [])
    = Ret st
    /\ logged_inv f N N st.
Proof.
  intros Hall.
  apply (for_loop_invariant (fun _ => N) (logged_body f) N (logged_inv f N)).
  - reflexivity.
  - intros i st Hi HI. destruct (Hall i Hi) as [[a b] Hr].
    eapply logged_step; eauto.
  - lia.
  - lia.
  - split; [apply length_replicate|]. split; [reflexivity|].
    intros j Hj. lia.
Qed.

Lemma logged_stops k r :
  (k < N)%nat ->
  (forall j, (j < k)%nat -> exists a, f j = Ret a) ->
  f k = r -> (forall a, r <> Ret a) ->
  for_loop N (fun _ => N) (logged_body f) 0%nat (replicate N None, [])
  = (r ≫= fun _ => Undefined).
Proof.
  intros Hk Hpre Hf Hr.
  apply (for_loop_stops (fun _ => N) (logged_body f) N (logged_inv f N))
    with (s := (replicate N None, [])) (k := k); trivial; try lia.
  - intros j st Hj HI. destruct (Hpre j ltac:(lia)) as [[a b] Ha].
    eapply logged_step; eauto; lia.
  - intros st _. unfold logged_body. rewrite Hf.
    destruct r; try reflexivity. exfalso. eapply Hr. reflexivity.
  - intros a. destruct r; discriminate.
  - split; [apply length_replicate|]. split; [reflexivity|].
    intros j Hj. lia.
Qed.

End LoggedLoopFacts.

(** ** The partitioning step *)

Lemma GetNE_SetAttribute i a m : GetNE (SetAttribute i a m) = GetNE m.
Proof. unfold GetNE, SetAttribute. simpl. apply length_insert. Qed.

Lemma elem_of_subdomainElements m sd i :
  i ∈ subdomainElements m sd <-> GetAttribute m i = Some (sd + 1)%Z.
Proof.
  unfold subdomainElements. rewrite list_elem_of_filter, elem_of_seq.
  split; [tauto|]. intros H. split; [exact H|].
  unfold GetAttribute in H. apply lookup_lt_Some in H. unfold GetNE. lia.
Qed.

Section PartitionLoop.
Variable mesh : Mesh.
Variable subdomain : list Z.
Hypothesis subdomain_length : length subdomain = GetNE mesh.

Lemma partition_inv_step i st :
  (i < GetNE mesh)%nat -> partition_inv mesh subdomain i st ->
  exists st', partition_body subdomain i st = Ret st'
              /\ partition_inv mesh subdomain (S i) st'.
Proof.
  intros Hi (Hattr & Hlog & Hne). unfold partition_body.
  destruct (lookup_lt_is_Some_2 subdomain i ltac:(lia)) as [sd Hsd].
  rewrite Hsd. eexists. split; [reflexivity|].
  unfold partition_inv. cbn [fst snd SetAttribute attributes]. repeat split.
  - rewrite Hattr. rewrite (take_S_r _ _ _ Hsd), fmap_app. simpl.
    destruct (lookup_lt_is_Some_2 (attributes mesh) i Hi) as [a Ha].
    rewrite (drop_S _ _ _ Ha).
    assert (Hl : length (subdomainAttribute <$> take i subdomain) = i).
    { rewrite length_fmap, length_take. lia. }
    rewrite <- (Nat.add_0_r i) at 1. rewrite <- Hl at 1.
    rewrite insert_app_r. simpl. rewrite <- app_assoc. reflexivity.
  - rewrite Hlog. rewrite seq_S. reflexivity.
  - rewrite GetNE_SetAttribute. exact Hne.
Qed.

Lemma partitionMesh_returns :
  exists m' log,
    partitionMesh mesh subdomain = Ret (m', log)
    /\ attributes m' = subdomainAttribute <$> subdomain
    /\ log = seq 0 (GetNE mesh)
    /\ GetNE m' = GetNE mesh.
Proof.
  destruct (for_loop_invariant (fun st => GetNE st.1)
              (partition_body subdomain) (GetNE mesh) (partition_inv mesh subdomain))
    with (fuel := GetNE mesh) (i := 0%nat) (s := (mesh, @nil nat))
    as ([m' log] & Hrun & Hattr & Hlog & Hne).
  - intros i s (_ & _ & H). exact H.
  - intros i s. apply partition_inv_step.
  - lia.
  - lia.
  - unfold partition_inv. simpl. rewrite drop_0. auto.
  - exists m', log. split; [exact Hrun|]. simpl in *.
    repeat split; trivial.
    rewrite Hattr, <- subdomain_length, firstn_all.
    rewrite drop_ge by (unfold GetNE in *; lia).
    apply app_nil_r.
Qed.

End PartitionLoop.

Lemma subdomainAttribute_exact sd :
  CInt.in_range (sd + 1) -> subdomainAttribute sd = (sd + 1)%Z.
Proof. apply CIntFacts.wrap_id. Qed.

Lemma count_occ_seq i n :
  (i < n)%nat -> count_occ Nat.eq_dec (seq 0 n) i = 1%nat.
Proof.
  intros Hi. induction n as [|n IH]; [lia|].
  rewrite seq_S, count_occ_app. simpl.
  destruct (Nat.eq_dec n i) as [->|Hne].
  - rewrite (proj1 (count_occ_not_In Nat.eq_dec _ _)); [reflexivity|].
    rewrite in_seq. lia.
  - rewrite IH by lia. reflexivity.
Qed.

Example partitionMesh_example :
  partitionMesh {| attributes := [7; 7; 5; 3]%Z |} [0; 0; 1; 1]%Z
  = Ret ({| attributes := [1; 1; 2; 2]%Z |}, [0; 1; 2; 3]%nat).
Proof. vm_compute. reflexivity. Qed.

(** Reading the partition array outside its bounds is not defined. *)
Example partitionMesh_short_array :
  partitionMesh {| attributes := [7; 7; 5; 3]%Z |} [0; 0; 1]%Z = Undefined.
Proof. vm_compute. reflexivity. Qed.

(** C9.  The partitioning step overwrites the attribute of every element
    [i] of the serial mesh with [subdomain[i] + 1]; what the mesh file
    carried there is lost: two meshes of the same size that differ only in
    their attributes leave the step as the same mesh. *)
Theorem partition_overwrites_attributes (mesh : Mesh) (subdomain : list Z) :
  length subdomain = GetNE mesh ->
  Forall (fun sd => CInt.in_range (sd + 1)) subdomain ->
  exists m' log,
    partitionMesh mesh subdomain = Ret (m', log)
    /\ GetNE m' = GetNE mesh
    /\ (forall i, (i < GetNE mesh)%nat ->
          exists sd, subdomain !! i = Some sd
                     /\ GetAttribute m' i = Some (sd + 1)%Z)
    /\ (forall mesh2, GetNE mesh2 = GetNE mesh ->
          exists log2, partitionMesh mesh2 subdomain = Ret (m', log2)).
Proof.
  intros Hlen Hrange.
  destruct (partitionMesh_returns mesh subdomain Hlen)
    as (m' & log & Hrun & Hattr & Hlog & Hne).
  exists m', log. repeat split; trivial.
  - intros i Hi.
    destruct (lookup_lt_is_Some_2 subdomain i ltac:(lia)) as [sd Hsd].
    exists sd. split; [exact Hsd|].
    unfold GetAttribute. rewrite Hattr, list_lookup_fmap, Hsd. simpl.
    rewrite subdomainAttribute_exact; [reflexivity|].
    rewrite Forall_lookup in Hrange. exact (Hrange i sd Hsd).
  - intros mesh2 Hne2.
    destruct (partitionMesh_returns mesh2 subdomain ltac:(lia))
      as (m2 & log2 & Hrun2 & Hattr2 & _ & _).
    exists log2. rewrite Hrun2. do 2 f_equal.
    destruct m2 as [a2], m' as [a']. simpl in *. congruence.
Qed.

Lemma partition_overwrites_attributes_witness :
  exists m' log,
    partitionMesh {| attributes := [7; 7; 5; 3]%Z |} [0; 0; 1; 1]%Z
      = Ret (m', log)
    /\ GetNE m' = 4%nat
    /\ (forall i, (i < 4)%nat ->
          exists sd, [0; 0; 1; 1]%Z !! i = Some sd
                     /\ GetAttribute m' i = Some (sd + 1)%Z)
    /\ (forall mesh2, GetNE mesh2 = 4%nat ->
          exists log2, partitionMesh mesh2 [0; 0; 1; 1]%Z = Ret (m', log2)).
Proof.
  apply (partition_overwrites_attributes
           {| attributes := [7; 7; 5; 3]%Z |} [0; 0; 1; 1]%Z).
  - reflexivity.
  - repeat constructor; vm_compute; intuition discriminate.
Defined.

(** C2.  After the partitioning step every element [i] in [[0, GetNE())] has
    had its attribute set exactly once, to [subdomain[i] + 1]; it belongs to
    the element set of exactly one subdomain, so no element is left out, the
    element sets of the subdomains [0 .. numSubdomains-1] together are the
    full element set, and no two of them overlap. *)
Theorem partition_coverage (mesh : Mesh) (subdomain : list Z)
    (numSubdomains : Z) :
  length subdomain = GetNE mesh ->
  Forall (fun sd => (0 <= sd < numSubdomains)%Z) subdomain ->
  (numSubdomains <= CInt.INT_MAX)%Z ->
  exists m' writes,
    partitionMesh mesh subdomain = Ret (m', writes)
    /\ GetNE m' = GetNE mesh
    /\ (forall i, (i < GetNE mesh)%nat ->
          count_occ Nat.eq_dec writes i = 1%nat
          /\ exists sd, subdomain !! i = Some sd
               /\ GetAttribute m' i = Some (sd + 1)%Z
               /\ (0 <= sd < numSubdomains)%Z
               /\ forall sd', i ∈ subdomainElements m' sd' <-> sd' = sd)
    /\ (forall i, i ∈ writes -> (i < GetNE mesh)%nat)
    /\ (forall i, (i < GetNE mesh)%nat <->
          exists sd, (0 <= sd < numSubdomains)%Z
                     /\ i ∈ subdomainElements m' sd)
    /\ (forall sd1 sd2 i, i ∈ subdomainElements m' sd1 ->
          i ∈ subdomainElements m' sd2 -> sd1 = sd2).
Proof.
  intros Hlen Hrange Hmax.
  destruct (partitionMesh_returns mesh subdomain Hlen)
    as (m' & log & Hrun & Hattr & Hlog & Hne).
  rewrite Forall_lookup in Hrange.
  assert (Hget : forall i sd, subdomain !! i = Some sd ->
                   GetAttribute m' i = Some (sd + 1)%Z).
  { intros i sd Hsd. unfold GetAttribute.
    rewrite Hattr, list_lookup_fmap, Hsd. simpl.
    rewrite subdomainAttribute_exact; [reflexivity|].
    pose proof (Hrange i sd Hsd).
    unfold CInt.in_range, CInt.INT_MIN, CInt.INT_MAX in *. lia. }
  assert (Hin : forall i sd, i ∈ subdomainElements m' sd ->
                  (i < GetNE mesh)%nat /\ subdomain !! i = Some sd).
  { intros i sd Hi. apply elem_of_subdomainElements in Hi.
    assert (Hlt : (i < GetNE mesh)%nat).
    { unfold GetAttribute in Hi. apply lookup_lt_Some in Hi.
      unfold GetNE in *. lia. }
    split; [exact Hlt|].
    destruct (lookup_lt_is_Some_2 subdomain i ltac:(lia)) as [sd0 Hsd0].
    rewrite (Hget i sd0 Hsd0) in Hi. rewrite Hsd0. f_equal.
    injection Hi. lia. }
  exists m', log. split; [exact Hrun|]. split; [exact Hne|].
  split; [|split; [|split]].
  - intros i Hi. split; [subst log; apply count_occ_seq; exact Hi|].
    destruct (lookup_lt_is_Some_2 subdomain i ltac:(lia)) as [sd Hsd].
    exists sd. repeat split; eauto; try (apply (Hrange i sd Hsd)).
    + intros Hi'. apply Hin in Hi'. destruct Hi' as [_ Hi']. congruence.
    + intros ->. apply elem_of_subdomainElements. eauto.
  - intros i Hi. subst log. apply elem_of_seq in Hi. lia.
  - intros i. split.
    + intros Hi.
      destruct (lookup_lt_is_Some_2 subdomain i ltac:(lia)) as [sd Hsd].
      exists sd. split; [exact (Hrange i sd Hsd)|].
      apply elem_of_subdomainElements. eauto.
    + intros (sd & _ & Hi). apply Hin in Hi. tauto.
  - intros sd1 sd2 i H1 H2. apply Hin in H1, H2.
    destruct H1 as [_ H1], H2 as [_ H2]. congruence.
Qed.

Lemma partition_coverage_witness :
  exists m' writes,
    partitionMesh {| attributes := [7; 7; 5; 3]%Z |} [0; 1; 1; 0]%Z
      = Ret (m', writes)
    /\ GetNE m' = 4%nat
    /\ (forall i, (i < 4)%nat ->
          count_occ Nat.eq_dec writes i = 1%nat
          /\ exists sd, [0; 1; 1; 0]%Z !! i = Some sd
               /\ GetAttribute m' i = Some (sd + 1)%Z
               /\ (0 <= sd < 2)%Z
               /\ forall sd', i ∈ subdomainElements m' sd' <-> sd' = sd)
    /\ (forall i, i ∈ writes -> (i < 4)%nat)
    /\ (forall i, (i < 4)%nat <->
          exists sd, (0 <= sd < 2)%Z /\ i ∈ subdomainElements m' sd)
    /\ (forall sd1 sd2 i, i ∈ subdomainElements m' sd1 ->
          i ∈ subdomainElements m' sd2 -> sd1 = sd2).
Proof.
  apply (partition_coverage {| attributes := [7; 7; 5; 3]%Z |}
           [0; 1; 1; 0]%Z 2%Z).
  - reflexivity.
  - repeat constructor; lia.
  - vm_compute. discriminate.
Defined.

(** ** Element marking *)

Example classify_outside :
  classify [(-1)%float; 0%float; (-0.5)%float] = 1%Z.
Proof. vm_compute. reflexivity. Qed.

Example classify_cut :
  classify [(-1)%float; 2%float; (-0.5)%float] = 2%Z.
Proof. vm_compute. reflexivity. Qed.

Example classify_inside :
  classify [1%float; 2%float; 0.5%float] = 0%Z.
Proof. vm_compute. reflexivity. Qed.

(** A value that is not a number is not [<= 0.]. *)
Example classify_nan : classify [nan; 1%float] = 0%Z.
Proof. vm_compute. reflexivity. Qed.

Example markElements_example :
  elem_marker <$>
    markElements
      (fun i => nth i [[(-1)%float; (-2)%float]; [(-1)%float; 1%float];
                       [3%float; 1%float]] [])
      true 1%nat (fun _ => [(-1)%float; 1%float])
      {| attributes := [5; 5; 5]%Z |}
  = Ret [1; 2; 0; 2]%Z.
Proof. vm_compute. reflexivity. Qed.

Lemma count_fold vals : forall c,
  (0 <= c)%Z -> (c + Z.of_nat (length vals) <= CInt.INT_MAX)%Z ->
  fold_left (fun count val => if nonpositive val then CInt.add count 1
                              else count) vals c
  = (c + Z.of_nat (length (List.filter nonpositive vals)))%Z.
Proof.
  induction vals as [|v vals IH]; intros c Hc Hb; simpl in *.
  - lia.
  - pose proof (List.filter_length_le nonpositive vals) as Hle.
    destruct (nonpositive v); simpl.
    + unfold CInt.add. rewrite CIntFacts.wrap_id
        by (unfold CInt.in_range, CInt.INT_MIN, CInt.INT_MAX in *; lia).
      rewrite IH by lia. lia.
    + rewrite IH by lia. lia.
Qed.

Lemma countNonPositive_filter vals :
  (Z.of_nat (length vals) <= CInt.INT_MAX)%Z ->
  countNonPositive vals
  = Z.of_nat (length (List.filter nonpositive vals)).
Proof.
  intros H. unfold countNonPositive. rewrite count_fold; lia.
Qed.

Lemma filter_all (vals : list float) :
  length (List.filter nonpositive vals) = length vals
  <-> Forall NonPositive vals.
Proof.
  induction vals as [|v vals IH]; simpl.
  - split; [constructor|reflexivity].
  - pose proof (List.filter_length_le nonpositive vals) as Hle.
    destruct (nonpositive v) eqn:E; simpl.
    + split.
      * intros H. constructor; [exact E|]. apply IH. lia.
      * intros H. apply Forall_cons_1 in H. destruct H as [_ H].
        apply IH in H. lia.
    + split; [lia|]. intros H. apply Forall_cons_1 in H.
      destruct H as [H _]. unfold NonPositive in H. congruence.
Qed.

Lemma filter_some (vals : list float) :
  (0 < length (List.filter nonpositive vals))%nat
  <-> Exists NonPositive vals.
Proof.
  induction vals as [|v vals IH]; simpl.
  - split; [lia|]. intros H. inversion H.
  - destruct (nonpositive v) eqn:E; simpl.
    + split; [|lia]. intros _. left. exact E.
    + rewrite IH. split.
      * intros H. right. exact H.
      * intros H. inversion H as [? ? Hv|? ? Ht]; subst;
          [unfold NonPositive in Hv; congruence|exact Ht].
Qed.

(** What [classify] decides, in terms of the values. *)
Lemma classify_spec vals :
  (Z.of_nat (length vals) <= CInt.INT_MAX)%Z ->
  (classify vals = 1%Z <-> Forall NonPositive vals)
  /\ (classify vals = 2%Z <->
        Exists NonPositive vals /\ ~ Forall NonPositive vals)
  /\ (classify vals = 0%Z <->
        ~ Forall NonPositive vals
        /\ ~ (Exists NonPositive vals /\ ~ Forall NonPositive vals))
  /\ (classify vals = 0 \/ classify vals = 1 \/ classify vals = 2)%Z.
Proof.
  intros Hb. unfold classify. rewrite countNonPositive_filter by exact Hb.
  pose proof (filter_all vals) as Hall.
  pose proof (filter_some vals) as Hsome.
  destruct (Z.eqb_spec (Z.of_nat (length (List.filter nonpositive vals)))
              (Z.of_nat (length vals))) as [He|Hne].
  - assert (Forall NonPositive vals) by (apply Hall; lia).
    repeat split; try tauto; try discriminate; auto.
  - assert (~ Forall NonPositive vals) by (rewrite <- Hall; lia).
    destruct (Z.gtb_spec (Z.of_nat (length (List.filter nonpositive vals))) 0)
      as [Hgt|Hle].
    + assert (Exists NonPositive vals) by (apply Hsome; lia).
      repeat split; try tauto; try discriminate; auto.
    + assert (~ Exists NonPositive vals) by (rewrite <- Hsome; lia).
      repeat split; try tauto; try discriminate; auto.
Qed.

Section MarkingLoops.
Variable GetValues : nat -> list float.
Variable trimin : bool.
Variable GetNSharedFaces : nat.
Variable GetFaceNbrValues : nat -> list float.
Variable pm : Mesh.

Local Abbreviation size := (GetNE pm + GetNSharedFaces)%nat.

Lemma mark_local_spec i st :
  (i < length (elem_marker st))%nat ->
  elem_marker st !! i = Some 0%Z ->
  exists st',
    mark_local GetValues trimin i st = Ret st'
    /\ elem_marker st' = <[i := classify (GetValues i)]> (elem_marker st)
    /\ GetNE (pmesh st') = GetNE (pmesh st).
Proof.
  intros Hi H0. unfold mark_local, classify, array_set.
  destruct (Nat.ltb_spec i (length (elem_marker st))) as [_|]; [|lia].
  destruct (_ =? _)%Z; [|destruct (_ >? _)%Z]; simpl;
    eexists; (split; [reflexivity|]); simpl;
    rewrite ?GetNE_SetAttribute; split; trivial.
  symmetry. apply list_insert_id. exact H0.
Qed.

Lemma mark_neighbor_spec i st :
  (i < length (elem_marker st))%nat ->
  exists st' m,
    mark_neighbor GetFaceNbrValues i st = Ret st'
    /\ elem_marker st' = <[i := m]> (elem_marker st)
    /\ pmesh st' = pmesh st.
Proof.
  intros Hi. unfold mark_neighbor, array_set.
  destruct (Nat.ltb_spec i (length (elem_marker st))) as [_|]; [|lia].
  destruct (lookup_lt_is_Some_2 (elem_marker st) i Hi) as [m0 Hm0].
  destruct (_ =? _)%Z; [|destruct (_ >? _)%Z]; simpl.
  - eexists _, 1%Z. repeat split.
  - eexists _, 2%Z. repeat split.
  - exists st, m0. repeat split. symmetry. apply list_insert_id. exact Hm0.
Qed.

Lemma markElements_returns :
  exists st,
    markElements GetValues trimin GetNSharedFaces GetFaceNbrValues pm = Ret st
    /\ length (elem_marker st) = size
    /\ forall j, (j < GetNE pm)%nat ->
         elem_marker st !! j = Some (classify (GetValues j)).
Proof.
  unfold markElements.
  destruct (for_loop_invariant (fun st => GetNE (pmesh st))
              (mark_local GetValues trimin) (GetNE pm)
              (local_inv GetValues GetNSharedFaces pm))
    with (fuel := GetNE pm) (i := 0%nat)
         (s := {| elem_marker := replicate size 0%Z; pmesh := pm |})
    as (st1 & Hrun1 & Hlen1 & Hne1 & Hdone1 & _).
  - intros i s (_ & H & _). exact H.
  - intros i s Hi (Hlen & Hne & Hdone & Hrest).
    destruct (mark_local_spec i s) as (s' & Hr & Hem & Hne').
    + lia.
    + apply Hrest. lia.
    + exists s'. split; [exact Hr|]. unfold local_inv. rewrite Hem.
      rewrite length_insert. repeat split; try congruence.
      * intros j Hj. destruct (Nat.eq_dec j i) as [->|Hne''].
        -- apply list_lookup_insert_eq. lia.
        -- rewrite list_lookup_insert_ne by congruence. apply Hdone. lia.
      * intros j Hj. rewrite list_lookup_insert_ne by lia. apply Hrest. lia.
  - lia.
  - lia.
  - unfold local_inv. simpl. rewrite length_replicate.
    repeat split; trivial; [lia|].
    intros j Hj. apply lookup_replicate_2. lia.
  - rewrite Hrun1. simpl.
    destruct (for_loop_invariant
                (fun st => (GetNE (pmesh st) + GetNSharedFaces)%nat)
                (mark_neighbor GetFaceNbrValues) size
                (neighbor_inv GetValues GetNSharedFaces pm))
      with (fuel := GetNSharedFaces) (i := GetNE pm) (s := st1)
      as (st2 & Hrun2 & Hlen2 & Hne2 & Hdone2 & _).
    + intros i s (_ & H & _). lia.
    + intros i s Hi (Hlen & Hne & Hdone & Hge).
      destruct (mark_neighbor_spec i s) as (s' & m & Hr & Hem & Hpm);
        [lia|].
      exists s'. split; [exact Hr|]. unfold neighbor_inv. rewrite Hem, Hpm.
      rewrite length_insert. repeat split; trivial; [|lia].
      intros j Hj. rewrite list_lookup_insert_ne by lia. apply Hdone. exact Hj.
    + lia.
    + lia.
    + unfold neighbor_inv. repeat split; trivial.
    + exists st2. repeat split; trivial.
Qed.

End MarkingLoops.

(** C10.  The marking of the local elements is a total trichotomy: every
    local element gets exactly one marker out of 0, 1, 2; it is 1 when the
    level-set values at all quadrature points of the element are [<= 0], 2
    when at least one but not all of them are, and 0 otherwise. *)
Theorem element_marker_trichotomy (GetValues : nat -> list float)
    (trimin : bool) (GetNSharedFaces : nat)
    (GetFaceNbrValues : nat -> list float) (pm : Mesh) :
  (forall i, (i < GetNE pm)%nat ->
     (Z.of_nat (length (GetValues i)) <= CInt.INT_MAX)%Z) ->
  exists st,
    markElements GetValues trimin GetNSharedFaces GetFaceNbrValues pm = Ret st
    /\ forall i, (i < GetNE pm)%nat ->
         exists m, elem_marker st !! i = Some m
           /\ (m = 0 \/ m = 1 \/ m = 2)%Z
           /\ (m = 1%Z <-> Forall NonPositive (GetValues i))
           /\ (m = 2%Z <-> Exists NonPositive (GetValues i)
                           /\ ~ Forall NonPositive (GetValues i))
           /\ (m = 0%Z <-> ~ Forall NonPositive (GetValues i)
                           /\ ~ (Exists NonPositive (GetValues i)
                                 /\ ~ Forall NonPositive (GetValues i))).
Proof.
  intros Hpts.
  destruct (markElements_returns GetValues trimin GetNSharedFaces
              GetFaceNbrValues pm) as (st & Hrun & _ & Hmark).
  exists st. split; [exact Hrun|]. intros i Hi.
  exists (classify (GetValues i)). split; [apply Hmark; exact Hi|].
  destruct (classify_spec (GetValues i) (Hpts i Hi)) as (H1 & H2 & H0 & Hr).
  tauto.
Qed.

Lemma element_marker_trichotomy_witness :
  let GetValues := fun i =>
    nth i [[(-1)%float; (-2)%float]; [(-1)%float; 1%float];
           [3%float; 1%float]] [] in
  let pm := {| attributes := [5; 5; 5]%Z |} in
  exists st,
    markElements GetValues true 1%nat (fun _ => [(-1)%float; 1%float]) pm
      = Ret st
    /\ forall i, (i < GetNE pm)%nat ->
         exists m, elem_marker st !! i = Some m
           /\ (m = 0 \/ m = 1 \/ m = 2)%Z
           /\ (m = 1%Z <-> Forall NonPositive (GetValues i))
           /\ (m = 2%Z <-> Exists NonPositive (GetValues i)
                           /\ ~ Forall NonPositive (GetValues i))
           /\ (m = 0%Z <-> ~ Forall NonPositive (GetValues i)
                           /\ ~ (Exists NonPositive (GetValues i)
                                 /\ ~ Forall NonPositive (GetValues i))).
Proof.
  intros GetValues pm.
  apply (element_marker_trichotomy GetValues true 1%nat
           (fun _ => [(-1)%float; 1%float]) pm).
  intros i Hi. change (GetNE pm) with 3%nat in Hi.
  destruct i as [|[|[|i]]]; [vm_compute; discriminate ..|lia].
Defined.

(** ** Interfaces and their meshes *)

Example emptyInterface_example :
  emptyInterface 4 7
  = Ret {| sd0 := 1; sd1 := 3; globalIndex_field := Some 7%Z;
           faces := []; vertices := [] |}.
Proof. vm_compute. reflexivity. Qed.

(** Without subdomains line 561 divides by zero. *)
Example emptyInterface_zero_subdomains : emptyInterface 0 7 = Undefined.
Proof. vm_compute. reflexivity. Qed.

Example CreateInterfaceMeshes_zero_subdomains :
  CreateInterfaceMeshes 0 [] [-1]%Z [5]%Z 1 = Undefined.
Proof. vm_compute. reflexivity. Qed.

(** Two subdomains; this process realizes nothing of interface (0,1). *)
Example CreateInterfaceMeshes_empty_interface :
  CreateInterfaceMeshes 2 [] [-1]%Z [1]%Z 1
  = Ret ([ Some {| entities := [] |} ],
         [ {| sd0 := 0; sd1 := 1; globalIndex_field := Some 1%Z;
              faces := []; vertices := [] |} ]).
Proof. vm_compute. reflexivity. Qed.

(** A local interface whose index differs from the agreed one stops the
    run. *)
Example CreateInterfaceMeshes_mismatch :
  CreateInterfaceMeshes 2
    [ {| sd0 := 0; sd1 := 1; globalIndex_field := Some 1%Z;
         faces := [3%nat]; vertices := [] |} ]
    [0]%Z [2]%Z 1
  = Aborted.
Proof. vm_compute. reflexivity. Qed.

(** The object built on lines 561-564 for a positive number of subdomains:
    it carries the pair decoded from the stored index, its own global index
    is the stored one again, and it holds nothing. *)
Lemma emptyInterface_spec n gi :
  (0 < n)%Z -> CInt.in_range gi ->
  exists ifc,
    emptyInterface n gi = Ret ifc
    /\ (sd0 ifc, sd1 ifc) = decodeInterfaceIndex n gi
    /\ GetGlobalIndex ifc = Ret gi
    /\ faces ifc = [] /\ vertices ifc = [].
Proof.
  intros Hn Hgi. unfold emptyInterface, int_div.
  rewrite (div_by_positive n gi Hgi Hn). cbn [mbind result_bind].
  eexists. split; [reflexivity|].
  unfold GetGlobalIndex, SetGlobalIndex, newSubdomainInterface.
  cbn [sd0 sd1 faces vertices globalIndex_field].
  pose proof (decodeInterfaceIndex_int_exact n gi Hgi Hn) as Hd.
  unfold decodeInterfaceIndex_int in Hd.
  rewrite (div_by_positive n gi Hgi Hn) in Hd.
  unfold decodeInterfaceIndex in *. injection Hd as Hr. rewrite Hr.
  repeat split. f_equal.
  unfold globalIndex_int, CInt.add, CInt.mul.
  pose proof (quot_mul_between n gi Hn) as Hb. cbv zeta in Hb.
  unfold CInt.in_range, CInt.INT_MIN, CInt.INT_MAX in Hgi.
  rewrite (CIntFacts.wrap_id (n * (gi ÷ n)))
    by (unfold CInt.in_range, CInt.INT_MIN, CInt.INT_MAX; lia).
  replace (n * (gi ÷ n) + (gi - n * (gi ÷ n)))%Z with gi by lia.
  apply CIntFacts.wrap_id. exact Hgi.
Qed.

(** For a positive number of subdomains the division has a value whatever
    the stored index is, and the object holds no faces. *)
Lemma emptyInterface_returns n gi :
  (0 < n)%Z ->
  exists ifc, emptyInterface n gi = Ret ifc /\ faces ifc = [].
Proof.
  intros Hn. unfold emptyInterface, int_div, CInt.div.
  destruct (Z.eqb_spec n 0) as [|_]; [lia|].
  destruct (Z.eqb_spec n (-1)) as [|_]; [lia|].
  rewrite andb_false_r. cbn [orb mbind result_bind].
  eexists. split; reflexivity.
Qed.

Section InterfaceContractFacts.
Variable numSubdomains : Z.
Variable interfaces : list SubdomainInterface.
Variable interfaceGlobalToLocalMap : list Z.
Variable interfaceGI : list Z.
Variable numInterfaces : Z.

Local Abbreviation N := (Z.to_nat numInterfaces).
Local Abbreviation meshAt :=
  (interfaceMeshAt numSubdomains interfaces interfaceGlobalToLocalMap
     interfaceGI).
Local Abbreviation well_formed :=
  (well_formed_map interfaces interfaceGlobalToLocalMap interfaceGI
     numInterfaces).
Local Abbreviation agree :=
  (agrees interfaces interfaceGlobalToLocalMap interfaceGI).
Local Abbreviation differ :=
  (mismatch interfaces interfaceGlobalToLocalMap interfaceGI).

Lemma interfaceMeshAt_mismatch i : differ i -> meshAt i = Aborted.
Proof.
  intros (iloc & gi & ifc & g & Hm & Hpos & Hgi & Hifc & Hg & Hne).
  unfold interfaceMeshAt, array_get. rewrite Hm. simpl.
  destruct (Z.geb_spec iloc 0) as [_|]; [|lia].
  rewrite Hgi. simpl. rewrite Hifc. simpl. rewrite Hg. simpl.
  destruct (Z.eqb_spec gi g); [contradiction|reflexivity].
Qed.

(** What is handed to the generator for an entry that is realized and
    agrees. *)
Lemma interfaceMeshAt_realized i iloc gi ifc :
  interfaceGlobalToLocalMap !! i = Some iloc -> (0 <= iloc)%Z ->
  interfaceGI !! i = Some gi ->
  interfaces !! Z.to_nat iloc = Some ifc ->
  GetGlobalIndex ifc = Ret gi ->
  meshAt i = Ret (ifc, {| entities := faces ifc |}).
Proof.
  intros Hm Hpos Hgi Hifc Hg.
  unfold interfaceMeshAt, array_get. rewrite Hm. simpl.
  destruct (Z.geb_spec iloc 0) as [_|]; [|lia].
  rewrite Hgi. simpl. rewrite Hifc. simpl. rewrite Hg. simpl.
  rewrite Z.eqb_refl. reflexivity.
Qed.

(** What is handed to the generator for an entry that is not realized. *)
Lemma interfaceMeshAt_unrealized i iloc gi :
  interfaceGlobalToLocalMap !! i = Some iloc -> (iloc < 0)%Z ->
  interfaceGI !! i = Some gi ->
  meshAt i
  = (ifc ← emptyInterface numSubdomains gi;
     Ret (ifc, {| entities := faces ifc |})).
Proof.
  intros Hm Hneg Hgi.
  unfold interfaceMeshAt, array_get. rewrite Hm. simpl.
  destruct (Z.geb_spec iloc 0) as [|_]; [lia|].
  rewrite Hgi. simpl. destruct (emptyInterface numSubdomains gi); reflexivity.
Qed.

Hypothesis subdomains_positive : (0 < numSubdomains)%Z.

Lemma interfaceMeshAt_cases i :
  well_formed -> (i < N)%nat ->
  (agree i /\ exists r, meshAt i = Ret r)
  \/ (differ i /\ meshAt i = Aborted).
Proof.
  intros (Hlm & Hlg & Hloc) Hi.
  destruct (lookup_lt_is_Some_2 interfaceGlobalToLocalMap i ltac:(lia))
    as [iloc Hm].
  destruct (lookup_lt_is_Some_2 interfaceGI i ltac:(lia)) as [gi Hgi].
  destruct (Z_lt_ge_dec iloc 0) as [Hneg|Hpos].
  - left. split.
    + intros iloc' Hm' Hpos'. rewrite Hm in Hm'. injection Hm' as <-. lia.
    + rewrite (interfaceMeshAt_unrealized i iloc gi Hm Hneg Hgi).
      destruct (emptyInterface_returns numSubdomains gi subdomains_positive)
        as (ifc & -> & _).
      eexists. reflexivity.
  - destruct (Hloc i iloc Hm ltac:(lia)) as (ifc & g & Hifc & Hg).
    destruct (Z.eq_dec gi g) as [->|Hne].
    + left. split.
      * intros iloc' Hm' _. rewrite Hm in Hm'. injection Hm' as <-.
        exists g, ifc. auto.
      * rewrite (interfaceMeshAt_realized i iloc g ifc Hm ltac:(lia) Hgi
                   Hifc Hg).
        eexists. reflexivity.
    + assert (Hmis : differ i) by (exists iloc, gi, ifc, g; auto 10 with lia).
      right. split; [exact Hmis|]. apply interfaceMeshAt_mismatch, Hmis.
Qed.

Lemma agrees_not_mismatch i : agree i -> differ i -> False.
Proof.
  intros Ha (iloc & gi & ifc & g & Hm & Hpos & Hgi & Hifc & Hg & Hne).
  destruct (Ha iloc Hm Hpos) as (gi' & ifc' & Hgi' & Hifc' & Hg').
  congruence.
Qed.

End InterfaceContractFacts.

(** The enumeration of section 4.1 meets the contract: the vectors it
    hands over are well formed and every realized entry carries the index
    of its local interface. *)
Lemma GlobalToLocalInterfaceMap_contract numSubdomains interfaces reported :
  let '(numInterfaces, interfaceGlobalToLocalMap, interfaceGI) :=
    GlobalToLocalInterfaceMap numSubdomains interfaces reported in
  well_formed_map interfaces interfaceGlobalToLocalMap interfaceGI
                  numInterfaces
  /\ forall i, agrees interfaces interfaceGlobalToLocalMap interfaceGI i.
Proof.
  unfold GlobalToLocalInterfaceMap.
  set (GI := filter _ (allInterfaceIndices numSubdomains)).
  assert (Hentry : forall i iloc,
            (localInterfaceIndex interfaces <$> GI) !! i = Some iloc ->
            (0 <= iloc)%Z ->
            exists g ifc, GI !! i = Some g
                          /\ interfaces !! Z.to_nat iloc = Some ifc
                          /\ GetGlobalIndex ifc = Ret g).
  { intros i iloc Hi Hpos. rewrite list_lookup_fmap in Hi.
    destruct (GI !! i) as [g|] eqn:Hg; [|discriminate].
    simpl in Hi. injection Hi as <-. unfold localInterfaceIndex in *.
    destruct (list_find _ interfaces) as [[k ifc]|] eqn:Hfind; [|lia].
    apply list_find_Some in Hfind. destruct Hfind as (Hk & Hidx & _).
    exists g, ifc. rewrite Nat2Z.id. unfold GetGlobalIndex. rewrite Hidx.
    auto. }
  split.
  - unfold well_formed_map. rewrite Nat2Z.id, length_fmap.
    repeat split. intros i iloc Hi Hpos.
    destruct (Hentry i iloc Hi Hpos) as (g & ifc & _ & Hifc & Hg). eauto.
  - intros i iloc Hi Hpos. apply Hentry; trivial.
Qed.

Example GlobalToLocalInterfaceMap_example :
  GlobalToLocalInterfaceMap 3
    [ {| sd0 := 0; sd1 := 1; globalIndex_field := Some 1%Z;
         faces := [3%nat]; vertices := [] |} ]
    [5%Z]
  = (2%Z, [0; -1]%Z, [1; 5]%Z).
Proof. vm_compute. reflexivity. Qed.

(** Under the builder's contract the loop of lines 550-567 runs to its
    end, fills every entry and has called the generator once per entry. *)
Lemma CreateInterfaceMeshes_completes numSubdomains interfaces
    interfaceGlobalToLocalMap interfaceGI numInterfaces :
  (0 < numSubdomains)%Z ->
  well_formed_map interfaces interfaceGlobalToLocalMap interfaceGI
                  numInterfaces ->
  (forall i, (i < Z.to_nat numInterfaces)%nat ->
     agrees interfaces interfaceGlobalToLocalMap interfaceGI i) ->
  exists st,
    CreateInterfaceMeshes numSubdomains interfaces interfaceGlobalToLocalMap
                          interfaceGI numInterfaces = Ret st
    /\ logged_inv (interfaceMeshAt numSubdomains interfaces
                     interfaceGlobalToLocalMap interfaceGI)
                  (Z.to_nat numInterfaces) (Z.to_nat numInterfaces) st.
Proof.
  intros Hn Hwf Hagree. apply logged_returns. intros j Hj.
  destruct (interfaceMeshAt_cases numSubdomains interfaces
              interfaceGlobalToLocalMap interfaceGI numInterfaces Hn j Hwf Hj)
    as [[_ Hm]|[Hmis _]]; [exact Hm|].
  exfalso. eapply agrees_not_mismatch; [apply (Hagree j Hj)|exact Hmis].
Qed.

(** With the enumeration of section 4.1 the check of line 555 never
    fails. *)
Corollary enumerated_interfaces_verified numSubdomains interfaces reported :
  (0 < numSubdomains)%nat ->
  let '(numInterfaces, interfaceGlobalToLocalMap, interfaceGI) :=
    GlobalToLocalInterfaceMap numSubdomains interfaces reported in
  exists st,
    CreateInterfaceMeshes (Z.of_nat numSubdomains) interfaces
      interfaceGlobalToLocalMap interfaceGI numInterfaces = Ret st.
Proof.
  intros Hn.
  pose proof (GlobalToLocalInterfaceMap_contract numSubdomains interfaces
                reported) as Hc.
  destruct (GlobalToLocalInterfaceMap numSubdomains interfaces reported)
    as [[numInterfaces map] GI].
  destruct Hc as [Hwf Hagree].
  destruct (CreateInterfaceMeshes_completes (Z.of_nat numSubdomains)
              interfaces map GI numInterfaces ltac:(lia) Hwf
              (fun i _ => Hagree i))
    as (st & Hrun & _).
  eauto.
Qed.

(** C6.  In the loop that builds the interface meshes, for a positive
    number of subdomains, every locally realized entry [i] is checked: the
    agreed index [interfaceGI[i]] must be the local interface's own
    [GetGlobalIndex()].  When all realized entries agree (the builder's
    contract) the assertion holds and the loop runs to its end; a run that
    completes has found all of them equal, has handed every realized local
    interface to [CreateParallelInterfaceMesh] and has stored its mesh; any
    mismatch stops the run. *)
Theorem global_index_verified (numSubdomains : Z)
    (interfaces : list SubdomainInterface)
    (interfaceGlobalToLocalMap interfaceGI : list Z) (numInterfaces : Z) :
  (0 < numSubdomains)%Z ->
  well_formed_map interfaces interfaceGlobalToLocalMap interfaceGI
                  numInterfaces ->
  let run := CreateInterfaceMeshes numSubdomains interfaces
               interfaceGlobalToLocalMap interfaceGI numInterfaces in
  let agree := agrees interfaces interfaceGlobalToLocalMap interfaceGI in
  let differ := mismatch interfaces interfaceGlobalToLocalMap interfaceGI in
  let N := Z.to_nat numInterfaces in
  ((forall i, (i < N)%nat -> agree i) -> exists st, run = Ret st)
  /\ (forall st, run = Ret st -> forall i, (i < N)%nat -> agree i)
  /\ (forall pmeshInterfaces generated,
        run = Ret (pmeshInterfaces, generated) ->
        forall i iloc, interfaceGlobalToLocalMap !! i = Some iloc ->
          (0 <= iloc)%Z ->
          exists ifc m,
            interfaces !! Z.to_nat iloc = Some ifc
            /\ generated !! i = Some ifc
            /\ CreateParallelInterfaceMesh ifc = Ret m
            /\ pmeshInterfaces !! i = Some (Some m))
  /\ ((exists i, (i < N)%nat /\ differ i) -> run = Aborted)
  /\ (run = Aborted \/ exists st, run = Ret st).
Proof.
  intros Hn Hwf run agree differ N.
  pose proof (interfaceMeshAt_cases numSubdomains interfaces
                interfaceGlobalToLocalMap interfaceGI numInterfaces Hn)
    as Hc.
  set (f := interfaceMeshAt numSubdomains interfaces
              interfaceGlobalToLocalMap interfaceGI) in *.
  assert (Hrun : run = for_loop N (fun _ => N) (logged_body f) 0%nat
                         (replicate N None, [])) by reflexivity.
  assert (Hbad : forall k, (k < N)%nat ->
            (forall j, (j < k)%nat -> exists a, f j = Ret a) ->
            (forall a, f k <> Ret a) -> run = Aborted /\ differ k).
  { intros k Hk Hpre Hnot.
    destruct (Hc k Hwf Hk) as [[_ [m Hm]]|[Hmis Hab]].
    - exfalso. exact (Hnot m Hm).
    - split; [|exact Hmis]. rewrite Hrun.
      rewrite (logged_stops f N k Aborted Hk Hpre Hab); [reflexivity|].
      discriminate. }
  assert (Hgood : (forall j, (j < N)%nat -> exists a, f j = Ret a) ->
            exists st, run = Ret st /\ logged_inv f N N st).
  { intros Hall. destruct (logged_returns f N Hall) as (st & Hr & Hinv).
    exists st. rewrite Hrun. auto. }
  assert (Hagree : (forall j, (j < N)%nat -> exists a, f j = Ret a) ->
            forall i, (i < N)%nat -> agree i).
  { intros Hall i Hi. destruct (Hc i Hwf Hi) as [[Ha _]|[_ Hab]]; [exact Ha|].
    destruct (Hall i Hi) as [a Ha]. congruence. }
  destruct (fill_cases f N) as [Hall|(k & Hk & Hpre & Hnot)].
  - destruct (Hgood Hall) as (st & Hst & _ & _ & Hdone).
    split; [|split; [|split; [|split]]].
    + intros _. eauto.
    + intros _ _. apply Hagree, Hall.
    + intros arr log Hret i iloc Hm Hpos.
      assert (Hi : (i < N)%nat).
      { destruct Hwf as (Hlm & _). apply lookup_lt_Some in Hm. lia. }
      assert (st = (arr, log)) by congruence. subst st.
      destruct (Hdone i Hi) as (a & b & Hf & Harr & Hlog).
      destruct (Hagree Hall i Hi iloc Hm Hpos) as (gi & ifc & Hgi & Hifc & Hg).
      subst f.
      rewrite (interfaceMeshAt_realized numSubdomains interfaces
                 interfaceGlobalToLocalMap interfaceGI i iloc gi ifc Hm Hpos
                 Hgi Hifc Hg) in Hf.
      injection Hf as <- <-. exists ifc, {| entities := faces ifc |}.
      cbn [fst snd] in *. auto.
    + intros (i & Hi & Hd). exfalso.
      eapply agrees_not_mismatch; [apply (Hagree Hall i Hi)|exact Hd].
    + right. eauto.
  - destruct (Hbad k Hk Hpre Hnot) as [Hab Hd].
    split; [|split; [|split; [|split]]].
    + intros Hag. exfalso.
      eapply agrees_not_mismatch; [apply (Hag k Hk)|exact Hd].
    + intros st Hst. congruence.
    + intros arr log Hret. congruence.
    + intros _. exact Hab.
    + left. exact Hab.
Qed.

Lemma global_index_verified_witness :
  let interfaces :=
    [ {| sd0 := 0; sd1 := 1; globalIndex_field := Some 1%Z;
         faces := [3%nat]; vertices := [] |} ] in
  let run := CreateInterfaceMeshes 3 interfaces [0; -1]%Z [1; 5]%Z 2 in
  let agree := agrees interfaces [0; -1]%Z [1; 5]%Z in
  let differ := mismatch interfaces [0; -1]%Z [1; 5]%Z in
  ((forall i, (i < 2)%nat -> agree i) -> exists st, run = Ret st)
  /\ (forall st, run = Ret st -> forall i, (i < 2)%nat -> agree i)
  /\ (forall pmeshInterfaces generated,
        run = Ret (pmeshInterfaces, generated) ->
        forall i iloc, [0; -1]%Z !! i = Some iloc -> (0 <= iloc)%Z ->
          exists ifc m,
            interfaces !! Z.to_nat iloc = Some ifc
            /\ generated !! i = Some ifc
            /\ CreateParallelInterfaceMesh ifc = Ret m
            /\ pmeshInterfaces !! i = Some (Some m))
  /\ ((exists i, (i < 2)%nat /\ differ i) -> run = Aborted)
  /\ (run = Aborted \/ exists st, run = Ret st).
Proof.
  intros interfaces.
  apply (global_index_verified 3 interfaces [0; -1]%Z [1; 5]%Z 2).
  - lia.
  - repeat split.
    intros i iloc Hi Hpos.
    destruct i as [|[|i]]; simpl in Hi;
      [|injection Hi as <-; lia|discriminate].
    injection Hi as <-. eexists _, _. split; reflexivity.
Defined.

(** C5.  For every global interface index that this process does not
    realize (negative entry of [interfaceGlobalToLocalMap]) the loop hands
    to [CreateParallelInterfaceMesh] an interface object that carries the
    pair [(sd0, sd1)] decoded from the stored index, has the stored index
    as its own and holds neither faces nor vertices; the mesh built from
    this object is stored in [pmeshInterfaces[i]] and has no elements: the
    run neither fails nor leaves the entry empty. *)
Theorem empty_interface_mesh (numSubdomains : Z)
    (interfaces : list SubdomainInterface)
    (interfaceGlobalToLocalMap interfaceGI : list Z) (numInterfaces : Z) :
  (0 < numSubdomains)%Z ->
  Forall CInt.in_range interfaceGI ->
  well_formed_map interfaces interfaceGlobalToLocalMap interfaceGI
                  numInterfaces ->
  (forall i, (i < Z.to_nat numInterfaces)%nat ->
     agrees interfaces interfaceGlobalToLocalMap interfaceGI i) ->
  exists pmeshInterfaces generated,
    CreateInterfaceMeshes numSubdomains interfaces interfaceGlobalToLocalMap
                          interfaceGI numInterfaces
    = Ret (pmeshInterfaces, generated)
    /\ length pmeshInterfaces = Z.to_nat numInterfaces
    /\ length generated = Z.to_nat numInterfaces
    /\ forall i iloc gi,
         interfaceGlobalToLocalMap !! i = Some iloc -> (iloc < 0)%Z ->
         interfaceGI !! i = Some gi ->
         exists ifc m,
           generated !! i = Some ifc
           /\ (sd0 ifc, sd1 ifc) = decodeInterfaceIndex numSubdomains gi
           /\ GetGlobalIndex ifc = Ret gi
           /\ faces ifc = [] /\ vertices ifc = []
           /\ (forall a b, (0 <= a < b)%Z -> (b < numSubdomains)%Z ->
                 gi = globalIndex numSubdomains a b ->
                 sd0 ifc = a /\ sd1 ifc = b)
           /\ CreateParallelInterfaceMesh ifc = Ret m
           /\ pmeshInterfaces !! i = Some (Some m)
           /\ SubMesh_GetNE m = 0%nat.
Proof.
  intros Hn Hrange Hwf Hagree.
  destruct (CreateInterfaceMeshes_completes numSubdomains interfaces
              interfaceGlobalToLocalMap interfaceGI numInterfaces Hn Hwf
              Hagree)
    as ([arr log] & Hrun & Hlen & Hlog & Hdone).
  cbn [fst snd] in *.
  exists arr, log. split; [exact Hrun|]. split; [exact Hlen|].
  split; [exact Hlog|].
  intros i iloc gi Hm Hneg Hgi.
  assert (Hgr : CInt.in_range gi).
  { rewrite Forall_lookup in Hrange. exact (Hrange i gi Hgi). }
  assert (Hi : (i < Z.to_nat numInterfaces)%nat).
  { destruct Hwf as (Hlm & _). apply lookup_lt_Some in Hm. lia. }
  destruct (Hdone i Hi) as (ifc & m & Hfm & Harr & Hl).
  rewrite (interfaceMeshAt_unrealized numSubdomains interfaces
             interfaceGlobalToLocalMap interfaceGI i iloc gi Hm Hneg Hgi)
    in Hfm.
  destruct (emptyInterface_spec numSubdomains gi Hn Hgr)
    as (ifc' & Hifc & Hid & Hg & Hf & Hv).
  rewrite Hifc in Hfm. cbn [mbind result_bind] in Hfm.
  injection Hfm as <- <-.
  exists ifc', {| entities := faces ifc' |}.
  split; [exact Hl|]. split; [exact Hid|]. split; [exact Hg|].
  split; [exact Hf|]. split; [exact Hv|]. split.
  - intros a b Hab Hb ->. rewrite decode_globalIndex in Hid by lia.
    injection Hid as H0 H1. split; [exact H0|exact H1].
  - split; [reflexivity|]. split; [exact Harr|].
    unfold SubMesh_GetNE. cbn [entities]. rewrite Hf. reflexivity.
Qed.

Lemma empty_interface_mesh_witness :
  let interfaces :=
    [ {| sd0 := 0; sd1 := 1; globalIndex_field := Some 1%Z;
         faces := [3%nat]; vertices := [] |} ] in
  exists pmeshInterfaces generated,
    CreateInterfaceMeshes 3 interfaces [0; -1]%Z [1; 5]%Z 2
    = Ret (pmeshInterfaces, generated)
    /\ length pmeshInterfaces = 2%nat
    /\ length generated = 2%nat
    /\ forall i iloc gi,
         [0; -1]%Z !! i = Some iloc -> (iloc < 0)%Z ->
         [1; 5]%Z !! i = Some gi ->
         exists ifc m,
           generated !! i = Some ifc
           /\ (sd0 ifc, sd1 ifc) = decodeInterfaceIndex 3 gi
           /\ GetGlobalIndex ifc = Ret gi
           /\ faces ifc = [] /\ vertices ifc = []
           /\ (forall a b, (0 <= a < b)%Z -> (b < 3)%Z ->
                 gi = globalIndex 3 a b -> sd0 ifc = a /\ sd1 ifc = b)
           /\ CreateParallelInterfaceMesh ifc = Ret m
           /\ pmeshInterfaces !! i = Some (Some m)
           /\ SubMesh_GetNE m = 0%nat.
Proof.
  intros interfaces.
  apply (empty_interface_mesh 3 interfaces [0; -1]%Z [1; 5]%Z 2).
  - lia.
  - repeat constructor; vm_compute; intuition discriminate.
  - repeat split. intros i iloc Hi Hpos.
    destruct i as [|[|i]]; simpl in Hi;
      [|injection Hi as <-; lia|discriminate].
    injection Hi as <-. eexists _, _. split; reflexivity.
  - intros i Hi iloc Hm Hpos.
    destruct i as [|[|i]]; simpl in Hm;
      [|injection Hm as <-; lia|discriminate].
    injection Hm as <-. eexists _, _. repeat split.
Defined.

(** What the run of the witness hands to the generator and stores. *)
Example CreateInterfaceMeshes_example :
  CreateInterfaceMeshes 3
    [ {| sd0 := 0; sd1 := 1; globalIndex_field := Some 1%Z;
         faces := [3%nat]; vertices := [] |} ]
    [0; -1]%Z [1; 5]%Z 2
  = Ret ([ Some {| entities := [3%nat] |}; Some {| entities := [] |} ],
         [ {| sd0 := 0; sd1 := 1; globalIndex_field := Some 1%Z;
              faces := [3%nat]; vertices := [] |};
           {| sd0 := 1; sd1 := 2; globalIndex_field := Some 5%Z;
              faces := []; vertices := [] |} ]).
Proof. vm_compute. reflexivity. Qed.

Lemma interface_body_no_exit n interfaces map GI i st c :
  interface_body n interfaces map GI i st <> Exit c.
Proof.
  unfold interface_body, interfaceMeshAt, emptyInterface, int_div,
    array_get, array_set, GetGlobalIndex, MFEM_VERIFY,
    CreateParallelInterfaceMesh.
  destruct (map !! i) as [iloc|]; simpl; [|discriminate].
  destruct (iloc >=? 0)%Z.
  - destruct (GI !! i) as [gi|]; simpl; [|discriminate].
    destruct (interfaces !! Z.to_nat iloc) as [ifc|]; simpl; [|discriminate].
    destruct (globalIndex_field ifc) as [g|]; simpl; [|discriminate].
    destruct (gi =? g)%Z; simpl; [|discriminate].
    destruct (_ <? _)%nat; discriminate.
  - destruct (GI !! i) as [gi|]; simpl; [|discriminate].
    destruct (CInt.div gi n); simpl; [|discriminate].
    destruct (_ <? _)%nat; discriminate.
Qed.

(** ** The subdomain meshes *)

Lemma elem_of_concat {A : Type} (x : A) (ls : list (list A)) :
  x ∈ concat ls <-> exists l, x ∈ l /\ l ∈ ls.
Proof.
  induction ls as [|l ls IH]; cbn [concat].
  - split; [intros H; apply elem_of_nil in H; contradiction|].
    intros (l & _ & H). apply elem_of_nil in H. contradiction.
  - rewrite elem_of_app, IH. split.
    + intros [H|(l' & H1 & H2)].
      * exists l. split; [exact H|apply list_elem_of_here].
      * exists l'. split; [exact H1|apply list_elem_of_further, H2].
    + intros (l' & H1 & H2). apply elem_of_cons in H2.
      destruct H2 as [->|H2]; [left; exact H1|right; eauto].
Qed.

(** The number of a vertex that is copied names this vertex. *)
Lemma localVertex_Some vertices v k :
  localVertex vertices v = Some k -> vertices !! k = Some v.
Proof.
  unfold localVertex. intros H.
  destruct (list_find _ vertices) as [[k' u]|] eqn:E; [|discriminate].
  simpl in H. injection H as <-.
  apply list_find_Some in E. destruct E as (Hk & -> & _). exact Hk.
Qed.

Lemma localVertex_is_Some vertices v :
  v ∈ vertices -> is_Some (localVertex vertices v).
Proof.
  intros Hv. unfold localVertex.
  destruct (list_find_elem_of (fun u => u = v) vertices v Hv eq_refl)
    as [[k u] ->].
  eexists. reflexivity.
Qed.

Section SubdomainMeshFacts.
Variable pm : Mesh.
Variable conn : Connectivity.
Hypothesis well_formed : well_formed_pmesh pm conn.

(** The builder finds the connectivity of every element it selects. *)
Lemma subdomain_connectivity s :
  exists conns,
    mapM (fun e => elementVertices conn !! e)
         (subdomainElements pm (Z.of_nat s)) = Some conns
    /\ Forall2 (fun e vs => elementVertices conn !! e = Some vs)
               (subdomainElements pm (Z.of_nat s)) conns
    /\ Forall (Forall (fun v => (v < length (vertexCoordinates conn))%nat))
              conns.
Proof.
  destruct well_formed as [Hlen Hrange].
  destruct (mapM_is_Some_2 (fun e => elementVertices conn !! e)
              (subdomainElements pm (Z.of_nat s))) as [conns Hc].
  { apply Forall_forall. intros e He. apply elem_of_subdomainElements in He.
    apply lookup_lt_is_Some_2. rewrite Hlen.
    apply lookup_lt_Some in He. exact He. }
  exists conns. split; [exact Hc|]. apply mapM_Some_1 in Hc.
  split; [exact Hc|]. apply Forall_forall. intros vs Hvs.
  apply list_elem_of_lookup_1 in Hvs. destruct Hvs as [k Hk].
  destruct (Forall2_lookup_r _ _ _ _ _ Hc Hk) as (e & _ & He).
  rewrite Forall_forall in Hrange. apply Hrange.
  eapply list_elem_of_lookup_2. exact He.
Qed.

(** The mesh of one subdomain is built, and it is the mesh that section
    4.2 asks for. *)
Lemma CreateParallelSubdomainMesh_returns s :
  exists m,
    CreateParallelSubdomainMesh pm conn s = Some m
    /\ parentElements m = subdomainElements pm (Z.of_nat s)
    /\ valid_SubdomainMesh m
    /\ NoDup (parentVertices m)
    /\ (forall k e vs,
          parentElements m !! k = Some e ->
          elementVertices conn !! e = Some vs ->
          exists ls, localElements m !! k = Some ls
                     /\ Forall2 (fun l v => parentVertices m !! l = Some v)
                                ls vs)
    /\ (forall l v, parentVertices m !! l = Some v ->
          exists e vs, e ∈ parentElements m
                       /\ elementVertices conn !! e = Some vs /\ v ∈ vs)
    /\ (forall l v, parentVertices m !! l = Some v ->
          is_Some (vertexCoordinates conn !! v)
          /\ localCoordinates m !! l = vertexCoordinates conn !! v).
Proof.
  unfold CreateParallelSubdomainMesh. cbv zeta.
  destruct (subdomain_connectivity s) as (conns & -> & Hconns & Hrange).
  cbn [mbind option_bind].
  set (verts := remove_dups (concat conns)).
  assert (Hverts : forall v, v ∈ verts <-> exists vs, v ∈ vs /\ vs ∈ conns).
  { intros v. unfold verts. rewrite elem_of_remove_dups.
    apply elem_of_concat. }
  destruct (mapM_is_Some_2 (mapM (localVertex verts)) conns) as [locals Hl].
  { apply Forall_forall. intros vs Hvs. apply mapM_is_Some_2.
    apply Forall_forall. intros v Hv. apply localVertex_is_Some.
    apply Hverts. eauto. }
  rewrite Hl. cbn [mbind option_bind]. apply mapM_Some_1 in Hl.
  destruct (mapM_is_Some_2 (fun v => vertexCoordinates conn !! v) verts)
    as [coords Hc].
  { apply Forall_forall. intros v Hv. apply Hverts in Hv.
    destruct Hv as (vs & Hv & Hvs). apply lookup_lt_is_Some_2.
    rewrite Forall_forall in Hrange. specialize (Hrange vs Hvs).
    rewrite Forall_forall in Hrange. exact (Hrange v Hv). }
  rewrite Hc. cbn [mbind option_bind]. apply mapM_Some_1 in Hc.
  eexists. split; [reflexivity|].
  cbn [parentElements parentVertices localElements localCoordinates].
  pose proof (Forall2_length _ _ _ Hconns) as Hlen1.
  pose proof (Forall2_length _ _ _ Hl) as Hlen2.
  pose proof (Forall2_length _ _ _ Hc) as Hlen3.
  split; [reflexivity|]. split; [|split; [|split; [|split]]].
  - unfold valid_SubdomainMesh, SubdomainMesh_GetNV.
    cbn [parentElements parentVertices localElements localCoordinates].
    split; [lia|]. split; [lia|].
    apply Forall_forall. intros ls Hls.
    apply list_elem_of_lookup_1 in Hls. destruct Hls as [k Hk].
    destruct (Forall2_lookup_r _ _ _ _ _ Hl Hk) as (vs & _ & Hm).
    apply mapM_Some_1 in Hm. apply Forall_forall. intros l Hin.
    apply list_elem_of_lookup_1 in Hin. destruct Hin as [j Hj].
    destruct (Forall2_lookup_r _ _ _ _ _ Hm Hj) as (v & _ & Hv).
    apply localVertex_Some, lookup_lt_Some in Hv. lia.
  - apply NoDup_remove_dups.
  - intros k e vs Hk He.
    destruct (Forall2_lookup_l _ _ _ _ _ Hconns Hk) as (vs' & Hvs' & He').
    assert (vs' = vs) by congruence. subst vs'.
    destruct (Forall2_lookup_l _ _ _ _ _ Hl Hvs') as (ls & Hls & Hm).
    exists ls. split; [exact Hls|]. apply mapM_Some_1 in Hm.
    apply Forall2_flip. eapply Forall2_impl; [exact Hm|].
    intros v l. apply localVertex_Some.
  - intros l v Hlv. apply list_elem_of_lookup_2, Hverts in Hlv.
    destruct Hlv as (vs & Hv & Hvs).
    apply list_elem_of_lookup_1 in Hvs. destruct Hvs as [k Hk].
    destruct (Forall2_lookup_r _ _ _ _ _ Hconns Hk) as (e & He & Hev).
    exists e, vs. split; [eapply list_elem_of_lookup_2; exact He|]. auto.
  - intros l v Hlv.
    destruct (Forall2_lookup_l _ _ _ _ _ Hc Hlv) as (c & Hcl & Hcv).
    rewrite Hcl, Hcv. split; [eexists|]; reflexivity.
Qed.

End SubdomainMeshFacts.

(** A process that owns no element of subdomain 1 still gets its mesh. *)
Example subdomain_meshes_empty_shard :
  CreateParallelSubdomainMeshes 2 {| attributes := [1; 1]%Z |}
    {| elementVertices := [[0; 1; 2]; [2; 1; 3]]%nat;
       vertexCoordinates := [[0; 0]; [1; 0]; [0; 1]; [1; 1]]%float |}
  = Some [ {| parentElements := [0; 1]%nat;
              parentVertices := [0; 2; 1; 3]%nat;
              localElements := [[0; 2; 1]; [1; 2; 3]]%nat;
              localCoordinates := [[0; 0]; [0; 1]; [1; 0]; [1; 1]]%float |};
           {| parentElements := []; parentVertices := [];
              localElements := []; localCoordinates := [] |} ].
Proof. vm_compute. reflexivity. Qed.

(** When an element names a vertex that the mesh does not have, the
    builder has no array to return and the driver leaves with code 2. *)
Example createMeshes_exit_2 :
  createMeshes 2 [] [-1]%Z [1]%Z 1 {| attributes := [1; 2]%Z |}
    {| elementVertices := [[0; 1; 2]; [2; 1; 7]]%nat;
       vertexCoordinates := [[0; 0]; [1; 0]; [0; 1]; [1; 1]]%float |}
  = Exit 2.
Proof. vm_compute. reflexivity. Qed.

Example createMeshes_example :
  createMeshes 2 [] [-1]%Z [1]%Z 1 {| attributes := [1; 1]%Z |}
    {| elementVertices := [[0; 1]; [1; 2]]%nat;
       vertexCoordinates := [[0]; [1]; [2]]%float |}
  = Ret ([ {| parentElements := [0; 1]%nat;
              parentVertices := [0; 1; 2]%nat;
              localElements := [[0; 1]; [1; 2]]%nat;
              localCoordinates := [[0]; [1]; [2]]%float |};
           {| parentElements := []; parentVertices := [];
              localElements := []; localCoordinates := [] |} ],
         [ Some {| entities := [] |} ]).
Proof. vm_compute. reflexivity. Qed.



(** ** The interface operator *)

Section VectorFacts.
Context {K : Type} `{Scalar K}.
Add Ring Kring : scalar_ring.

Ltac pointwise :=
  apply list_eq; intros ?i; unfold lincomb, vadd, vscale;
  repeat (rewrite lookup_zip_with || rewrite list_lookup_fmap);
  repeat match goal with
         | |- context [?l !! ?i] =>
             lazymatch type of l with
             | list K => let o := fresh "x" in destruct (l !! i) as [o|]
             end
         end;
  simpl; try reflexivity; f_equal; ring.

Lemma length_vzero n : length (vzero (K := K) n) = n.
Proof. apply length_replicate. Qed.

Lemma length_lincomb a (x : list K) b y n :
  length x = n -> length y = n -> length (lincomb a x b y) = n.
Proof.
  intros Hx Hy. unfold lincomb, vadd, vscale.
  rewrite length_zip_with, !length_fmap. lia.
Qed.

Lemma length_vadd (x y : list K) n :
  length x = n -> length y = n -> length (vadd x y) = n.
Proof. intros Hx Hy. unfold vadd. rewrite length_zip_with. lia. Qed.

Lemma vadd_lincomb a b (x1 y1 x2 y2 : list K) :
  vadd (lincomb a x1 b y1) (lincomb a x2 b y2)
  = lincomb a (vadd x1 x2) b (vadd y1 y2).
Proof. pointwise. Qed.

Lemma lincomb_lincomb c d a b (u v u' v' : list K) :
  lincomb c (lincomb a u b v) d (lincomb a u' b v')
  = lincomb a (lincomb c u d u') b (lincomb c v d v').
Proof. pointwise. Qed.

Lemma lincomb_vzero a b n :
  lincomb a (vzero n) b (vzero n) = vzero (K := K) n.
Proof.
  apply list_eq. intros i. unfold lincomb, vadd, vscale, vzero.
  rewrite lookup_zip_with, !list_lookup_fmap.
  destruct (decide (i < n)%nat) as [Hi|Hi].
  - rewrite !lookup_replicate_2 by exact Hi. simpl. f_equal. ring.
  - rewrite (proj1 (lookup_replicate_None n rO i)) by lia. reflexivity.
Qed.

Lemma lincomb_rO_rO (x : list K) :
  lincomb rO x rO x = vzero (length x).
Proof.
  induction x as [|v x IH]; [reflexivity|].
  change (lincomb rO (v :: x) rO (v :: x))
    with (radd (rmul rO v) (rmul rO v) :: lincomb rO x rO x).
  rewrite IH. change (vzero (length (v :: x))) with (rO :: vzero (length x)).
  f_equal. ring.
Qed.

Lemma lincomb_take n a b (x y : list K) :
  take n (lincomb a x b y) = lincomb a (take n x) b (take n y).
Proof.
  unfold lincomb, vadd, vscale. rewrite zip_with_take, !fmap_take.
  reflexivity.
Qed.

Lemma lincomb_drop n a b (x y : list K) :
  drop n (lincomb a x b y) = lincomb a (drop n x) b (drop n y).
Proof.
  unfold lincomb, vadd, vscale. rewrite zip_with_drop, !fmap_drop.
  reflexivity.
Qed.

Lemma lincomb_app a b (x1 x2 y1 y2 : list K) :
  length x1 = length y1 ->
  lincomb a (x1 ++ x2) b (y1 ++ y2)
  = lincomb a x1 b y1 ++ lincomb a x2 b y2.
Proof.
  intros Hl. unfold lincomb, vadd, vscale. rewrite !fmap_app.
  apply zip_with_app. rewrite !length_fmap. exact Hl.
Qed.

Lemma vzero_app n m : vzero (K := K) (n + m) = vzero n ++ vzero m.
Proof. apply replicate_add. Qed.

(** A matrix acts linearly. *)
Lemma dot_lincomb a b (r x y : list K) :
  length x = length r -> length y = length r ->
  dot r (lincomb a x b y) = radd (rmul a (dot r x)) (rmul b (dot r y)).
Proof.
  revert x y. induction r as [|c r IH]; intros x y Hx Hy.
  - destruct x, y; try discriminate. unfold dot. simpl. ring.
  - destruct x as [|vx x], y as [|vy y]; try discriminate.
    injection Hx as Hx. injection Hy as Hy.
    change (dot (c :: r) (lincomb a (vx :: x) b (vy :: y)))
      with (radd (rmul c (radd (rmul a vx) (rmul b vy)))
                 (dot r (lincomb a x b y))).
    change (dot (c :: r) (vx :: x)) with (radd (rmul c vx) (dot r x)).
    change (dot (c :: r) (vy :: y)) with (radd (rmul c vy) (dot r y)).
    rewrite (IH x y Hx Hy). ring.
Qed.

Lemma matrixOperator_linear width (rows : list (list K)) :
  Forall (fun r => length r = width) rows ->
  LinearOperator (matrixOperator width rows).
Proof.
  intros Hrows. split; simpl.
  - intros x _. apply length_fmap.
  - intros a b x y Hx Hy. induction Hrows as [|r rows Hr _ IH].
    + reflexivity.
    + simpl. rewrite dot_lincomb by congruence.
      unfold lincomb, vadd, vscale in *. simpl. f_equal. exact IH.
Qed.

End VectorFacts.

Section DDMFacts.
Context {K : Type} `{Scalar K}.
Variable D : DDMData K.
Hypothesis contract : DDMContract D.

(** A linear operator maps the zero vector to the zero vector. *)
Lemma Mult_vzero (A : Operator K) :
  LinearOperator A -> Mult A (vzero (Width A)) = vzero (Height A).
Proof.
  intros [Hlen Hlin].
  rewrite <- (lincomb_vzero rO rO (Width A)).
  rewrite Hlin by apply length_vzero.
  rewrite lincomb_rO_rO, Hlen by apply length_vzero. reflexivity.
Qed.

Lemma offset_S k : offset D (S k) = (offset D k + traceSize D k)%nat.
Proof.
  unfold offset. rewrite seq_S, fmap_app. simpl.
  induction (traceSize D <$> seq 0 k) as [|n l IH]; simpl; lia.
Qed.

Lemma offset_le k n :
  (k < n)%nat -> (offset D k + traceSize D k <= offset D n)%nat.
Proof.
  induction n as [|n IH]; intros Hk; [lia|].
  rewrite offset_S. destruct (Nat.eq_dec k n) as [->|Hne]; [lia|].
  specialize (IH ltac:(lia)). lia.
Qed.

Lemma length_block k (x : list K) :
  length x = ddWidth D -> (k < ddNumInterfaces D)%nat ->
  length (block D k x) = traceSize D k.
Proof.
  intros Hx Hk. unfold block. rewrite length_take, length_drop, Hx.
  pose proof (offset_le k _ Hk). unfold ddWidth. lia.
Qed.

Lemma block_lincomb k a b (x y : list K) :
  block D k (lincomb a x b y) = lincomb a (block D k x) b (block D k y).
Proof. unfold block. rewrite lincomb_drop, lincomb_take. reflexivity. Qed.

Lemma adjacentInterfaces_lt s :
  Forall (fun k => (k < ddNumInterfaces D)%nat) (adjacentInterfaces D s).
Proof.
  apply List.Forall_forall. intros k Hk. unfold adjacentInterfaces in Hk.
  apply filter_In in Hk. destruct Hk as [Hk _]. apply in_seq in Hk. lia.
Qed.

Lemma toBoundaryData_block_length s k (x : list K) :
  length x = ddWidth D -> (k < ddNumInterfaces D)%nat ->
  length (Mult (toBoundaryData D s k) (block D k x)) = sdSize D s.
Proof.
  intros Hx Hk.
  destruct (toBoundaryData_linear D contract s k) as ([Hlen _] & Hw & Hh).
  rewrite Hlen, Hh; [reflexivity|]. rewrite Hw. apply length_block; trivial.
Qed.

Lemma boundaryData_length s (x : list K) :
  length x = ddWidth D -> length (boundaryData D s x) = sdSize D s.
Proof.
  intros Hx. unfold boundaryData, vsum.
  induction (adjacentInterfaces_lt s) as [|k ks Hk _ IH].
  - apply length_vzero.
  - rewrite fmap_cons. cbn [foldr]. apply length_vadd; [|exact IH].
    apply toBoundaryData_block_length; trivial.
Qed.

Lemma boundaryData_lincomb s a b (x y : list K) :
  length x = ddWidth D -> length y = ddWidth D ->
  boundaryData D s (lincomb a x b y)
  = lincomb a (boundaryData D s x) b (boundaryData D s y).
Proof.
  intros Hx Hy. unfold boundaryData, vsum.
  induction (adjacentInterfaces_lt s) as [|k ks Hk _ IH].
  - symmetry. apply lincomb_vzero.
  - rewrite !fmap_cons. cbn [foldr]. rewrite IH, block_lincomb.
    destruct (toBoundaryData_linear D contract s k) as ([_ Hlin] & Hw & _).
    rewrite Hlin by (rewrite Hw; apply length_block; trivial).
    apply vadd_lincomb.
Qed.

Lemma restricted_length g s k :
  length (g s) = sdSize D s ->
  length (Mult (restrictToInterface D s k) (Mult (localSolve D s) (g s)))
  = traceSize D k.
Proof.
  intros Hg.
  destruct (localSolve_linear D contract s) as ([Hl _] & Hw & Hh).
  destruct (restrictToInterface_linear D contract s k)
    as ([Hl' _] & Hw' & Hh').
  rewrite Hl', Hh'; [reflexivity|]. rewrite Hl, Hh, Hw'; [reflexivity|].
  rewrite Hw. exact Hg.
Qed.

Lemma outgoingTrace_length g k :
  (forall s, length (g s) = sdSize D s) ->
  length (outgoingTrace D g k) = traceSize D k.
Proof.
  intros Hg. unfold outgoingTrace.
  apply length_lincomb; apply restricted_length; apply Hg.
Qed.

Lemma restricted_lincomb a b g g' s k :
  length (g s) = sdSize D s -> length (g' s) = sdSize D s ->
  Mult (restrictToInterface D s k)
       (Mult (localSolve D s) (lincomb a (g s) b (g' s)))
  = lincomb a
      (Mult (restrictToInterface D s k) (Mult (localSolve D s) (g s)))
      b
      (Mult (restrictToInterface D s k) (Mult (localSolve D s) (g' s))).
Proof.
  intros Hg Hg'.
  destruct (localSolve_linear D contract s) as ([Hl Hlin] & Hw & Hh).
  destruct (restrictToInterface_linear D contract s k)
    as ([_ Hlin'] & Hw' & _).
  rewrite Hlin by congruence.
  rewrite Hlin'; [reflexivity| |]; rewrite Hl, Hh, Hw'; congruence.
Qed.

Lemma outgoingTrace_lincomb a b g g' k :
  (forall s, length (g s) = sdSize D s) ->
  (forall s, length (g' s) = sdSize D s) ->
  outgoingTrace D (fun s => lincomb a (g s) b (g' s)) k
  = lincomb a (outgoingTrace D g k) b (outgoingTrace D g' k).
Proof.
  intros Hg Hg'. unfold outgoingTrace. cbv zeta.
  rewrite !(restricted_lincomb a b g g') by auto.
  apply lincomb_lincomb.
Qed.

Lemma interfacePass_outgoing g :
  interfacePass D g = concat (outgoingTrace D g <$> seq 0 (ddNumInterfaces D)).
Proof. reflexivity. Qed.

Lemma interfacePass_length g :
  (forall s, length (g s) = sdSize D s) ->
  length (interfacePass D g) = ddWidth D.
Proof.
  intros Hg. rewrite interfacePass_outgoing. unfold ddWidth, offset.
  induction (seq 0 (ddNumInterfaces D)) as [|k ks IH]; [reflexivity|].
  rewrite !fmap_cons. cbn [concat sum_list sum_list_with].
  rewrite length_app, IH, outgoingTrace_length by exact Hg. reflexivity.
Qed.

Lemma interfacePass_lincomb a b g g' :
  (forall s, length (g s) = sdSize D s) ->
  (forall s, length (g' s) = sdSize D s) ->
  interfacePass D (fun s => lincomb a (g s) b (g' s))
  = lincomb a (interfacePass D g) b (interfacePass D g').
Proof.
  intros Hg Hg'. rewrite !interfacePass_outgoing.
  induction (seq 0 (ddNumInterfaces D)) as [|k ks IH]; [reflexivity|].
  rewrite !fmap_cons. cbn [concat].
  rewrite IH, outgoingTrace_lincomb by auto.
  symmetry. apply lincomb_app.
  rewrite !outgoingTrace_length by auto. reflexivity.
Qed.

Lemma interfacePass_ext g g' :
  (forall s, g s = g' s) -> interfacePass D g = interfacePass D g'.
Proof.
  intros Hext. unfold interfacePass. f_equal.
  apply list_fmap_ext. intros _ k _. unfold outgoingTrace. cbv zeta.
  rewrite !Hext. reflexivity.
Qed.

Lemma interfacePass_vzero :
  interfacePass D (fun s => vzero (sdSize D s)) = vzero (ddWidth D).
Proof.
  rewrite (interfacePass_ext _
             (fun s => lincomb rO (vzero (sdSize D s)) rO
                         (vzero (sdSize D s))))
    by (intros s; symmetry; apply lincomb_vzero).
  rewrite interfacePass_lincomb by (intros s; apply length_vzero).
  rewrite lincomb_rO_rO, interfacePass_length
    by (intros s; apply length_vzero).
  reflexivity.
Qed.

Lemma Apply_length (x : list K) :
  length x = ddWidth D -> length (Apply D x) = ddWidth D.
Proof.
  intros Hx. apply interfacePass_length. intros s.
  apply boundaryData_length, Hx.
Qed.

Lemma Apply_lincomb a b (x y : list K) :
  length x = ddWidth D -> length y = ddWidth D ->
  Apply D (lincomb a x b y) = lincomb a (Apply D x) b (Apply D y).
Proof.
  intros Hx Hy. unfold Apply.
  rewrite (interfacePass_ext _
             (fun s => lincomb a (boundaryData D s x) b (boundaryData D s y)))
    by (intros s; apply boundaryData_lincomb; trivial).
  apply interfacePass_lincomb; intros s; apply boundaryData_length; trivial.
Qed.

Lemma Apply_vzero : Apply D (vzero (ddWidth D)) = vzero (ddWidth D).
Proof.
  rewrite <- (lincomb_vzero rO rO (ddWidth D)) at 1.
  rewrite Apply_lincomb by apply length_vzero.
  rewrite lincomb_rO_rO, Apply_length by apply length_vzero. reflexivity.
Qed.

Lemma GetReducedSource_vzero :
  GetReducedSource D (vzero (globalSize D)) (vzero (globalSize D))
  = vzero (ddWidth D).
Proof.
  unfold GetReducedSource. rewrite <- vzero_app.
  rewrite (interfacePass_ext _ (fun s => vzero (sdSize D s)));
    [apply interfacePass_vzero|].
  intros s.
  destruct (sourceOfSubdomain_linear D contract s) as (Hlin & Hw & Hh).
  rewrite <- Hw, <- Hh. apply Mult_vzero, Hlin.
Qed.

End DDMFacts.

Example Apply_example : Apply exampleDDM [1; 2]%Z = [0; -8]%Z.
Proof. vm_compute. reflexivity. Qed.

Example GetReducedSource_example :
  GetReducedSource exampleDDM [1; 2; 3; 4]%Z [0; 0; 0; 0]%Z = [0; -5]%Z.
Proof. vm_compute. reflexivity. Qed.

Lemma exampleDDM_contract : DDMContract exampleDDM.
Proof.
  split; intros; (split; [|split; reflexivity]);
    apply matrixOperator_linear; repeat constructor.
Qed.

(** C4.  The application of the interface operator is linear: for all
    trace vectors [x], [y] of the operator's width and all scalars [a],
    [b], Apply(a*x + b*y) is a*Apply(x) + b*Apply(y). *)
Theorem interface_operator_linear {K : Type} `{Scalar K} (D : DDMData K) :
  DDMContract D ->
  forall (a b : K) (x y : list K),
    length x = Width (DDMInterfaceOperator D) ->
    length y = Width (DDMInterfaceOperator D) ->
    Mult (DDMInterfaceOperator D) (lincomb a x b y)
    = lincomb a (Mult (DDMInterfaceOperator D) x)
              b (Mult (DDMInterfaceOperator D) y).
Proof.
  intros HD a b x y Hx Hy. simpl in *. apply Apply_lincomb; trivial.
Qed.

Lemma interface_operator_linear_witness :
  Mult (DDMInterfaceOperator exampleDDM) (lincomb 2 [1; 2] 3 [0; 5])%Z
  = lincomb 2%Z (Mult (DDMInterfaceOperator exampleDDM) [1; 2]%Z)
            3%Z (Mult (DDMInterfaceOperator exampleDDM) [0; 5]%Z).
Proof.
  refine (interface_operator_linear exampleDDM _ 2%Z 3%Z [1; 2]%Z [0; 5]%Z
            eq_refl eq_refl).
  apply exampleDDM_contract.
Defined.

(** C3.  The interface operator and the reduction map preserve zero: Apply
    of the all-zero trace vector is the all-zero vector, and
    GetReducedSource of an all-zero global right-hand side is the all-zero
    vector of the size of the interface trace space. *)
Theorem zero_preservation {K : Type} `{Scalar K} (D : DDMData K) :
  DDMContract D ->
  Mult (DDMInterfaceOperator D) (vzero (Width (DDMInterfaceOperator D)))
  = vzero (Height (DDMInterfaceOperator D))
  /\ GetReducedSource D (vzero (globalSize D)) (vzero (globalSize D))
     = vzero (Width (DDMInterfaceOperator D))
  /\ length (GetReducedSource D (vzero (globalSize D))
                              (vzero (globalSize D)))
     = Width (DDMInterfaceOperator D).
Proof.
  intros HD. simpl. split; [apply Apply_vzero, HD|].
  rewrite (GetReducedSource_vzero D HD). split; [reflexivity|].
  apply length_vzero.
Qed.

Lemma zero_preservation_witness :
  Mult (DDMInterfaceOperator exampleDDM) [0; 0]%Z = [0; 0]%Z
  /\ GetReducedSource exampleDDM [0; 0; 0; 0]%Z [0; 0; 0; 0]%Z = [0; 0]%Z
  /\ length (GetReducedSource exampleDDM [0; 0; 0; 0]%Z [0; 0; 0; 0]%Z)
     = 2%nat.
Proof.
  refine (zero_preservation exampleDDM _).
  apply exampleDDM_contract.
Defined.

(** ** The solve-and-recover block *)

(** Whatever the solver reports, its vector goes to
    [RecoverDomainSolution]. *)
Lemma solveDD_recovers {K : Type} `{Scalar K} (D : DDMData K)
    (GMRES_Mult :
       Operator K -> KrylovSettings -> list K -> list K -> KrylovOutcome K)
    (RecoverDomainSolution : list K -> list K -> list K -> list K)
    (B X : list K) :
  exists out calls,
    out = GMRES_Mult (DDMInterfaceOperator D) gmresSettings
            (GetReducedSource D B (vzero (length B)))
            (vzero (Width (DDMInterfaceOperator D)))
    /\ solveDD D GMRES_Mult RecoverDomainSolution B X
       = Ret (RecoverDomainSolution (solution out) X (vzero (length X)),
              calls)
    /\ last calls
       = Some (CallRecoverDomainSolution (solution out) X
                 (vzero (length X))).
Proof. eexists _, _. repeat split. Qed.

(** C7.  When the GMRES iteration does not converge the run does not stop:
    whatever vector the solver left in [xdd] is passed to
    [RecoverDomainSolution], and its result is the new [X]. *)
Theorem nonconvergence_not_fatal {K : Type} `{Scalar K} (D : DDMData K)
    (GMRES_Mult :
       Operator K -> KrylovSettings -> list K -> list K -> KrylovOutcome K)
    (RecoverDomainSolution : list K -> list K -> list K -> list K)
    (B X : list K) :
  let Bdd := GetReducedSource D B (vzero (length B)) in
  let out := GMRES_Mult (DDMInterfaceOperator D) gmresSettings Bdd
               (vzero (Width (DDMInterfaceOperator D))) in
  converged out = false ->
  exists X' calls,
    solveDD D GMRES_Mult RecoverDomainSolution B X = Ret (X', calls)
    /\ X' = RecoverDomainSolution (solution out) X (vzero (length X))
    /\ last calls
       = Some (CallRecoverDomainSolution (solution out) X (vzero (length X))).
Proof.
  intros Bdd out _.
  destruct (solveDD_recovers D GMRES_Mult RecoverDomainSolution B X)
    as (out' & calls & -> & Hrun & Hlast).
  exists (RecoverDomainSolution (solution out) X (vzero (length X))), calls.
  split; [exact Hrun|]. split; [reflexivity|exact Hlast].
Qed.

Lemma nonconvergence_not_fatal_witness :
  exists X' calls,
    solveDD exampleDDM stalledSolver (fun xdd Xfem X => xdd ++ Xfem)
            [1; 2; 3; 4]%Z [5; 6; 7; 8]%Z = Ret (X', calls)
    /\ X' = [0; 0; 5; 6; 7; 8]%Z
    /\ last calls
       = Some (CallRecoverDomainSolution [0; 0] [5; 6; 7; 8]
                 [0; 0; 0; 0])%Z.
Proof.
  refine (nonconvergence_not_fatal exampleDDM stalledSolver
            (fun xdd Xfem X => xdd ++ Xfem) [1; 2; 3; 4]%Z [5; 6; 7; 8]%Z _).
  reflexivity.
Defined.
(** ** Element marking: attributes, neighbours and assembly flags *)

Lemma classify_cases vals :
  (classify vals = 0 \/ classify vals = 1 \/ classify vals = 2)%Z.
Proof.
  unfold classify. destruct (_ =? _)%Z; [|destruct (_ >? _)%Z]; auto.
Qed.

Lemma markedAttribute_trimmed trimin m :
  (m = 0 \/ m = 1 \/ m = 2)%Z ->
  markedAttribute trimin m = if trimmed trimin m then 2%Z else 1%Z.
Proof.
  intros [->|[->| ->]]; destruct trimin; reflexivity.
Qed.

Section MarkingState.
Variable GetValues : nat -> list float.
Variable trimin : bool.
Variable GetNSharedFaces : nat.
Variable GetFaceNbrValues : nat -> list float.
Variable pm : Mesh.

Local Abbreviation size := (GetNE pm + GetNSharedFaces)%nat.

Lemma mark_local_state i st :
  (i < length (elem_marker st))%nat ->
  (i < GetNE (pmesh st))%nat ->
  elem_marker st !! i = Some 0%Z ->
  exists st',
    mark_local GetValues trimin i st = Ret st'
    /\ elem_marker st' = <[i := classify (GetValues i)]> (elem_marker st)
    /\ attributes (pmesh st')
       = <[i := markedAttribute trimin (classify (GetValues i))]>
           (attributes (pmesh st)).
Proof.
  intros Hi Hne H0. unfold mark_local, classify, array_set, markedAttribute.
  destruct (Nat.ltb_spec i (length (elem_marker st))) as [_|]; [|lia].
  destruct (_ =? _)%Z; [|destruct (_ >? _)%Z]; simpl;
    eexists; (split; [reflexivity|]); simpl; split; trivial;
    rewrite ?list_insert_insert_eq; trivial.
  symmetry. apply list_insert_id. exact H0.
Qed.

Lemma mark_neighbor_state i st :
  (GetNE (pmesh st) <= i < length (elem_marker st))%nat ->
  elem_marker st !! i = Some 0%Z ->
  exists st',
    mark_neighbor GetFaceNbrValues i st = Ret st'
    /\ elem_marker st'
       = <[i := classify (GetFaceNbrValues (i - GetNE (pmesh st)))]>
           (elem_marker st)
    /\ pmesh st' = pmesh st.
Proof.
  intros Hi H0. unfold mark_neighbor, classify, array_set.
  destruct (Nat.ltb_spec i (length (elem_marker st))) as [_|]; [|lia].
  destruct (_ =? _)%Z; [|destruct (_ >? _)%Z]; simpl.
  - eexists. repeat split.
  - eexists. repeat split.
  - exists st. repeat split. symmetry. apply list_insert_id. exact H0.
Qed.

(** The state that the two marking loops leave. *)
Lemma markElements_state :
  exists st,
    markElements GetValues trimin GetNSharedFaces GetFaceNbrValues pm = Ret st
    /\ length (elem_marker st) = size
    /\ GetNE (pmesh st) = GetNE pm
    /\ (forall j, (j < GetNE pm)%nat ->
          elem_marker st !! j = Some (classify (GetValues j))
          /\ GetAttribute (pmesh st) j
             = Some (markedAttribute trimin (classify (GetValues j))))
    /\ (forall k, (k < GetNSharedFaces)%nat ->
          elem_marker st !! (GetNE pm + k)%nat
          = Some (classify (GetFaceNbrValues k))).
Proof.
  unfold markElements.
  destruct (for_loop_invariant (fun st => GetNE (pmesh st))
              (mark_local GetValues trimin) (GetNE pm)
              (local_state_inv GetValues trimin GetNSharedFaces pm))
    with (fuel := GetNE pm) (i := 0%nat)
         (s := {| elem_marker := replicate size 0%Z; pmesh := pm |})
    as (st1 & Hrun1 & Hlen1 & Hne1 & Hdone1 & Hrest1).
  - intros i s (_ & H & _). exact H.
  - intros i s Hi (Hlen & Hne & Hdone & Hrest).
    destruct (mark_local_state i s) as (s' & Hr & Hem & Hat); [lia|lia| |].
    { apply Hrest. lia. }
    exists s'. split; [exact Hr|]. unfold local_state_inv, GetNE, GetAttribute.
    rewrite Hem, Hat, !length_insert. unfold GetNE in *.
    repeat split; trivial.
    + destruct (Nat.eq_dec j i) as [->|Hne'].
      * apply list_lookup_insert_eq. lia.
      * rewrite list_lookup_insert_ne by congruence. apply Hdone. lia.
    + destruct (Nat.eq_dec j i) as [->|Hne'].
      * apply list_lookup_insert_eq. lia.
      * rewrite list_lookup_insert_ne by congruence. apply Hdone. lia.
    + intros j Hj. rewrite list_lookup_insert_ne by lia. apply Hrest. lia.
  - lia.
  - lia.
  - unfold local_state_inv. simpl. rewrite length_replicate.
    repeat split; trivial; try lia.
    intros j Hj. apply lookup_replicate_2. lia.
  - rewrite Hrun1. simpl.
    destruct (for_loop_invariant
                (fun st => (GetNE (pmesh st) + GetNSharedFaces)%nat)
                (mark_neighbor GetFaceNbrValues) size
                (neighbor_state_inv GetValues GetNSharedFaces
                   GetFaceNbrValues pm (pmesh st1)))
      with (fuel := GetNSharedFaces) (i := GetNE pm) (s := st1)
      as (st2 & Hrun2 & Hlen2 & Hpm2 & _ & _ & Hloc2 & Hnbr2 & _).
    + intros i s (_ & -> & H & _). lia.
    + intros i s Hi (Hlen & Hpm & Hne & Hge & Hloc & Hnbr & Hrest).
      destruct (mark_neighbor_state i s) as (s' & Hr & Hem & Hpm').
      { rewrite Hpm. lia. }
      { apply Hrest. lia. }
      exists s'. split; [exact Hr|]. unfold neighbor_state_inv.
      rewrite Hem, Hpm', Hpm, Hne, length_insert.
      repeat split; trivial; try lia;
        intros j Hj; (destruct (Nat.eq_dec j i) as [->|Hne'];
          [try (apply list_lookup_insert_eq; lia); try lia
          |rewrite list_lookup_insert_ne by congruence]);
        first [apply Hloc; lia | apply Hnbr; lia | apply Hrest; lia].
    + lia.
    + lia.
    + unfold neighbor_state_inv. repeat split; trivial; try lia;
        intros j Hj; first [lia | apply Hdone1; lia | apply Hrest1; lia].
    + exists st2. rewrite Hpm2. repeat split; trivial.
      * apply Hloc2. trivial.
      * apply Hdone1. trivial.
      * intros k Hk. rewrite Hnbr2 by lia. do 2 f_equal. f_equal. lia.
Qed.

End MarkingState.

(** X1.  After the two marking loops the attribute of every local element
    is 2 when the element is one that the later loops trim (marker 1, or
    marker 2 when trimming inside) and 1 otherwise, whatever it was
    before. *)
Theorem marked_attributes (GetValues : nat -> list float) (trimin : bool)
    (GetNSharedFaces : nat) (GetFaceNbrValues : nat -> list float)
    (pm : Mesh) :
  exists st,
    markElements GetValues trimin GetNSharedFaces GetFaceNbrValues pm = Ret st
    /\ GetNE (pmesh st) = GetNE pm
    /\ forall i, (i < GetNE pm)%nat ->
         exists m, elem_marker st !! i = Some m
           /\ GetAttribute (pmesh st) i
              = Some (if trimmed trimin m then 2%Z else 1%Z)
           /\ (GetAttribute (pmesh st) i = Some 2%Z
               <-> m = 1%Z \/ (m = 2%Z /\ trimin = true)).
Proof.
  destruct (markElements_state GetValues trimin GetNSharedFaces
              GetFaceNbrValues pm) as (st & Hrun & _ & Hne & Hloc & _).
  exists st. split; [exact Hrun|]. split; [exact Hne|]. intros i Hi.
  destruct (Hloc i Hi) as [Hm Ha]. eexists. split; [exact Hm|].
  rewrite Ha. pose proof (classify_cases (GetValues i)) as Hc.
  rewrite markedAttribute_trimmed by exact Hc. split; [reflexivity|].
  destruct Hc as [-> |[-> | ->]]; destruct trimin; simpl;
    intuition (try discriminate; try lia).
Qed.

(** X2.  The second marking loop classifies the element across every
    shared face like a local one: its marker, stored after those of the
    local elements, is 1 when all its level-set values are [<= 0], 2 when
    some but not all are, 0 otherwise. *)
Theorem neighbor_marker_trichotomy (GetValues : nat -> list float)
    (trimin : bool) (GetNSharedFaces : nat)
    (GetFaceNbrValues : nat -> list float) (pm : Mesh) :
  (forall k, (k < GetNSharedFaces)%nat ->
     (Z.of_nat (length (GetFaceNbrValues k)) <= CInt.INT_MAX)%Z) ->
  exists st,
    markElements GetValues trimin GetNSharedFaces GetFaceNbrValues pm = Ret st
    /\ length (elem_marker st) = (GetNE pm + GetNSharedFaces)%nat
    /\ forall k, (k < GetNSharedFaces)%nat ->
         exists m, elem_marker st !! (GetNE pm + k)%nat = Some m
           /\ (m = 0 \/ m = 1 \/ m = 2)%Z
           /\ (m = 1%Z <-> Forall NonPositive (GetFaceNbrValues k))
           /\ (m = 2%Z <-> Exists NonPositive (GetFaceNbrValues k)
                           /\ ~ Forall NonPositive (GetFaceNbrValues k))
           /\ (m = 0%Z <-> ~ Exists NonPositive (GetFaceNbrValues k)
                           /\ ~ Forall NonPositive (GetFaceNbrValues k)).
Proof.
  intros Hpts.
  destruct (markElements_state GetValues trimin GetNSharedFaces
              GetFaceNbrValues pm) as (st & Hrun & Hlen & _ & _ & Hnbr).
  exists st. split; [exact Hrun|]. split; [exact Hlen|]. intros k Hk.
  exists (classify (GetFaceNbrValues k)). split; [apply Hnbr; exact Hk|].
  destruct (classify_spec (GetFaceNbrValues k) (Hpts k Hk))
    as (H1 & H2 & H0 & Hr).
  tauto.
Qed.

Lemma neighbor_marker_trichotomy_witness :
  let nbr := fun k : nat =>
    nth k [[(-1)%float; 1%float]; [(-3)%float]; [2%float]] [] in
  let pm := {| attributes := [5; 5]%Z |} in
  exists st,
    markElements (fun _ => [1%float]) true 3%nat nbr pm = Ret st
    /\ length (elem_marker st) = (GetNE pm + 3)%nat
    /\ forall k, (k < 3)%nat ->
         exists m, elem_marker st !! (GetNE pm + k)%nat = Some m
           /\ (m = 0 \/ m = 1 \/ m = 2)%Z
           /\ (m = 1%Z <-> Forall NonPositive (nbr k))
           /\ (m = 2%Z <-> Exists NonPositive (nbr k)
                           /\ ~ Forall NonPositive (nbr k))
           /\ (m = 0%Z <-> ~ Exists NonPositive (nbr k)
                           /\ ~ Forall NonPositive (nbr k)).
Proof.
  intros nbr pm.
  refine (neighbor_marker_trichotomy (fun _ => [1%float]) true 3%nat nbr pm _).
  intros k Hk. destruct k as [|[|[|k]]]; [vm_compute; discriminate ..|lia].
Defined.

Example markElements_neighbors :
  elem_marker <$>
    markElements (fun _ => [1%float]) true 3%nat
      (fun k => nth k [[(-1)%float; 1%float]; [(-3)%float]; [2%float]] [])
      {| attributes := [5; 5]%Z |}
  = Ret [0; 0; 2; 1; 0]%Z.
Proof. vm_compute. reflexivity. Qed.

Lemma setTrimAttributes_returns trimin max_elem_attr elem_marker pm :
  (GetNE pm <= length elem_marker)%nat ->
  exists pm',
    setTrimAttributes trimin max_elem_attr elem_marker pm = Ret pm'
    /\ trim_inv trimin max_elem_attr elem_marker pm (GetNE pm) pm'.
Proof.
  intros Hlen. unfold setTrimAttributes.
  apply (for_loop_invariant GetNE (trim_body trimin max_elem_attr elem_marker)
           (GetNE pm) (trim_inv trimin max_elem_attr elem_marker pm)).
  - intros i s (H & _). exact H.
  - intros i s Hi (Hne & Hdone & Hrest). unfold trim_body, array_get.
    destruct (lookup_lt_is_Some_2 elem_marker i ltac:(lia)) as [m Hm].
    rewrite Hm. simpl. destruct (trimmed trimin m) eqn:Ht.
    + eexists. split; [reflexivity|]. unfold trim_inv.
      rewrite GetNE_SetAttribute. split; [exact Hne|]. split.
      * intros j m' Hj Hm'. unfold GetAttribute, SetAttribute. simpl.
        destruct (Nat.eq_dec j i) as [->|Hne'].
        -- rewrite list_lookup_insert_eq by (unfold GetNE in *; lia).
           rewrite Hm in Hm'. injection Hm' as <-. rewrite Ht. reflexivity.
        -- rewrite list_lookup_insert_ne by congruence.
           apply Hdone; [lia|exact Hm'].
      * intros j Hj. unfold GetAttribute, SetAttribute. simpl.
        rewrite list_lookup_insert_ne by lia. apply Hrest. lia.
    + exists s. split; [reflexivity|]. split; [exact Hne|]. split.
      * intros j m' Hj Hm'. destruct (Nat.eq_dec j i) as [->|Hne'].
        -- rewrite Hm in Hm'. injection Hm' as <-. rewrite Ht.
           apply Hrest. lia.
        -- apply Hdone; [lia|exact Hm'].
      * intros j Hj. apply Hrest. lia.
  - lia.
  - lia.
  - split; [reflexivity|]. split; [intros j m Hj; lia|reflexivity].
Qed.

(** X3.  Marking followed by the loop of lines 440-446: an element is
    flagged for assembly in [ess_elem] (flag 1 at its attribute) exactly
    when it is not trimmed; a trimmed element carries the attribute
    [max_elem_attr + 1], whose flag is the appended 0, any other element
    the attribute 1. *)
Theorem assembly_flags (GetValues : nat -> list float) (trimin : bool)
    (GetNSharedFaces : nat) (GetFaceNbrValues : nat -> list float)
    (max_elem_attr : Z) (pm : Mesh) :
  (1 <= max_elem_attr)%Z -> (max_elem_attr < CInt.INT_MAX)%Z ->
  exists em pm',
    markAndTrim GetValues trimin GetNSharedFaces GetFaceNbrValues
                max_elem_attr pm = Ret (em, pm')
    /\ GetNE pm' = GetNE pm
    /\ forall i, (i < GetNE pm)%nat ->
         exists m attr,
           em !! i = Some m
           /\ GetAttribute pm' i = Some attr
           /\ attr = (if trimmed trimin m then max_elem_attr + 1 else 1)%Z
           /\ ess_elem max_elem_attr !! Z.to_nat (attr - 1)
              = Some (if trimmed trimin m then 0%Z else 1%Z).
Proof.
  intros H1 Hmax. unfold markAndTrim.
  destruct (markElements_state GetValues trimin GetNSharedFaces
              GetFaceNbrValues pm) as (st & Hrun & Hlen & Hne & Hloc & _).
  rewrite Hrun. simpl.
  destruct (setTrimAttributes_returns trimin max_elem_attr (elem_marker st)
              (pmesh st) ltac:(lia)) as (pm' & Hrun' & Hne' & Hdone & _).
  rewrite Hrun'. simpl. exists (elem_marker st), pm'.
  split; [reflexivity|]. split; [congruence|]. intros i Hi.
  destruct (Hloc i Hi) as [Hm Ha].
  pose proof (classify_cases (GetValues i)) as Hc.
  rewrite markedAttribute_trimmed in Ha by exact Hc.
  specialize (Hdone i _ ltac:(lia) Hm). rewrite Ha in Hdone.
  assert (Hw : CInt.add max_elem_attr 1 = (max_elem_attr + 1)%Z).
  { apply CIntFacts.wrap_id.
    unfold CInt.in_range, CInt.INT_MIN, CInt.INT_MAX in *. lia. }
  rewrite Hw in Hdone. unfold ess_elem.
  exists (classify (GetValues i)).
  destruct (trimmed trimin (classify (GetValues i))).
  - eexists. split; [exact Hm|]. split; [exact Hdone|].
    split; [reflexivity|].
    replace (Z.to_nat (max_elem_attr + 1 - 1)) with (Z.to_nat max_elem_attr)
      by lia.
    rewrite lookup_app_r by (rewrite length_replicate; lia).
    rewrite length_replicate, Nat.sub_diag. reflexivity.
  - eexists. split; [exact Hm|]. split; [exact Hdone|].
    split; [reflexivity|]. simpl.
    rewrite lookup_app_l by (rewrite length_replicate; lia).
    apply lookup_replicate_2. lia.
Qed.

Lemma assembly_flags_witness :
  let GetValues := fun i =>
    nth i [[(-1)%float; (-2)%float]; [(-1)%float; 1%float];
           [3%float; 1%float]] [] in
  let pm := {| attributes := [5; 5; 5]%Z |} in
  exists em pm',
    markAndTrim GetValues false 0%nat (fun _ => []) 5%Z pm = Ret (em, pm')
    /\ GetNE pm' = GetNE pm
    /\ forall i, (i < GetNE pm)%nat ->
         exists m attr,
           em !! i = Some m
           /\ GetAttribute pm' i = Some attr
           /\ attr = (if trimmed false m then 5 + 1 else 1)%Z
           /\ ess_elem 5 !! Z.to_nat (attr - 1)
              = Some (if trimmed false m then 0%Z else 1%Z).
Proof.
  intros GetValues pm.
  refine (assembly_flags GetValues false 0%nat (fun _ => []) 5%Z pm _ _).
  - lia.
  - vm_compute. reflexivity.
Defined.

Example markAndTrim_example :
  markAndTrim
    (fun i => nth i [[(-1)%float; (-2)%float]; [(-1)%float; 1%float];
                     [3%float; 1%float]] [])
    false 0%nat (fun _ => []) 5%Z {| attributes := [5; 5; 5]%Z |}
  = Ret ([1; 2; 0]%Z, {| attributes := [6; 1; 1]%Z |}).
Proof. vm_compute. reflexivity. Qed.

(** ** Faces of the shifted boundary *)

Lemma concat_filter_blocks (sel : nat -> bool) (f : nat -> list Z)
    (l : list nat) :
  concat ((fun i => if sel i then f i else []) <$> l)
  = concat (f <$> List.filter sel l).
Proof.
  induction l as [|i l IH]; [reflexivity|].
  rewrite fmap_cons. simpl. destruct (sel i); simpl; rewrite IH; reflexivity.
Qed.

Section AppendLoopFacts.
Context {St : Type}.
Variable proj : St -> list Z.
Variable blockOf : nat -> list Z.
Variable body : nat -> St -> result St.
Variable N : nat.

Lemma append_loop s0 :
  (forall i s, (i < N)%nat ->
     exists s', body i s = Ret s' /\ proj s' = proj s ++ blockOf i) ->
  exists s',
    for_loop N (fun _ => N) body 0%nat s0 = Ret s'
    /\ proj s' = proj s0 ++ concat (blockOf <$> seq 0 N).
Proof.
  intros Hbody.
  apply (for_loop_invariant (fun _ => N) body N (append_inv proj blockOf s0)).
  - reflexivity.
  - intros i s Hi HI. destruct (Hbody i s Hi) as (s' & Hr & Hp).
    exists s'. split; [exact Hr|]. unfold append_inv in *.
    rewrite Hp, HI, seq_S, fmap_app, concat_app. simpl.
    rewrite app_nil_r, app_assoc. reflexivity.
  - lia.
  - lia.
  - unfold append_inv. simpl. rewrite app_nil_r. reflexivity.
Qed.

End AppendLoopFacts.

Section ShiftedFacesFacts.
Variable trimin : bool.
Variable elem_marker : list Z.
Variable GetFaceDofs : nat -> list Z.
Variable GetNumFaces : nat.
Variable GetInteriorFaceTransformations : nat -> option (nat * nat).
Variable GetNBE : nat.
Variable GetBdrAttribute : nat -> Z.
Variable GetBdrFaceTransformations : nat -> option nat.
Variable GetBdrFace : nat -> nat.
Variable GetNE_ : nat.
Variable GetNSharedFaces : nat.
Variable GetSharedFaceTransformations : nat -> option nat.
Variable GetSharedFace : nat -> nat.

Lemma check_val_not_2 : (2 =? check_val trimin)%Z = false.
Proof. destruct trimin; reflexivity. Qed.

Lemma interior_face_step i st :
  (forall ne1 ne2, GetInteriorFaceTransformations i = Some (ne1, ne2) ->
     (ne1 < length elem_marker)%nat /\ (ne2 < length elem_marker)%nat) ->
  exists st',
    interior_face_body trimin elem_marker GetFaceDofs
      GetInteriorFaceTransformations i st = Ret st'
    /\ sbm_dofs st'
       = sbm_dofs st
         ++ (if interiorSBMFace trimin elem_marker
                  GetInteriorFaceTransformations i
             then GetFaceDofs i else []).
Proof.
  intros Hr. unfold interior_face_body, interiorSBMFace, markerIs, array_get.
  destruct (GetInteriorFaceTransformations i) as [[ne1 ne2]|].
  - destruct (Hr ne1 ne2 eq_refl) as [H1 H2].
    destruct (lookup_lt_is_Some_2 elem_marker ne1 H1) as [t1 ->].
    destruct (lookup_lt_is_Some_2 elem_marker ne2 H2) as [t2 ->].
    cbn -[Z.eqb check_val].
    destruct (Z.eqb_spec t1 2) as [->|]; cbn -[Z.eqb check_val].
    + rewrite check_val_not_2. cbn -[Z.eqb check_val].
      destruct (t2 =? check_val trimin)%Z; simpl;
        eexists; (split; [reflexivity|]); simpl;
        rewrite ?app_nil_r; reflexivity.
    + destruct (t1 =? check_val trimin)%Z, (t2 =? 2)%Z; simpl;
        eexists; (split; [reflexivity|]); simpl;
        rewrite ?app_nil_r; reflexivity.
  - exists st. split; [reflexivity|]. rewrite app_nil_r. reflexivity.
Qed.

Lemma bdr_face_step i st :
  (forall ne1, GetBdrFaceTransformations i = Some ne1 ->
     (ne1 < length elem_marker)%nat) ->
  exists st',
    bdr_face_body trimin elem_marker GetFaceDofs GetBdrAttribute
      GetBdrFaceTransformations GetBdrFace i st = Ret st'
    /\ sbm_dofs st'
       = sbm_dofs st
         ++ (if bdrSBMFace trimin elem_marker GetBdrAttribute
                  GetBdrFaceTransformations i
             then GetFaceDofs (GetBdrFace i) else []).
Proof.
  intros Hr. unfold bdr_face_body, bdrSBMFace, markerIs, array_get.
  destruct (GetBdrFaceTransformations i) as [ne1|].
  - destruct (lookup_lt_is_Some_2 elem_marker ne1 (Hr ne1 eq_refl))
      as [t1 ->].
    simpl.
    destruct (GetBdrAttribute i =? 100)%Z;
      [destruct (t1 =? 0)%Z|destruct (negb trimin), (t1 =? 1)%Z]; simpl;
      eexists; (split; [reflexivity|]); simpl;
      rewrite ?app_nil_r; reflexivity.
  - exists st. split; [reflexivity|]. rewrite app_nil_r. reflexivity.
Qed.

Lemma shared_face_step i st :
  (forall ne1, GetSharedFaceTransformations i = Some ne1 ->
     (ne1 < length elem_marker)%nat
     /\ (i + GetNE_ < length elem_marker)%nat) ->
  exists st',
    shared_face_body trimin elem_marker GetFaceDofs GetNE_
      GetSharedFaceTransformations GetSharedFace i st = Ret st'
    /\ sbm_dofs st'
       = sbm_dofs st
         ++ (if sharedSBMFace trimin elem_marker GetNE_
                  GetSharedFaceTransformations i
             then GetFaceDofs (GetSharedFace i) else []).
Proof.
  intros Hr. unfold shared_face_body, sharedSBMFace, markerIs, array_get.
  destruct (GetSharedFaceTransformations i) as [ne1|].
  - destruct (Hr ne1 eq_refl) as [H1 H2].
    destruct (lookup_lt_is_Some_2 elem_marker ne1 H1) as [t1 ->].
    destruct (lookup_lt_is_Some_2 elem_marker _ H2) as [t2 ->].
    simpl.
    destruct (t2 =? 2)%Z, (t1 =? check_val trimin)%Z; simpl;
      eexists; (split; [reflexivity|]); simpl;
      rewrite ?app_nil_r; reflexivity.
  - exists st. split; [reflexivity|]. rewrite app_nil_r. reflexivity.
Qed.

End ShiftedFacesFacts.



Example collectSBMDofs_example :
  sbm_dofs <$>
    collectSBMDofs false [2; 1; 0; 2]%Z
      (fun i : nat => [Z.of_nat i; (Z.of_nat i + 10)%Z]) 4
      (fun i : nat => nth i [Some (0, 1); Some (1, 2); None; None]%nat None)
      2 (fun i : nat => nth i [100; 1]%Z 0%Z)
      (fun i : nat => nth i [Some 2; Some 1]%nat None)
      (fun i : nat => (i + 2)%nat) 3 1
      (fun i : nat => nth i [Some 1%nat] None) (fun i : nat => (i + 3)%nat)
  = Ret [0; 10; 2; 12; 3; 13; 3; 13]%Z.
Proof. vm_compute. reflexivity. Qed.

(** X5.  A face shared by two processes, between an element with marker
    [a] on the first process and one with marker [b] on the second, when
    each process holds the other's marker in the slot of its shared face:
    the two processes never both take the face, and one of them takes it
    exactly when the rule of the interior faces would take a face between
    elements marked [a] and [b]. *)
Theorem shared_face_one_side (trimin : bool) (emA emB : list Z)
    (neA neB iA iB : nat) (trA trB : nat -> option nat)
    (eA eB : nat) (a b : Z) :
  trA iA = Some eA -> emA !! eA = Some a ->
  emA !! (iA + neA)%nat = Some b ->
  trB iB = Some eB -> emB !! eB = Some b ->
  emB !! (iB + neB)%nat = Some a ->
  let takenA := sharedSBMFace trimin emA neA trA iA in
  let takenB := sharedSBMFace trimin emB neB trB iB in
  takenA && takenB = false
  /\ takenA || takenB
     = interiorSBMFace trimin [a; b] (fun _ => Some (0, 1)%nat) 0.
Proof.
  intros HtA HaA HbA HtB HbB HaB. cbv zeta.
  unfold sharedSBMFace, interiorSBMFace, markerIs.
  rewrite HtA, HtB, HaA, HbA, HbB, HaB. unfold check_val.
  destruct trimin; cbn -[Z.eqb].
  - destruct (Z.eqb_spec a 2), (Z.eqb_spec b 2), (Z.eqb_spec a 0),
             (Z.eqb_spec b 0); simpl; try (split; reflexivity); lia.
  - destruct (Z.eqb_spec a 2), (Z.eqb_spec b 2), (Z.eqb_spec a 1),
             (Z.eqb_spec b 1); simpl; try (split; reflexivity); lia.
Qed.

Lemma shared_face_one_side_witness :
  let takenA :=
    sharedSBMFace false [1; 0; 2]%Z 2 (fun _ => Some 0%nat) 0 in
  let takenB :=
    sharedSBMFace false [0; 2; 0; 1]%Z 3 (fun _ => Some 1%nat) 0 in
  takenA && takenB = false
  /\ takenA || takenB
     = interiorSBMFace false [1; 2]%Z (fun _ => Some (0, 1)%nat) 0.
Proof.
  refine (shared_face_one_side false [1; 0; 2]%Z [0; 2; 0; 1]%Z 2 3 0 0
            (fun _ => Some 0%nat) (fun _ => Some 1%nat) 0 1 1%Z 2%Z
            eq_refl eq_refl eq_refl eq_refl eq_refl eq_refl).
Defined.

(** ** Essential dofs *)

Lemma array_setZ_in_range {A : Type} (a : list A) (d : Z) (x : A) :
  (0 <= d < Z.of_nat (length a))%Z ->
  array_setZ a d x = Ret (<[Z.to_nat d := x]> a).
Proof.
  intros Hd. unfold array_setZ, array_set.
  destruct (Z.ltb_spec d 0); [lia|].
  destruct (Nat.ltb_spec (Z.to_nat d) (length a)); [reflexivity|lia].
Qed.

Lemma array_getZ_in_range {A : Type} (a : list A) (d : Z) :
  (0 <= d < Z.of_nat (length a))%Z ->
  exists x, array_getZ a d = Ret x /\ a !! Z.to_nat d = Some x.
Proof.
  intros Hd. unfold array_getZ, array_get.
  destruct (Z.ltb_spec d 0); [lia|].
  destruct (lookup_lt_is_Some_2 a (Z.to_nat d) ltac:(lia)) as [x Hx].
  exists x. rewrite Hx. auto.
Qed.

Lemma mark_dofs_returns dofs hole :
  Forall (fun d => (0 <= d < Z.of_nat (length hole))%Z) dofs ->
  exists h,
    mark_dofs dofs hole = Ret h
    /\ mark_dofs_inv dofs hole (length dofs) h.
Proof.
  intros Hr. unfold mark_dofs.
  apply (for_loop_invariant (fun _ => length dofs) (mark_dofs_body dofs)
           (length dofs) (mark_dofs_inv dofs hole)).
  - reflexivity.
  - intros i h Hi (Hlen & Hinv). unfold mark_dofs_body, array_get.
    destruct (lookup_lt_is_Some_2 dofs i Hi) as [d Hd]. rewrite Hd. simpl.
    rewrite Forall_lookup in Hr. pose proof (Hr i d Hd) as Hdr.
    rewrite array_setZ_in_range by lia.
    eexists. split; [reflexivity|]. split; [rewrite length_insert; lia|].
    intros j Hj. rewrite (take_S_r _ _ _ Hd).
    destruct (Hinv j Hj) as [Hin Hout].
    destruct (Nat.eq_dec j (Z.to_nat d)) as [->|Hne].
    + split.
      * intros _. apply list_lookup_insert_eq. lia.
      * intros Hn. exfalso. apply Hn. apply elem_of_app. right.
        rewrite Z2Nat.id by lia. apply list_elem_of_singleton. reflexivity.
    + rewrite list_lookup_insert_ne by congruence. split.
      * intros Hj'. apply elem_of_app in Hj'. destruct Hj' as [Hj'|Hj'].
        -- apply Hin, Hj'.
        -- apply list_elem_of_singleton in Hj'. lia.
      * intros Hn. apply Hout. intros Hj'. apply Hn, elem_of_app. auto.
  - lia.
  - lia.
  - split; [reflexivity|]. intros j Hj. rewrite take_0. split.
    + intros Hin. apply elem_of_nil in Hin. contradiction.
    + reflexivity.
Qed.

Section EssentialDofsFacts.
Variable trimin : bool.
Variable elem_marker : list Z.
Variable GetNE_ : nat.
Variable GetElementVDofs : nat -> list Z.
Variable ess_vdofs_bdr : list Z.
Variable sbm_dofs_ : list Z.

Local Abbreviation L := (length ess_vdofs_bdr).
Local Abbreviation inTrimmed :=
  (inTrimmedElement trimin elem_marker GetElementVDofs).

Hypothesis markers_cover : (GetNE_ <= length elem_marker)%nat.
Hypothesis vdofs_in_range : forall e, (e < GetNE_)%nat ->
  Forall (fun d => (0 <= d < Z.of_nat L)%Z) (GetElementVDofs e).
Hypothesis sbm_in_range :
  Forall (fun d => (0 <= d < Z.of_nat L)%Z) sbm_dofs_.

Lemma inTrimmed_S e j :
  inTrimmed (S e) j
  <-> inTrimmed e j
      \/ exists m, elem_marker !! e = Some m /\ trimmed trimin m = true
                   /\ Z.of_nat j ∈ GetElementVDofs e.
Proof.
  unfold inTrimmedElement. split.
  - intros (e' & m & Hlt & Hm & Ht & Hin).
    destruct (Nat.eq_dec e' e) as [->|Hne].
    + right. eauto.
    + left. exists e', m. repeat split; trivial. lia.
  - intros [(e' & m & Hlt & H)|(m & H)].
    + exists e', m. split; [lia|exact H].
    + exists e, m. split; [lia|exact H].
Qed.

Lemma hole_loop :
  exists h,
    for_loop GetNE_ (fun _ => GetNE_)
             (hole_body trimin elem_marker GetElementVDofs) 0%nat
             (replicate L 0%Z) = Ret h
    /\ hole_inv trimin elem_marker GetElementVDofs L GetNE_ h.
Proof.
  apply (for_loop_invariant (fun _ => GetNE_)
           (hole_body trimin elem_marker GetElementVDofs) GetNE_
           (hole_inv trimin elem_marker GetElementVDofs L)).
  - reflexivity.
  - intros e h He (Hlen & Hinv). unfold hole_body, array_get.
    destruct (lookup_lt_is_Some_2 elem_marker e ltac:(lia)) as [m Hm].
    rewrite Hm. simpl.
    destruct (trimmed trimin m) eqn:Ht.
    + destruct (mark_dofs_returns (GetElementVDofs e) h)
        as (h' & Hrun & Hlen' & Hdofs).
      { rewrite Hlen. apply vdofs_in_range, He. }
      exists h'. split; [exact Hrun|]. split; [lia|].
      intros j Hj. rewrite firstn_all in Hdofs.
      destruct (Hdofs j ltac:(lia)) as [Hin Hout].
      destruct (Hinv j Hj) as (v & Hv & Hcases & Hiff).
      destruct (decide (Z.of_nat j ∈ GetElementVDofs e))
        as [Hd|Hd].
      * exists (-1)%Z. split; [apply Hin, Hd|]. split; [auto|].
        split; [|reflexivity]. intros _. apply inTrimmed_S. right. eauto.
      * exists v. split; [rewrite Hout by exact Hd; exact Hv|].
        split; [exact Hcases|]. rewrite Hiff, inTrimmed_S. split; [auto|].
        intros [H|(m' & _ & _ & H)]; [exact H|contradiction].
    + exists h. split; [reflexivity|]. split; [exact Hlen|].
      intros j Hj. destruct (Hinv j Hj) as (v & Hv & Hcases & Hiff).
      exists v. split; [exact Hv|]. split; [exact Hcases|].
      rewrite Hiff, inTrimmed_S. split; [auto|].
      intros [H|(m' & Hm' & Ht' & _)]; [exact H|congruence].
  - lia.
  - lia.
  - split; [apply length_replicate|]. intros j Hj. exists 0%Z.
    split; [apply lookup_replicate_2, Hj|]. split; [auto|].
    split; [lia|]. intros (e' & _ & Hlt & _). lia.
Qed.

Lemma combine_loop hole :
  length hole = L ->
  exists h,
    for_loop (length hole) (fun h => length h)
             (combine_body ess_vdofs_bdr) 0%nat hole = Ret h
    /\ combine_inv ess_vdofs_bdr hole (length hole) h.
Proof.
  intros Hlen.
  apply (for_loop_invariant (fun h => length h)
           (combine_body ess_vdofs_bdr) (length hole)
           (combine_inv ess_vdofs_bdr hole)).
  - intros i h (H & _). exact H.
  - intros i h Hi (Hl & Hdone & Hrest). unfold combine_body, array_get.
    destruct (lookup_lt_is_Some_2 ess_vdofs_bdr i ltac:(lia)) as [b Hb].
    rewrite Hb. simpl. destruct (b =? -1)%Z eqn:Hbe.
    + unfold array_set. destruct (Nat.ltb_spec i (length h)); [|lia].
      eexists. split; [reflexivity|].
      split; [rewrite length_insert; exact Hl|]. split.
      * intros j b' Hj Hb'. destruct (Nat.eq_dec j i) as [->|Hne].
        -- rewrite list_lookup_insert_eq by lia.
           assert (b' = b) by congruence. subst b'. rewrite Hbe. reflexivity.
        -- rewrite list_lookup_insert_ne by congruence.
           apply Hdone; [lia|exact Hb'].
      * intros j Hj. rewrite list_lookup_insert_ne by lia. apply Hrest. lia.
    + exists h. split; [reflexivity|]. split; [exact Hl|]. split.
      * intros j b' Hj Hb'. destruct (Nat.eq_dec j i) as [->|Hne].
        -- assert (b' = b) by congruence. subst b'. rewrite Hbe.
           apply Hrest. lia.
        -- apply Hdone; [lia|exact Hb'].
      * intros j Hj. apply Hrest. lia.
  - lia.
  - lia.
  - split; [reflexivity|]. split; [intros; lia|reflexivity].
Qed.

Lemma unmark_loop hole :
  length hole = L ->
  exists h,
    for_loop (length sbm_dofs_) (fun _ => length sbm_dofs_)
             (unmark_body ess_vdofs_bdr sbm_dofs_) 0%nat hole = Ret h
    /\ unmark_inv ess_vdofs_bdr sbm_dofs_ hole (length sbm_dofs_) h.
Proof.
  intros Hlen.
  apply (for_loop_invariant (fun _ => length sbm_dofs_)
           (unmark_body ess_vdofs_bdr sbm_dofs_) (length sbm_dofs_)
           (unmark_inv ess_vdofs_bdr sbm_dofs_ hole)).
  - reflexivity.
  - intros i h Hi (Hl & Hinv). unfold unmark_body, array_get.
    destruct (lookup_lt_is_Some_2 sbm_dofs_ i Hi) as [d Hd]. rewrite Hd.
    simpl. pose proof sbm_in_range as Hr. rewrite Forall_lookup in Hr.
    pose proof (Hr i d Hd) as Hdr.
    destruct (array_getZ_in_range ess_vdofs_bdr d Hdr) as (b & -> & Hb).
    simpl. unfold unmark_inv. rewrite (take_S_r _ _ _ Hd).
    destruct (Z.eqb_spec b (-1)) as [Hbe|Hbe]; simpl.
    + exists h. split; [reflexivity|]. split; [exact Hl|].
      intros j b' Hj Hb'. destruct (Hinv j b' Hj Hb') as [Hin Hout].
      split.
      * intros Hj' Hne. apply Hin; [|exact Hne].
        apply elem_of_app in Hj'. destruct Hj' as [Hj'|Hj']; [exact Hj'|].
        apply list_elem_of_singleton in Hj'. subst d.
        rewrite Nat2Z.id in Hb. congruence.
      * intros [Hn|Hn]; apply Hout; [left|right; exact Hn].
        intros Hj'. apply Hn, elem_of_app. auto.
    + rewrite array_setZ_in_range by lia.
      eexists. split; [reflexivity|].
      split; [rewrite length_insert; exact Hl|].
      intros j b' Hj Hb'. destruct (Hinv j b' Hj Hb') as [Hin Hout].
      destruct (Nat.eq_dec j (Z.to_nat d)) as [->|Hne].
      * assert (b' = b) by congruence. subst b'. split.
        -- intros _ _. apply list_lookup_insert_eq. lia.
        -- intros [Hn|Hn]; [|contradiction]. exfalso. apply Hn.
           apply elem_of_app. right. rewrite Z2Nat.id by lia.
           apply list_elem_of_singleton. reflexivity.
      * rewrite list_lookup_insert_ne by congruence. split.
        -- intros Hj' Hb1. apply Hin; [|exact Hb1].
           apply elem_of_app in Hj'. destruct Hj' as [Hj'|Hj']; [exact Hj'|].
           apply list_elem_of_singleton in Hj'. lia.
        -- intros [Hn|Hn]; apply Hout; [left|right; exact Hn].
           intros Hj'. apply Hn, elem_of_app. auto.
  - lia.
  - lia.
  - split; [reflexivity|]. intros j b Hj Hb. rewrite take_0. split.
    + intros Hin. apply elem_of_nil in Hin. contradiction.
    + reflexivity.
Qed.

Lemma essentialVDofs_returns :
  exists hole,
    essentialVDofs trimin elem_marker GetNE_ GetElementVDofs
                   ess_vdofs_bdr sbm_dofs_ = Ret hole
    /\ length hole = L
    /\ forall j b, ess_vdofs_bdr !! j = Some b ->
         exists v, hole !! j = Some v
           /\ (v = -1 \/ v = 0)%Z
           /\ (v = (-1)%Z
               <-> b = (-1)%Z
                   \/ (inTrimmed GetNE_ j /\ Z.of_nat j ∉ sbm_dofs_)).
Proof.
  unfold essentialVDofs.
  destruct hole_loop as (h1 & -> & Hl1 & H1). cbn [mbind result_bind].
  destruct (combine_loop h1 Hl1) as (h2 & -> & Hl2 & Hdone2 & _).
  cbn [mbind result_bind].
  destruct (unmark_loop h2 ltac:(lia)) as (h3 & -> & Hl3 & H3).
  exists h3. split; [reflexivity|]. split; [lia|].
  intros j b Hb. pose proof (lookup_lt_Some _ _ _ Hb) as Hj.
  destruct (H1 j Hj) as (v1 & Hv1 & Hc1 & Hiff1).
  pose proof (Hdone2 j b ltac:(lia) Hb) as Hv2.
  destruct (H3 j b ltac:(lia) Hb) as [Hin Hout].
  rewrite firstn_all in Hin, Hout.
  destruct (Z.eqb_spec b (-1)) as [Hbe|Hbe].
  - exists (-1)%Z. split; [rewrite Hout by auto; exact Hv2|].
    split; [auto|]. split; auto.
  - destruct (decide (Z.of_nat j ∈ sbm_dofs_)) as [Hs|Hs].
    + exists 0%Z. split; [apply Hin; assumption|]. split; [auto|].
      split; [lia|]. intros [H|[_ H]]; contradiction.
    + exists v1. split; [rewrite Hout by auto; rewrite Hv2; exact Hv1|].
      split; [exact Hc1|]. rewrite Hiff1. split; [auto|].
      intros [H|[H _]]; [contradiction|exact H].
Qed.

End EssentialDofsFacts.

(** X6.  Lines 355-382 of neumann.cpp.  When the dofs of the elements and
    of the shifted faces index [ess_vdofs_hole], the three loops complete
    and leave in every entry -1 or 0; an entry is -1 exactly when the dof
    is marked -1 in [ess_vdofs_bdr], or belongs to a trimmed element and
    is not a dof of a shifted face. *)
Theorem essential_dofs_marked (trimin : bool) (elem_marker : list Z)
    (GetNE_ : nat) (GetElementVDofs : nat -> list Z)
    (ess_vdofs_bdr sbm_dofs_ : list Z) :
  (GetNE_ <= length elem_marker)%nat ->
  (forall e, (e < GetNE_)%nat ->
     Forall (fun d => (0 <= d < Z.of_nat (length ess_vdofs_bdr))%Z)
            (GetElementVDofs e)) ->
  Forall (fun d => (0 <= d < Z.of_nat (length ess_vdofs_bdr))%Z) sbm_dofs_ ->
  exists hole,
    essentialVDofs trimin elem_marker GetNE_ GetElementVDofs
                   ess_vdofs_bdr sbm_dofs_ = Ret hole
    /\ length hole = length ess_vdofs_bdr
    /\ forall j b, ess_vdofs_bdr !! j = Some b ->
         exists v, hole !! j = Some v
           /\ (v = -1 \/ v = 0)%Z
           /\ (v = (-1)%Z
               <-> b = (-1)%Z
                   \/ (inTrimmedElement trimin elem_marker GetElementVDofs
                                        GetNE_ j
                       /\ Z.of_nat j ∉ sbm_dofs_)).
Proof.
  intros Hcover Hvdofs Hsbm.
  exact (essentialVDofs_returns trimin elem_marker GetNE_ GetElementVDofs
           ess_vdofs_bdr sbm_dofs_ Hcover Hvdofs Hsbm).
Qed.

Lemma essential_dofs_marked_witness :
  let GetElementVDofs := fun e : nat => [Z.of_nat e; (Z.of_nat e + 1)%Z] in
  exists hole,
    essentialVDofs false [0; 1; 2]%Z 3 GetElementVDofs [-1; 0; 0; 0]%Z [2%Z]
    = Ret hole
    /\ length hole = 4%nat
    /\ forall j b, [-1; 0; 0; 0]%Z !! j = Some b ->
         exists v, hole !! j = Some v
           /\ (v = -1 \/ v = 0)%Z
           /\ (v = (-1)%Z
               <-> b = (-1)%Z
                   \/ (inTrimmedElement false [0; 1; 2]%Z GetElementVDofs 3 j
                       /\ Z.of_nat j ∉ [2%Z])).
Proof.
  intros GetElementVDofs.
  refine (essential_dofs_marked false [0; 1; 2]%Z 3 GetElementVDofs
            [-1; 0; 0; 0]%Z [2%Z] _ _ _).
  - simpl. lia.
  - intros e He. unfold GetElementVDofs.
    constructor; [simpl; lia|]. constructor; [simpl; lia|constructor].
  - constructor; [simpl; lia|constructor].
Defined.

Example essentialVDofs_example :
  essentialVDofs false [0; 1; 2]%Z 3
    (fun e : nat => [Z.of_nat e; (Z.of_nat e + 1)%Z])
    [-1; 0; 0; 0]%Z [2%Z]
  = Ret [-1; -1; 0; 0]%Z.
Proof. vm_compute. reflexivity. Qed.

Example essentialVDofs_negative_dof :
  essentialVDofs false [1]%Z 1 (fun _ => [(-1)%Z]) [0]%Z [] = Undefined.
Proof. vm_compute. reflexivity. Qed.

(** ** Stretching the mesh nodes *)

Lemma stretched_length n i (vxyz : list float) :
  (n + i <= length vxyz)%nat -> length (stretched n i vxyz) = length vxyz.
Proof.
  intros H. unfold stretched.
  rewrite !length_app, length_fmap, !length_take, !length_drop. lia.
Qed.

Lemma stretched_S n i (vxyz : list float) v :
  vxyz !! (n + i)%nat = Some v ->
  <[(n + i)%nat := stretch v]> (stretched n i vxyz)
  = stretched n (S i) vxyz.
Proof.
  intros Hv. pose proof (lookup_lt_Some _ _ _ Hv) as Hlt. unfold stretched.
  assert (Hd : drop n vxyz !! i = Some v) by (rewrite lookup_drop; exact Hv).
  rewrite (take_S_r _ _ _ Hd), fmap_app, <- app_assoc. cbn [fmap list_fmap].
  rewrite insert_app_r_alt by (rewrite length_take; lia).
  rewrite length_take, Nat.min_l by lia.
  replace (n + i - n)%nat with (length (stretch <$> take i (drop n vxyz)) + 0)%nat
    by (rewrite length_fmap, length_take, length_drop; lia).
  rewrite insert_app_r.
  rewrite (drop_S _ _ _ Hv). cbn [insert list_insert].
  replace (n + S i)%nat with (S (n + i)) by lia. reflexivity.
Qed.

Lemma stretched_lookup n i (vxyz : list float) :
  (n + i <= length vxyz)%nat ->
  stretched n i vxyz !! (n + i)%nat = vxyz !! (n + i)%nat.
Proof.
  intros H. unfold stretched.
  rewrite lookup_app_r by (rewrite length_take; lia).
  rewrite lookup_app_r
    by (rewrite length_fmap, !length_take, length_drop; lia).
  rewrite lookup_drop, length_fmap, !length_take, length_drop.
  f_equal. lia.
Qed.

Lemma stretch_loop (n : nat) (vxyz : list float) :
  (n + n <= length vxyz)%nat ->
  (Z.of_nat (length vxyz) <= CInt.INT_MAX)%Z ->
  for_loop n (fun _ => n) (stretch_body (Z.of_nat n)) 0%nat vxyz
  = Ret (stretched n n vxyz).
Proof.
  intros Hn Hmax.
  destruct (for_loop_invariant (fun _ => n) (stretch_body (Z.of_nat n)) n
              (stretch_inv n vxyz))
    with (fuel := n) (i := 0%nat) (s := vxyz) as (v & Hrun & Hv).
  - reflexivity.
  - intros i v Hi ->. unfold stretch_body. cbv zeta.
    unfold CInt.add. rewrite CIntFacts.wrap_id
      by (unfold CInt.in_range, CInt.INT_MIN, CInt.INT_MAX in *; lia).
    pose proof (stretched_length n i vxyz ltac:(lia)) as Hlen.
    destruct (array_getZ_in_range (stretched n i vxyz)
                (Z.of_nat i + Z.of_nat n)%Z ltac:(lia)) as (x & -> & Hx).
    cbn [mbind result_bind].
    rewrite array_setZ_in_range by lia.
    replace (Z.to_nat (Z.of_nat i + Z.of_nat n)) with (n + i)%nat in * by lia.
    rewrite stretched_lookup in Hx by lia.
    eexists. split; [reflexivity|]. unfold stretch_inv.
    apply stretched_S, Hx.
  - lia.
  - lia.
  - unfold stretch_inv, stretched. rewrite take_0. cbn [fmap list_fmap app].
    rewrite Nat.add_0_r, take_drop. reflexivity.
  - rewrite Hrun, Hv. reflexivity.
Qed.

(** X7.  Lines 126-131 of neumann.cpp, in a mesh of dimension [dim >= 1].
    For a level set of another type than 3 the nodes are left as they are.
    For type 3 and [dim >= 2] the second coordinate of every node is
    stretched and nothing else changes; for [dim = 1] the first iteration
    reads past the end of [vxyz], unless there are no nodes. *)
Theorem stretch_nodes (level_set_type dim : Z) (vxyz : list float) :
  (1 <= dim)%Z -> (Z.of_nat (length vxyz) <= CInt.INT_MAX)%Z ->
  let n := Z.to_nat (Z.of_nat (length vxyz) ÷ dim) in
  stretchNodes level_set_type dim vxyz
  = if negb (level_set_type =? 3)%Z then Ret vxyz
    else if (dim =? 1)%Z then
      match vxyz with [] => Ret vxyz | _ :: _ => Undefined end
    else Ret (take n vxyz ++ (stretch <$> take n (drop n vxyz))
              ++ drop (n + n) vxyz).
Proof.
  intros Hdim Hmax n. unfold stretchNodes, nodesCount, int_div.
  rewrite div_by_positive
    by (unfold CInt.in_range, CInt.INT_MIN, CInt.INT_MAX in *; lia).
  cbn [mbind result_bind].
  destruct (level_set_type =? 3)%Z; [|reflexivity]. cbn [negb].
  assert (Hq : (0 <= Z.of_nat (length vxyz) ÷ dim
                <= Z.of_nat (length vxyz))%Z).
  { split; [apply Z.quot_pos; lia|].
    apply Z.quot_le_upper_bound; [lia|]. nia. }
  destruct (Z.eqb_spec dim 1) as [->|Hne].
  - destruct vxyz as [|v0 rest]; [reflexivity|].
    rewrite Z.quot_1_r, Nat2Z.id. cbn [length for_loop].
    destruct (Nat.ltb_spec 0 (S (length rest))); [|lia].
    unfold stretch_body. cbv zeta. unfold CInt.add.
    rewrite CIntFacts.wrap_id
      by (unfold CInt.in_range, CInt.INT_MIN, CInt.INT_MAX in *;
          cbn [length] in *; lia).
    unfold array_getZ, array_get.
    destruct (Z.ltb_spec (Z.of_nat 0 + Z.of_nat (S (length rest))) 0);
      [lia|].
    rewrite lookup_ge_None_2 by (cbn [length]; lia). reflexivity.
  - fold n. replace (Z.of_nat (length vxyz) ÷ dim)%Z with (Z.of_nat n)
      by (unfold n; lia).
    apply stretch_loop; [|exact Hmax].
    assert (2 * (Z.of_nat (length vxyz) ÷ dim)
            <= Z.of_nat (length vxyz))%Z.
    { pose proof (Z.mul_quot_le (Z.of_nat (length vxyz)) dim
                    ltac:(lia) ltac:(lia)). nia. }
    unfold n. lia.
Qed.

Lemma stretch_nodes_witness :
  stretchNodes 3 2 [0; 1; 0; 1]%float
  = Ret (take 2 [0; 1; 0; 1]%float
         ++ (stretch <$> take 2 (drop 2 [0; 1; 0; 1]%float))
         ++ drop (2 + 2) [0; 1; 0; 1]%float).
Proof.
  refine (stretch_nodes 3 2 [0; 1; 0; 1]%float _ _).
  - lia.
  - vm_compute. discriminate.
Defined.

(** The ends of the interval [[0, 1]] go to [-1.e-4] and to [1]. *)
Example stretch_ends :
  stretch 0 = (-0x1.a36e2eb1c432dp-14)%float /\ stretch 1 = 1%float.
Proof. split; vm_compute; reflexivity. Qed.

Example stretchNodes_one_dimension :
  stretchNodes 3 1 [0; 1]%float = Undefined.
Proof. vm_compute. reflexivity. Qed.

(** In dimension 0 line 126 divides by zero, whatever the level set is. *)
Example stretchNodes_zero_dimension :
  stretchNodes 1 0 [0; 1]%float = Undefined.
Proof. vm_compute. reflexivity. Qed.

(** ** The coefficients of the linear form *)

(** X8.  Lines 452-489 of neumann.cpp.  The coefficients are all set
    only for a level set of type 1.  For the types 2 and 3 the right-hand
    side and the Dirichlet velocity are chosen, but [nbcCoef] is still
    [NULL] where line 489 reads [*nbcCoef]; any other type stops at the
    first [MFEM_ABORT]. *)
Theorem coefficients_by_level_set_type (level_set_type : Z) :
  selectCoefficients level_set_type
  = if (level_set_type =? 1)%Z then
      Ret {| rhs_f := rhs_fun_circle;
             dbcCoef := Some dirichlet_velocity_circle;
             nbcCoef := neumann_velocity_circle;
             normalbcCoef := normal_vector |}
    else if (level_set_type =? 2)%Z || (level_set_type =? 3)%Z
    then Undefined
    else Aborted.
Proof.
  unfold selectCoefficients.
  destruct (Z.eqb_spec level_set_type 1) as [->|H1]; [reflexivity|].
  destruct (Z.eqb_spec level_set_type 2) as [->|H2]; [reflexivity|].
  destruct (Z.eqb_spec level_set_type 3) as [->|H3]; reflexivity.
Qed.

(** ** The error at the dofs of the trimmed elements *)

Section MaskErrorFacts.
Variable pm : Mesh.
Variable max_elem_attr : Z.
Variable GetElementDofs : nat -> list Z.
Variable ess_vdofs_hole : list Z.

Local Abbreviation masked_ :=
  (masked pm max_elem_attr GetElementDofs ess_vdofs_hole).

Lemma mask_dofs_returns (dofs : list Z) (err0 : list float) :
  length ess_vdofs_hole = length err0 ->
  Forall (fun d => (0 <= d < Z.of_nat (length err0))%Z) dofs ->
  exists err,
    for_loop (length dofs) (fun _ => length dofs)
             (mask_dofs_body ess_vdofs_hole dofs) 0%nat err0 = Ret err
    /\ mask_dofs_inv ess_vdofs_hole dofs err0 (length dofs) err.
Proof.
  intros Hlen Hr.
  apply (for_loop_invariant (fun _ => length dofs)
           (mask_dofs_body ess_vdofs_hole dofs) (length dofs)
           (mask_dofs_inv ess_vdofs_hole dofs err0)).
  - reflexivity.
  - intros k err Hk (Hl & Hinv). unfold mask_dofs_body, array_get.
    destruct (lookup_lt_is_Some_2 dofs k Hk) as [d Hd]. rewrite Hd.
    cbn [mbind result_bind].
    rewrite Forall_lookup in Hr. pose proof (Hr k d Hd) as Hdr.
    destruct (array_getZ_in_range ess_vdofs_hole d ltac:(lia))
      as (h & -> & Hh).
    cbn [mbind result_bind]. unfold mask_dofs_inv.
    rewrite (take_S_r _ _ _ Hd).
    destruct (Z.eqb_spec h (-1)) as [->|Hne].
    + rewrite array_setZ_in_range by lia.
      eexists. split; [reflexivity|].
      split; [rewrite length_insert; exact Hl|].
      intros j Hj. destruct (Hinv j Hj) as [Hin Hout].
      destruct (Nat.eq_dec j (Z.to_nat d)) as [->|Hjd].
      * rewrite list_lookup_insert_eq by lia. split; [reflexivity|].
        intros Hn. exfalso. apply Hn. split; [exact Hh|].
        apply elem_of_app. right. rewrite Z2Nat.id by lia.
        apply list_elem_of_singleton. reflexivity.
      * rewrite list_lookup_insert_ne by congruence. split.
        -- intros [H1 H2]. apply Hin. split; [exact H1|].
           apply elem_of_app in H2. destruct H2 as [H2|H2]; [exact H2|].
           apply list_elem_of_singleton in H2. lia.
        -- intros Hn. apply Hout. intros [H1 H2]. apply Hn.
           split; [exact H1|]. apply elem_of_app. auto.
    + exists err. split; [reflexivity|]. split; [exact Hl|].
      intros j Hj. destruct (Hinv j Hj) as [Hin Hout]. split.
      * intros [H1 H2]. apply Hin. split; [exact H1|].
        apply elem_of_app in H2. destruct H2 as [H2|H2]; [exact H2|].
        apply list_elem_of_singleton in H2. subst d.
        rewrite Nat2Z.id in Hh. congruence.
      * intros Hn. apply Hout. intros [H1 H2]. apply Hn.
        split; [exact H1|]. apply elem_of_app. auto.
  - lia.
  - lia.
  - split; [reflexivity|]. intros j Hj. rewrite take_0. split.
    + intros [_ Hin]. apply elem_of_nil in Hin. contradiction.
    + reflexivity.
Qed.

Lemma masked_S e j :
  masked_ (S e) j
  <-> masked_ e j
      \/ (ess_vdofs_hole !! j = Some (-1)%Z
          /\ exists attr, GetAttribute pm e = Some attr
                          /\ (attr > max_elem_attr)%Z
                          /\ Z.of_nat j ∈ GetElementDofs e).
Proof.
  unfold masked. split.
  - intros (Hh & i & attr & Hlt & H).
    destruct (Nat.eq_dec i e) as [->|Hne].
    + right. split; [exact Hh|]. eauto.
    + left. split; [exact Hh|]. exists i, attr. split; [lia|exact H].
  - intros [(Hh & i & attr & Hlt & H)|(Hh & attr & H)].
    + split; [exact Hh|]. exists i, attr. split; [lia|exact H].
    + split; [exact Hh|]. exists e, attr. split; [lia|exact H].
Qed.

Lemma maskError_returns (err0 : list float) :
  length ess_vdofs_hole = length err0 ->
  (forall i, (i < GetNE pm)%nat ->
     Forall (fun d => (0 <= d < Z.of_nat (length err0))%Z)
            (GetElementDofs i)) ->
  exists err,
    maskError pm max_elem_attr GetElementDofs ess_vdofs_hole err0 = Ret err
    /\ length err = length err0
    /\ forall j, (j < length err0)%nat ->
         (masked_ (GetNE pm) j -> err !! j = Some 0%float)
         /\ (~ masked_ (GetNE pm) j -> err !! j = err0 !! j).
Proof.
  intros Hlen Hr. unfold maskError.
  apply (for_loop_invariant (fun _ => GetNE pm)
           (mask_body pm max_elem_attr GetElementDofs ess_vdofs_hole)
           (GetNE pm)
           (mask_inv pm max_elem_attr GetElementDofs ess_vdofs_hole err0)).
  - reflexivity.
  - intros e err He (Hl & Hinv). unfold mask_body.
    destruct (lookup_lt_is_Some_2 (attributes pm) e He) as [attr Hattr].
    unfold GetAttribute at 1. rewrite Hattr.
    destruct (Z.gtb_spec attr max_elem_attr) as [Hgt|Hle].
    + destruct (mask_dofs_returns (GetElementDofs e) err)
        as (err' & Hrun & Hl' & Hdofs).
      { lia. }
      { rewrite Hl. apply Hr, He. }
      exists err'. split; [exact Hrun|]. split; [lia|].
      intros j Hj. rewrite firstn_all in Hdofs.
      destruct (Hdofs j ltac:(lia)) as [Hin Hout].
      destruct (Hinv j Hj) as [Hm Hn]. rewrite masked_S.
      destruct (decide (ess_vdofs_hole !! j = Some (-1)%Z
                        /\ Z.of_nat j ∈ GetElementDofs e)) as [Hd|Hd].
      * split; [intros _; apply Hin, Hd|].
        intros Hno. exfalso. apply Hno. right. destruct Hd as [H1 H2].
        split; [exact H1|]. exists attr. repeat split; trivial. lia.
      * rewrite (Hout Hd). split.
        -- intros [H|(H1 & _ & _ & _ & H2)]; [apply Hm, H|].
           exfalso. apply Hd. auto.
        -- intros Hno. apply Hn. intros H. apply Hno. auto.
    + exists err. split; [reflexivity|]. split; [exact Hl|].
      intros j Hj. destruct (Hinv j Hj) as [Hm Hn]. rewrite masked_S.
      split.
      * intros [H|(_ & attr' & Ha & Hgt & _)]; [apply Hm, H|].
        unfold GetAttribute in Ha. assert (attr' = attr) by congruence.
        lia.
      * intros Hno. apply Hn. intros H. apply Hno. auto.
  - lia.
  - lia.
  - split; [reflexivity|]. intros j Hj. split; [|reflexivity].
    intros (_ & i & _ & Hlt & _). lia.
Qed.

End MaskErrorFacts.

(** X9.  Lines 582-592 of neumann.cpp.  When the dofs of the elements
    index [err] and [ess_vdofs_hole], the loop completes; it sets the
    error to zero at the dofs that are marked -1 and belong to an element
    whose attribute is above [max_elem_attr], and leaves every other entry
    as it was. *)
Theorem error_masked (pm : Mesh) (max_elem_attr : Z)
    (GetElementDofs : nat -> list Z) (ess_vdofs_hole : list Z)
    (err0 : list float) :
  length ess_vdofs_hole = length err0 ->
  (forall i, (i < GetNE pm)%nat ->
     Forall (fun d => (0 <= d < Z.of_nat (length err0))%Z)
            (GetElementDofs i)) ->
  exists err,
    maskError pm max_elem_attr GetElementDofs ess_vdofs_hole err0 = Ret err
    /\ length err = length err0
    /\ forall j, (j < length err0)%nat ->
         (masked pm max_elem_attr GetElementDofs ess_vdofs_hole (GetNE pm) j
          -> err !! j = Some 0%float)
         /\ (~ masked pm max_elem_attr GetElementDofs ess_vdofs_hole
                      (GetNE pm) j
             -> err !! j = err0 !! j).
Proof.
  exact (maskError_returns pm max_elem_attr GetElementDofs ess_vdofs_hole
           err0).
Qed.

Lemma error_masked_witness :
  let pm := {| attributes := [1; 3]%Z |} in
  let GetElementDofs := fun i : nat => [Z.of_nat i; (Z.of_nat i + 1)%Z] in
  let hole := [0; -1; 0]%Z in
  let err0 := [5; 6; 7]%float in
  exists err,
    maskError pm 2 GetElementDofs hole err0 = Ret err
    /\ length err = length err0
    /\ forall j, (j < length err0)%nat ->
         (masked pm 2 GetElementDofs hole (GetNE pm) j ->
          err !! j = Some 0%float)
         /\ (~ masked pm 2 GetElementDofs hole (GetNE pm) j ->
             err !! j = err0 !! j).
Proof.
  intros pm GetElementDofs hole err0.
  refine (error_masked pm 2 GetElementDofs hole err0 _ _).
  - reflexivity.
  - intros i Hi. unfold GetElementDofs.
    assert (i < 2)%nat by exact Hi.
    constructor; [simpl; lia|]. constructor; [simpl; lia|constructor].
Defined.

Example maskError_example :
  maskError {| attributes := [1; 3]%Z |} 2
    (fun i : nat => [Z.of_nat i; (Z.of_nat i + 1)%Z]) [0; -1; 0]%Z
    [5; 6; 7]%float
  = Ret [5; 0; 7]%float.
Proof. vm_compute. reflexivity. Qed.

(** ** Comparisons of [double]s *)

Module FloatOrder.
Import SpecFloat FloatOps.

Ltac cmp_hyp H :=
  repeat match type of H with
  | context [(?a ?= ?b)%Z] => destruct (Z.compare_spec a b)
  | context [(?a ?= ?b)%positive] => destruct (Pos.compare_spec a b)
  end; simpl in H; try discriminate H.

Ltac cmp_goal :=
  repeat match goal with
  | |- context [(?a ?= ?b)%Z] => destruct (Z.compare_spec a b)
  | |- context [(?a ?= ?b)%positive] => destruct (Pos.compare_spec a b)
  end; simpl; try reflexivity; try lia.

Lemma SFcompare_refl x : x <> S754_nan -> SFcompare x x = Some Eq.
Proof.
  destruct x as [s|s| |s m e]; simpl; try congruence; intros _.
  - destruct s; reflexivity.
  - change (Pos.compare_cont Eq m m) with (m ?= m)%positive.
    rewrite Z.compare_refl, Pos.compare_refl. destruct s; reflexivity.
Qed.

Lemma SFcompare_antisym x y :
  SFcompare y x = option_map CompOpp (SFcompare x y).
Proof.
  destruct x as [s1|s1| |s1 m1 e1], y as [s2|s2| |s2 m2 e2]; simpl;
    try reflexivity;
    try (destruct s1; reflexivity); try (destruct s2; reflexivity);
    try (destruct s1, s2; reflexivity).
  change (Pos.compare_cont Eq m1 m2) with (m1 ?= m2)%positive.
  change (Pos.compare_cont Eq m2 m1) with (m2 ?= m1)%positive.
  rewrite (Z.compare_antisym e1 e2), (Pos.compare_antisym m1 m2).
  destruct s1, s2; simpl; try reflexivity;
    destruct (e1 ?= e2)%Z, (m1 ?= m2)%positive; reflexivity.
Qed.

Lemma SFcompare_lt_le_trans x y z :
  SFcompare x y = Some Lt ->
  (SFcompare y z = Some Lt \/ SFcompare y z = Some Eq) ->
  SFcompare x z = Some Lt.
Proof.
  destruct x as [s1|s1| |s1 m1 e1], y as [s2|s2| |s2 m2 e2],
           z as [s3|s3| |s3 m3 e3]; simpl; intros H1 [H2|H2];
    try discriminate;
    try (destruct s1; try discriminate);
    try (destruct s2; try discriminate);
    try (destruct s3; try discriminate);
    try reflexivity;
    change (Pos.compare_cont Eq m1 m2) with (m1 ?= m2)%positive in *;
    change (Pos.compare_cont Eq m2 m3) with (m2 ?= m3)%positive in *;
    change (Pos.compare_cont Eq m1 m3) with (m1 ?= m3)%positive in *;
    cmp_hyp H1; cmp_hyp H2; f_equal; cmp_goal.
Qed.

Lemma SFcompare_le_lt_trans x y z :
  (SFcompare x y = Some Lt \/ SFcompare x y = Some Eq) ->
  SFcompare y z = Some Lt ->
  SFcompare x z = Some Lt.
Proof.
  destruct x as [s1|s1| |s1 m1 e1], y as [s2|s2| |s2 m2 e2],
           z as [s3|s3| |s3 m3 e3]; simpl; intros [H1|H1] H2;
    try discriminate;
    try (destruct s1; try discriminate);
    try (destruct s2; try discriminate);
    try (destruct s3; try discriminate);
    try reflexivity;
    change (Pos.compare_cont Eq m1 m2) with (m1 ?= m2)%positive in *;
    change (Pos.compare_cont Eq m2 m3) with (m2 ?= m3)%positive in *;
    change (Pos.compare_cont Eq m1 m3) with (m1 ?= m3)%positive in *;
    cmp_hyp H1; cmp_hyp H2; f_equal; cmp_goal.
Qed.

Lemma SFcompare_not_nan x y :
  x <> S754_nan -> y <> S754_nan -> exists c, SFcompare x y = Some c.
Proof.
  destruct x, y; simpl; intros Hx Hy; eauto; congruence.
Qed.

Lemma not_nan_spec x :
  PrimFloat.is_nan x = false -> Prim2SF x <> S754_nan.
Proof.
  unfold PrimFloat.is_nan. rewrite FloatAxioms.eqb_spec. unfold SFeqb.
  intros H E. rewrite E in H. discriminate H.
Qed.

Lemma leb_cases x y :
  PrimFloat.leb x y = true
  <-> SFcompare (Prim2SF x) (Prim2SF y) = Some Lt
      \/ SFcompare (Prim2SF x) (Prim2SF y) = Some Eq.
Proof.
  rewrite FloatAxioms.leb_spec. unfold SFleb.
  destruct (SFcompare (Prim2SF x) (Prim2SF y)) as [[| |]|]; split;
    intros H; try discriminate; auto; destruct H; discriminate.
Qed.

Lemma ltb_cases x y :
  PrimFloat.ltb x y = true
  <-> SFcompare (Prim2SF x) (Prim2SF y) = Some Lt.
Proof.
  rewrite FloatAxioms.ltb_spec. unfold SFltb.
  destruct (SFcompare (Prim2SF x) (Prim2SF y)) as [[| |]|]; split;
    intros H; try discriminate; auto.
Qed.

Lemma leb_refl x : PrimFloat.is_nan x = false -> PrimFloat.leb x x = true.
Proof.
  intros H. apply leb_cases. right. apply SFcompare_refl, not_nan_spec, H.
Qed.

Lemma ltb_false_leb x y :
  PrimFloat.is_nan x = false -> PrimFloat.is_nan y = false ->
  PrimFloat.ltb y x = false -> PrimFloat.leb x y = true.
Proof.
  intros Hx Hy H. apply not_nan_spec in Hx, Hy. apply leb_cases.
  assert (Hn : SFcompare (Prim2SF y) (Prim2SF x) <> Some Lt).
  { intros E. apply ltb_cases in E. congruence. }
  rewrite (SFcompare_antisym (Prim2SF x) (Prim2SF y)) in Hn.
  destruct (SFcompare_not_nan _ _ Hx Hy) as [[| |] Hc]; auto.
  rewrite Hc in Hn. exfalso. apply Hn. reflexivity.
Qed.

Lemma ltb_leb_trans x y z :
  PrimFloat.ltb x y = true -> PrimFloat.leb y z = true ->
  PrimFloat.leb x z = true.
Proof.
  rewrite ltb_cases, !leb_cases. intros H1 H2. left.
  eapply SFcompare_lt_le_trans; eassumption.
Qed.

Lemma leb_ltb_trans x y z :
  PrimFloat.leb x y = true -> PrimFloat.ltb y z = true ->
  PrimFloat.leb x z = true.
Proof.
  rewrite ltb_cases, !leb_cases. intros H1 H2. left.
  eapply SFcompare_le_lt_trans; eassumption.
Qed.

End FloatOrder.

(** ** The range of the element sizes *)

Lemma size_body_step sizes i mm :
  (i < length sizes)%nat -> size_range_inv sizes i mm ->
  exists mm', size_body sizes i mm = Ret mm'
              /\ size_range_inv sizes (S i) mm'.
Proof.
  intros Hi (Hlo & Hhi & Hord). unfold size_body, array_get.
  destruct (lookup_lt_is_Some_2 sizes i Hi) as [s Hs]. rewrite Hs.
  eexists. split; [reflexivity|]. unfold size_range_inv.
  rewrite (take_S_r _ _ _ Hs). cbn [fst snd]. unfold std_min, std_max.
  split; [|split].
  - destruct (PrimFloat.ltb s mm.1); apply elem_of_app;
      [right; apply list_elem_of_singleton; reflexivity|left; exact Hlo].
  - destruct (PrimFloat.ltb mm.2 s); apply elem_of_app;
      [right; apply list_elem_of_singleton; reflexivity|left; exact Hhi].
  - intros Hnan. specialize (Hord Hnan).
    pose proof Hnan as Hn. rewrite Forall_forall in Hn.
    assert (Hs' : PrimFloat.is_nan s = false)
      by (apply Hn; eapply list_elem_of_lookup_2; exact Hs).
    assert (Hl : PrimFloat.is_nan mm.1 = false)
      by (apply Hn; eapply subseteq_take; exact Hlo).
    assert (Hh : PrimFloat.is_nan mm.2 = false)
      by (apply Hn; eapply subseteq_take; exact Hhi).
    apply Forall_app. split.
    + eapply Forall_impl; [exact Hord|]. cbn beta. intros t [Ht1 Ht2]. split.
      * destruct (PrimFloat.ltb s mm.1) eqn:E; [|exact Ht1].
        eapply FloatOrder.ltb_leb_trans; eassumption.
      * destruct (PrimFloat.ltb mm.2 s) eqn:E; [|exact Ht2].
        eapply FloatOrder.leb_ltb_trans; eassumption.
    + apply Forall_singleton. split.
      * destruct (PrimFloat.ltb s mm.1) eqn:E.
        -- apply FloatOrder.leb_refl, Hs'.
        -- apply FloatOrder.ltb_false_leb; assumption.
      * destruct (PrimFloat.ltb mm.2 s) eqn:E.
        -- apply FloatOrder.leb_refl, Hs'.
        -- apply FloatOrder.ltb_false_leb; assumption.
Qed.

(** X10.  Lines 507-514 of ex3p_dd.cpp.  On a process without elements the
    scan reads the size of an element that does not exist.  Otherwise it
    completes, [minsize] and [maxsize] are sizes of elements of the
    process, and when no size is a NaN every size lies between them. *)
Theorem element_size_range (sizes : list float) :
  match sizes with
  | [] => elementSizeRange sizes = Undefined
  | _ :: _ =>
      exists minsize maxsize,
        elementSizeRange sizes = Ret (minsize, maxsize)
        /\ minsize ∈ sizes /\ maxsize ∈ sizes
        /\ (Forall (fun s => PrimFloat.is_nan s = false) sizes ->
            Forall (fun s => PrimFloat.leb minsize s = true
                             /\ PrimFloat.leb s maxsize = true) sizes)
  end.
Proof.
  destruct sizes as [|s0 rest]; [reflexivity|].
  set (sizes := s0 :: rest).
  destruct (for_loop_invariant (fun _ => length sizes) (size_body sizes)
              (length sizes) (size_range_inv sizes))
    with (fuel := length sizes) (i := 1%nat) (s := (s0, s0))
    as ([lo hi] & Hrun & Hlo & Hhi & Hord).
  - reflexivity.
  - intros i mm. apply size_body_step.
  - simpl. lia.
  - lia.
  - unfold size_range_inv. cbn [fst snd take sizes].
    split; [apply list_elem_of_singleton; reflexivity|].
    split; [apply list_elem_of_singleton; reflexivity|].
    intros Hnan. apply Forall_singleton.
    apply Forall_cons in Hnan. destruct Hnan as [H0 _].
    split; apply FloatOrder.leb_refl, H0.
  - exists lo, hi. rewrite firstn_all in Hlo, Hhi, Hord.
    split; [exact Hrun|]. cbn [fst snd] in *. auto.
Qed.

Example elementSizeRange_example :
  elementSizeRange [3; 1; 2; 1]%float = Ret (1, 3)%float.
Proof. vm_compute. reflexivity. Qed.

(** With a NaN among the sizes the result need not bound them. *)
Example elementSizeRange_nan :
  elementSizeRange [2; nan; 1]%float = Ret (1, 2)%float
  /\ elementSizeRange [nan; 1; 2]%float = Ret (nan, nan)%float.
Proof. split; vm_compute; reflexivity. Qed.

(** ** The Hypre tests *)

Lemma mapM_id_Some (l : list Z) : mapM id (Some <$> l) = Some l.
Proof.
  apply mapM_Some_2. apply Forall2_fmap_l.
  apply Forall2_same_length_lookup. split; [reflexivity|].
  intros i x y Hx Hy. simpl. congruence.
Qed.

Lemma initialized_Some (a : list (option Z)) (l : list Z) :
  a = Some <$> l -> initialized a = Ret l.
Proof. intros ->. unfold initialized. rewrite mapM_id_Some. reflexivity. Qed.

Lemma write_in_range (a : list (option Z)) (i v : Z) :
  (0 <= i < Z.of_nat (length a))%Z ->
  write a i v = Ret (<[Z.to_nat i := Some v]> a).
Proof. apply array_setZ_in_range. Qed.

Lemma rectangular_step (n i : nat) st :
  (Z.of_nat (2 * n + 1) <= CInt.INT_MAX)%Z ->
  (i < n)%nat -> rectangular_inv n i st ->
  exists st', rectangular_body i st = Ret st'
              /\ rectangular_inv n (S i) st'.
Proof.
  intros Hmax Hi (HlI & HlJ & HI & HJ). unfold rectangular_body. cbv zeta.
  unfold CInt.add, CInt.mul.
  rewrite !(CIntFacts.wrap_id (2 * Z.of_nat i))
    by (unfold CInt.in_range, CInt.INT_MIN, CInt.INT_MAX in *; lia).
  rewrite !CIntFacts.wrap_id
    by (unfold CInt.in_range, CInt.INT_MIN, CInt.INT_MAX in *; lia).
  rewrite (write_in_range st.1) by lia. cbn [mbind result_bind].
  rewrite (write_in_range (<[_ := _]> st.1))
    by (rewrite length_insert; lia).
  cbn [mbind result_bind].
  rewrite (write_in_range st.2) by lia. cbn [mbind result_bind].
  eexists. split; [reflexivity|]. unfold rectangular_inv. cbn [fst snd].
  rewrite !length_insert. split; [exact HlI|]. split; [exact HlJ|]. split.
  - intros r Hr.
    destruct (Nat.eq_dec r (Z.to_nat (2 * Z.of_nat i + 2))) as [->|H2].
    + rewrite list_lookup_insert_eq by (rewrite length_insert; lia).
      do 2 f_equal. apply (Z.div_unique _ 2 _ 0); lia.
    + rewrite list_lookup_insert_ne by congruence.
      destruct (Nat.eq_dec r (Z.to_nat (2 * Z.of_nat i + 1))) as [->|H1].
      * rewrite list_lookup_insert_eq by lia. do 2 f_equal.
        apply (Z.div_unique _ 2 _ 1); lia.
      * rewrite list_lookup_insert_ne by congruence. apply HI. lia.
  - intros k Hk. destruct (Nat.eq_dec k i) as [->|Hne].
    + rewrite Nat2Z.id, list_lookup_insert_eq by lia. reflexivity.
    + rewrite list_lookup_insert_ne by lia. apply HJ. lia.
Qed.

Lemma rectangularArrays_returns (num_loc_cols : Z) :
  (0 <= num_loc_cols)%Z -> (2 * num_loc_cols + 1 <= CInt.INT_MAX)%Z ->
  rectangularArrays num_loc_cols
  = Ret {| I_nnz := (fun r => r / 2)%Z <$> seqZ 0 (2 * num_loc_cols + 1);
           J_col := seqZ 0 num_loc_cols;
           rowStarts2 := [0; 2 * num_loc_cols]%Z;
           colStarts2 := [0; num_loc_cols]%Z |}.
Proof.
  intros H0 Hmax. unfold rectangularArrays. cbv zeta.
  unfold CInt.add, CInt.mul.
  rewrite !(CIntFacts.wrap_id (2 * num_loc_cols))
    by (unfold CInt.in_range, CInt.INT_MIN, CInt.INT_MAX in *; lia).
  rewrite !CIntFacts.wrap_id
    by (unfold CInt.in_range, CInt.INT_MIN, CInt.INT_MAX in *; lia).
  set (n := Z.to_nat num_loc_cols).
  unfold new_array.
  rewrite write_in_range by (rewrite length_replicate; lia).
  cbn [mbind result_bind].
  destruct (for_loop_invariant (fun _ => n) rectangular_body n
              (rectangular_inv n))
    with (fuel := n) (i := 0%nat)
         (s := (<[Z.to_nat 0 := Some 0%Z]>
                  (replicate (Z.to_nat (2 * num_loc_cols + 1)) None),
                replicate (Z.to_nat num_loc_cols) (@None Z)))
    as ([I J] & Hrun & HlI & HlJ & HI & HJ).
  - reflexivity.
  - intros i st. apply rectangular_step. lia.
  - lia.
  - lia.
  - unfold rectangular_inv. cbn [fst snd].
    rewrite length_insert, !length_replicate.
    split; [lia|]. split; [lia|]. split; [|intros; lia].
    intros r Hr. assert (r = 0%nat) by lia. subst r.
    change (Z.to_nat 0) with 0%nat.
    rewrite list_lookup_insert_eq by (rewrite length_replicate; lia).
    reflexivity.
  - rewrite Hrun. cbn [mbind result_bind fst snd] in *.
    rewrite (initialized_Some I
               ((fun r => r / 2)%Z <$> seqZ 0 (2 * num_loc_cols + 1))).
    2:{ apply list_eq. intros r. rewrite !list_lookup_fmap.
        destruct (Nat.lt_ge_cases r (2 * n + 1)) as [Hr|Hr].
        - rewrite HI by lia. rewrite lookup_seqZ_lt by lia. simpl.
          do 2 f_equal.
        - rewrite lookup_ge_None_2 by lia.
          rewrite lookup_seqZ_ge by lia. reflexivity. }
    cbn [mbind result_bind].
    rewrite (initialized_Some J (seqZ 0 num_loc_cols)).
    2:{ apply list_eq. intros k. rewrite list_lookup_fmap.
        destruct (Nat.lt_ge_cases k n) as [Hk|Hk].
        - rewrite HJ by lia. rewrite lookup_seqZ_lt by lia. simpl.
          do 2 f_equal.
        - rewrite lookup_ge_None_2 by lia.
          rewrite lookup_seqZ_ge by lia. reflexivity. }
    reflexivity.
Qed.

Lemma take_1_drop {A : Type} (l : list A) (k : nat) (x : A) :
  l !! k = Some x -> take 1 (drop k l) = [x].
Proof. intros H. rewrite (drop_S _ _ _ H). reflexivity. Qed.

(** X11.  Lines 116-157 of ex3p_dd.cpp, for any number of columns (the
    test takes 100).  The loop writes every entry of [I_nnz] and [J_col],
    and the arrays describe a matrix with twice as many rows as columns in
    which row [2k+1] holds one entry, in column [k], and row [2k] holds
    none. *)
Theorem rectangular_rows (num_loc_cols : Z) :
  (0 <= num_loc_cols)%Z -> (2 * num_loc_cols + 1 <= CInt.INT_MAX)%Z ->
  exists A,
    rectangularArrays num_loc_cols = Ret A
    /\ Z.of_nat (length (I_nnz A)) = (2 * num_loc_cols + 1)%Z
    /\ Z.of_nat (length (J_col A)) = num_loc_cols
    /\ rowStarts2 A = [0; 2 * num_loc_cols]%Z
    /\ colStarts2 A = [0; num_loc_cols]%Z
    /\ forall k : nat, (Z.of_nat k < num_loc_cols)%Z ->
         csr_row A (2 * k) = Some []
         /\ csr_row A (2 * k + 1) = Some [Z.of_nat k].
Proof.
  intros H0 Hmax. eexists. split; [apply rectangularArrays_returns; lia|].
  cbn [I_nnz J_col rowStarts2 colStarts2].
  rewrite length_fmap, !length_seqZ.
  split; [lia|]. split; [lia|]. split; [reflexivity|].
  split; [reflexivity|]. intros k Hk.
  assert (HI : forall r : nat, (Z.of_nat r < 2 * num_loc_cols + 1)%Z ->
             ((fun r => r / 2)%Z <$> seqZ 0 (2 * num_loc_cols + 1)) !! r
             = Some (Z.of_nat r / 2)%Z).
  { intros r Hr. rewrite list_lookup_fmap, lookup_seqZ_lt by lia.
    reflexivity. }
  assert (E0 : (Z.of_nat (2 * k) / 2 = Z.of_nat k)%Z)
    by (symmetry; apply (Z.div_unique _ 2 _ 0); lia).
  assert (E1 : (Z.of_nat (2 * k + 1) / 2 = Z.of_nat k)%Z)
    by (symmetry; apply (Z.div_unique _ 2 _ 1); lia).
  assert (E2 : (Z.of_nat (S (2 * k + 1)) / 2 = Z.of_nat k + 1)%Z)
    by (symmetry; apply (Z.div_unique _ 2 _ 0); lia).
  unfold csr_row. cbn [I_nnz J_col].
  replace (S (2 * k)) with (2 * k + 1)%nat by lia.
  rewrite !HI by lia. rewrite E0, E1, E2. cbn [mbind option_bind].
  split.
  - rewrite Z.sub_diag. reflexivity.
  - replace (Z.of_nat k + 1 - Z.of_nat k)%Z with 1%Z by lia.
    change (Z.to_nat 1) with 1%nat. f_equal. apply take_1_drop.
    rewrite Nat2Z.id. rewrite lookup_seqZ_lt by lia. f_equal; lia.
Qed.

Lemma rectangular_rows_witness :
  exists A,
    TestHypreRectangularSerial = Ret A
    /\ Z.of_nat (length (I_nnz A)) = (2 * 100 + 1)%Z
    /\ Z.of_nat (length (J_col A)) = 100%Z
    /\ rowStarts2 A = [0; 2 * 100]%Z
    /\ colStarts2 A = [0; 100]%Z
    /\ forall k : nat, (Z.of_nat k < 100)%Z ->
         csr_row A (2 * k) = Some []
         /\ csr_row A (2 * k + 1) = Some [Z.of_nat k].
Proof.
  refine (rectangular_rows 100 _ _).
  - lia.
  - vm_compute. discriminate.
Defined.

Lemma sum_loop (c : Z) (n : nat) :
  (0 <= c)%Z -> (c * Z.of_nat n <= CInt.INT_MAX)%Z ->
  for_loop n (fun _ => n) (sum_body (replicate n c)) 0%nat 0%Z
  = Ret (c * Z.of_nat n)%Z.
Proof.
  intros Hc Hmax.
  destruct (for_loop_invariant (fun _ => n) (sum_body (replicate n c)) n
              (sum_inv c))
    with (fuel := n) (i := 0%nat) (s := 0%Z) as (s & Hrun & Hs).
  - reflexivity.
  - intros i s Hi ->. unfold sum_body, array_get.
    rewrite lookup_replicate_2 by lia. cbn [mbind result_bind].
    eexists. split; [reflexivity|]. unfold sum_inv, CInt.add.
    rewrite CIntFacts.wrap_id
      by (unfold CInt.in_range, CInt.INT_MIN, CInt.INT_MAX in *; nia).
    lia.
  - lia.
  - lia.
  - unfold sum_inv. lia.
  - rewrite Hrun, Hs. reflexivity.
Qed.

Lemma identity_rows (A : HypreArrays) (n : nat) (osj : Z) :
  I_nnz A = seqZ 0 (Z.of_nat n + 1) -> J_col A = seqZ osj (Z.of_nat n) ->
  forall i, (i < n)%nat -> csr_row A i = Some [(osj + Z.of_nat i)%Z].
Proof.
  intros HI HJ i Hi. unfold csr_row. rewrite HI, HJ.
  rewrite !lookup_seqZ_lt by lia. cbn [mbind option_bind].
  replace (0 + Z.of_nat (S i) - (0 + Z.of_nat i))%Z with 1%Z by lia.
  change (Z.to_nat 1) with 1%nat. f_equal. apply take_1_drop.
  rewrite Z.add_0_l, Nat2Z.id. apply lookup_seqZ_lt. lia.
Qed.

(** X12.  Lines 178-219 of ex3p_dd.cpp on process [sdrank] of a
    communicator of [nsdprocs] processes.  The test stops at its
    [MFEM_VERIFY] unless the communicator has exactly two processes.  On
    two processes it completes, the process owns the rows from
    [100*sdrank] up to [100*sdrank + 100], and its local row [i] holds one
    entry, in the column of the same global index: the arrays describe the
    identity. *)
Theorem hypre_identity (nsdprocs sdrank : Z) :
  (0 <= sdrank < nsdprocs)%Z -> (100 * nsdprocs <= CInt.INT_MAX)%Z ->
  (nsdprocs <> 2%Z -> TestHypreIdentity nsdprocs sdrank = Aborted)
  /\ (nsdprocs = 2%Z ->
      exists A,
        TestHypreIdentity nsdprocs sdrank = Ret A
        /\ rowStarts2 A = [100 * sdrank; 100 * sdrank + 100]%Z
        /\ colStarts2 A = rowStarts2 A
        /\ forall i, (i < 100)%nat ->
             csr_row A i = Some [(100 * sdrank + Z.of_nat i)%Z]).
Proof.
  intros Hr Hmax. split.
  - intros Hne. unfold TestHypreIdentity. cbv zeta.
    rewrite sum_loop by lia. cbn [mbind result_bind].
    destruct (Z.eqb_spec 200 (100 * Z.of_nat (Z.to_nat nsdprocs))); [lia|].
    reflexivity.
  - intros ->. assert (Hs : sdrank = 0%Z \/ sdrank = 1%Z) by lia.
    destruct Hs as [-> | ->].
    + exists {| I_nnz := seqZ 0 101; J_col := seqZ 0 100;
                rowStarts2 := [0; 100]%Z; colStarts2 := [0; 100]%Z |}.
      split; [vm_compute; reflexivity|]. split; [reflexivity|].
      split; [reflexivity|]. apply (identity_rows _ 100); reflexivity.
    + exists {| I_nnz := seqZ 0 101; J_col := seqZ 100 100;
                rowStarts2 := [100; 200]%Z; colStarts2 := [100; 200]%Z |}.
      split; [vm_compute; reflexivity|]. split; [reflexivity|].
      split; [reflexivity|]. apply (identity_rows _ 100); reflexivity.
Qed.

Lemma hypre_identity_witness :
  (2%Z <> 2%Z -> TestHypreIdentity 2 1 = Aborted)
  /\ (2%Z = 2%Z ->
      exists A,
        TestHypreIdentity 2 1 = Ret A
        /\ rowStarts2 A = [100 * 1; 100 * 1 + 100]%Z
        /\ colStarts2 A = rowStarts2 A
        /\ forall i, (i < 100)%nat ->
             csr_row A i = Some [(100 * 1 + Z.of_nat i)%Z]).
Proof.
  refine (hypre_identity 2 1 _ _).
  - lia.
  - vm_compute. discriminate.
Defined.

Example TestHypreIdentity_four_processes :
  TestHypreIdentity 4 3 = Aborted.
Proof. vm_compute. reflexivity. Qed.

(** ** Offsets of the processes *)

Lemma sumZ_app (l1 l2 : list Z) : sumZ (l1 ++ l2) = (sumZ l1 + sumZ l2)%Z.
Proof.
  unfold sumZ. induction l1 as [|a l1 IH]; cbn [app foldr]; [reflexivity|].
  rewrite IH. lia.
Qed.

Lemma sumZ_nonneg (l : list Z) :
  Forall (fun a => (0 <= a)%Z) l -> (0 <= sumZ l)%Z.
Proof.
  induction 1 as [|a l Ha _ IH]; unfold sumZ in *; cbn [foldr]; lia.
Qed.

Lemma sumZ_replicate_0 n : sumZ (replicate n 0%Z) = 0%Z.
Proof. induction n as [|n IH]; [reflexivity|]. exact IH. Qed.

Lemma sumZ_take_le (l : list Z) (k : nat) :
  Forall (fun a => (0 <= a)%Z) l -> (0 <= sumZ (take k l) <= sumZ l)%Z.
Proof.
  intros H. rewrite <- (take_drop k l) at 3. rewrite sumZ_app.
  pose proof (sumZ_nonneg (take k l) (Forall_take _ _ _ H)).
  pose proof (sumZ_nonneg (drop k l) (Forall_drop _ _ _ H)). lia.
Qed.

Lemma MPI_Allreduce_sum_exact (l : list Z) :
  Forall (fun a => (0 <= a)%Z) l -> (sumZ l <= CInt.INT_MAX)%Z ->
  MPI_Allreduce_sum l = sumZ l.
Proof.
  induction 1 as [|a l Ha Hl IH]; intros Hmax; [reflexivity|].
  unfold MPI_Allreduce_sum, sumZ in *. cbn [foldr] in *.
  pose proof (sumZ_nonneg l Hl) as Hs. unfold sumZ in Hs.
  rewrite IH by lia. apply CIntFacts.wrap_id.
  unfold CInt.in_range, CInt.INT_MIN, CInt.INT_MAX in *. lia.
Qed.

(** X13.  Lines 294-313 of ex3p_dd.cpp, called with at least as many
    [nprocs] as [MPI_COMM_WORLD] has processes, on heights whose sum is an
    [int]: the check [cnt == ng] never fails, and [myos] is the sum of
    the heights of the processes of lower rank. *)
Theorem offsets_verified (heights : list Z) (nprocs rank : Z) :
  Forall (fun a => (0 <= a)%Z) heights ->
  (sumZ heights <= CInt.INT_MAX)%Z ->
  (Z.of_nat (length heights) <= nprocs)%Z ->
  PrintDenseMatrixOfOperator heights nprocs rank
  = Ret (sumZ (take (Z.to_nat rank) heights)).
Proof.
  intros Hpos Hmax Hn. unfold PrintDenseMatrixOfOperator. cbv zeta.
  rewrite MPI_Allreduce_sum_exact by assumption.
  unfold MPI_Allgather.
  destruct (Nat.leb_spec (length heights) (Z.to_nat nprocs)); [|lia].
  cbn [mbind result_bind].
  set (alln := heights ++ replicate (Z.to_nat nprocs - length heights) 0%Z).
  assert (Hlen : length alln = Z.to_nat nprocs)
    by (unfold alln; rewrite length_app, length_replicate; lia).
  assert (Hall : Forall (fun a => (0 <= a)%Z) alln).
  { unfold alln. apply Forall_app. split; [exact Hpos|].
    apply Forall_replicate. lia. }
  assert (Hsum : sumZ alln = sumZ heights)
    by (unfold alln; rewrite sumZ_app, sumZ_replicate_0; lia).
  destruct (for_loop_invariant (fun _ => Z.to_nat nprocs)
              (offsets_body alln rank) (Z.to_nat nprocs)
              (offsets_inv alln rank))
    with (fuel := Z.to_nat nprocs) (i := 0%nat) (s := (0%Z, 0%Z))
    as ([myos cnt] & Hrun & Hmyos & Hcnt).
  - reflexivity.
  - intros i [myos cnt] Hi [H1 H2]. cbn [fst snd] in *. subst myos cnt.
    unfold offsets_body, array_get.
    destruct (lookup_lt_is_Some_2 alln i ltac:(lia)) as [a Ha].
    rewrite Ha. cbn [mbind result_bind fst snd].
    eexists. split; [reflexivity|]. unfold offsets_inv. cbn [fst snd].
    pose proof (sumZ_take_le alln (S i) Hall) as Hb.
    rewrite (take_S_r _ _ _ Ha), sumZ_app in Hb |- *.
    change (sumZ [a]) with (a + 0)%Z in *.
    pose proof (sumZ_take_le alln i Hall) as Hb'.
    pose proof (sumZ_take_le alln (Nat.min i (Z.to_nat rank)) Hall) as Hb''.
    assert (Ha0 : (0 <= a)%Z).
    { rewrite Forall_lookup in Hall. exact (Hall i a Ha). }
    split.
    + destruct (Z.ltb_spec (Z.of_nat i) rank) as [Hlt|Hge].
      * rewrite (Nat.min_l i) in * by lia.
        rewrite (Nat.min_l (S i)) by lia.
        rewrite (take_S_r _ _ _ Ha), sumZ_app.
        change (sumZ [a]) with (a + 0)%Z.
        unfold CInt.add. rewrite CIntFacts.wrap_id
          by (unfold CInt.in_range, CInt.INT_MIN, CInt.INT_MAX in *; lia).
        lia.
      * f_equal. f_equal. lia.
    + unfold CInt.add. rewrite CIntFacts.wrap_id
        by (unfold CInt.in_range, CInt.INT_MIN, CInt.INT_MAX in *; lia).
      lia.
  - lia.
  - lia.
  - split; reflexivity.
  - rewrite Hrun. cbn [mbind result_bind fst snd] in *.
    rewrite Hcnt, <- Hlen, firstn_all, Hsum, Z.eqb_refl.
    cbn [MFEM_VERIFY mbind result_bind]. f_equal. rewrite Hmyos.
    destruct (Nat.le_ge_cases (Z.to_nat nprocs) (Z.to_nat rank)) as [Hr|Hr].
    + rewrite Nat.min_l by lia. rewrite !take_ge by lia. exact Hsum.
    + rewrite Nat.min_r by lia. unfold alln.
      destruct (Nat.le_ge_cases (Z.to_nat rank) (length heights)) as [Hk|Hk].
      * rewrite take_app_le by lia. reflexivity.
      * rewrite take_app_ge by lia.
        rewrite (take_ge heights) by lia.
        rewrite sumZ_app, take_replicate, sumZ_replicate_0. lia.
Qed.

Lemma offsets_verified_witness :
  PrintDenseMatrixOfOperator [4; 0; 6]%Z 3 2
  = Ret (sumZ (take (Z.to_nat 2) [4; 0; 6]%Z)).
Proof.
  refine (offsets_verified [4; 0; 6]%Z 3 2 _ _ _).
  - repeat (constructor; [lia|]). constructor.
  - vm_compute. discriminate.
  - simpl. lia.
Defined.

Example PrintDenseMatrixOfOperator_short_buffer :
  PrintDenseMatrixOfOperator [4; 0; 6]%Z 2 1 = Undefined.
Proof. vm_compute. reflexivity. Qed.
